(** * Offline music player: queue builder, playback controller,
      play-count tracker and library store

    A shallow embedding of [src/App.tsx] (the React component that owns the
    playback state) and of [services/db] (the IndexedDB store), with the
    properties of the queue builder, the transport transitions, the
    play-count effect and the store operations.

    Conventions.
    - A JavaScript [number] is a binary64 value.  One that holds a count, an
      index or a timestamp is a [Z], one that holds seconds or a value of
      [Math.random()] is a rational [Q].  The increment of a play count
      and the product that picks a random index are rounded to binary64
      ([jsAdd], [binary64]); index arithmetic, the sum of the play counts
      and the weighted comparator are taken exact.
    - A JavaScript string is held as the bytes of its UTF-8 encoding; the
      store orders its string keys by UTF-16 code units ([codeUnits]).
    - [Math.random()] reads the next value of a generator [Rng]; the
      generator is threaded through every function that draws.
    - [Array.prototype.sort], [localeCompare] and [toLowerCase] belong to the
      JavaScript engine, not to the repository: the sort is modelled by the
      classic insertion sort ([sortWith]) and the two string functions are
      section variables.  With a comparator that is not consistent the
      language leaves the order of the result to the engine; [sortWith]
      fixes one.
    - The key generator of an object store follows the Indexed Database
      rules: it starts at 1, gives out keys up to 2^53 and fails after that.
    - A React state setter takes effect at the next render: inside one
      handler every state variable, and every callback memoised on it, keeps
      the value of the render the handler was created in. *)

From Stdlib Require Import QArith Qround Qpower Qabs Lqa Ascii.
From stdpp Require Import gmap strings list fin_maps sorting pretty.

Close Scope Q_scope.
Open Scope Z_scope.

(** ** JavaScript numbers

    Every [number] is a binary64 value: the exact result of an arithmetic
    operation is rounded to the nearest value with a 53-bit significand, a
    tie going to the even significand.  Results beyond the largest finite
    number would be [Infinity]; the operations below never reach it on the
    values the program holds. *)

(** Position of the leading binary digit of a rational that is not zero: the
    [e] with [2^e <= |q| < 2^(e+1)]. *)
Definition binade (q : Q) : Z :=
  let e0 := Z.log2 (Z.abs (Qnum q)) - Z.log2 (Zpos (Qden q)) in
  if Qle_bool (2 ^ e0) (Qabs q) then e0 else e0 - 1.

(** The nearest integer, a tie going to the even one. *)
Definition nearestEven (x : Q) : Z :=
  let f := Qfloor x in
  match (x - inject_Z f ?= 1 # 2)%Q with
  | Lt => f
  | Gt => f + 1
  | Eq => if Z.even f then f else f + 1
  end.

(** The unit in the last place of [q]: 52 binary digits below the leading
    one, and never below the smallest subnormal step. *)
Definition ulp (q : Q) : Q := (2 ^ Z.max (binade q - 52) (-1074))%Q.

(** Rounding of an exact result to binary64. *)
Definition binary64 (q : Q) : Q :=
  if Qeq_bool q 0 then 0%Q
  else (inject_Z (nearestEven (q / ulp q)) * ulp q)%Q.

(** [a + b] on two numbers that hold integers; the rounded sum is again an
    integer. *)
Definition jsAdd (a b : Z) : Z := Qfloor (binary64 (inject_Z (a + b))).

(** Half a unit in the last place of 1: the relative error of one rounding. *)
Definition EPSILON : Q := 1 # 2 ^ 53.

(** ** Data model ([src/types.ts]) *)

(** The [File] handle of a song: only its name and modification time are read
    by the code ([scanFiles] builds the song identity from them). *)
Record File := mkFile {
  name : string;
  lastModified : Z
}.

Record Song := mkSong {
  id : string;
  file : File;
  fileName : string;
  title : string;
  artist : string;
  album : string;
  duration : Q;
  playCount : Z;
  dateAdded : Z
}.

Record Playlist := mkPlaylist {
  playlist_id : Z;
  playlist_name : string;
  songIds : list string;
  dateCreated : Z
}.

Inductive SortKey := KeyTitle | KeyArtist | KeyPlayCount | KeyDateAdded.
Inductive SortDirection := Asc | Desc.

Record SortOption := mkSortOption {
  key : SortKey;
  direction : SortDirection
}.

Inductive ShuffleMode := ShuffleNone | ShuffleRandom | ShuffleWeighted.
Inductive RepeatMode := RepeatNone | RepeatOne | RepeatAll.

#[global] Instance Q_eq_dec : EqDecision Q.
Proof. solve_decision. Defined.
#[global] Instance File_eq_dec : EqDecision File.
Proof. solve_decision. Defined.
#[global] Instance Song_eq_dec : EqDecision Song.
Proof. solve_decision. Defined.
#[global] Instance ShuffleMode_eq_dec : EqDecision ShuffleMode.
Proof. solve_decision. Defined.
#[global] Instance RepeatMode_eq_dec : EqDecision RepeatMode.
Proof. solve_decision. Defined.

(** [song.playCount += 1] on a copy of the record. *)
Definition bumpPlayCount (s : Song) : Song :=
  mkSong (id s) (file s) (fileName s) (title s) (artist s) (album s)
         (duration s) (jsAdd (playCount s) 1) (dateAdded s).

(** ** Outcomes of code that can throw *)

Inductive JsError := TypeError.

(** [Ok]: the call returns (a promise resolves); [Throw]: it throws (the
    promise rejects); [Untyped]: the call returns but has put [undefined]
    into an array that the types declare as [Song[]], which the typed state
    below cannot hold. *)
Inductive Result (A : Type) :=
| Ok (a : A)
| Throw (e : JsError)
| Untyped.
Arguments Ok {A} a.
Arguments Throw {A} e.
Arguments Untyped {A}.

(** ** JavaScript arrays: index and [findIndex] *)

(** [arr[i]]: [undefined] ([None]) for a negative or too large index. *)
Definition at_index {A} (arr : list A) (i : Z) : option A :=
  if i <? 0 then None else arr !! Z.to_nat i.

(** [arr.findIndex(p)]: the first index whose element satisfies [p], or -1. *)
Fixpoint findIndex_from {A} (p : A → bool) (arr : list A) (i : Z) : Z :=
  match arr with
  | [] => -1
  | x :: rest => if p x then i else findIndex_from p rest (i + 1)
  end.

Definition findIndex {A} (p : A → bool) (arr : list A) : Z :=
  findIndex_from p arr 0.

(** [s => s.id === id] *)
Definition hasId (i : string) (s : Song) : bool := bool_decide (id s = i).

(** [arr.find(p)] *)
Fixpoint find_first {A} (p : A → bool) (arr : list A) : option A :=
  match arr with
  | [] => None
  | x :: rest => if p x then Some x else find_first p rest
  end.

(** ** The random source *)

(** A value of [Math.random()]: a binary64 number in the interval [0, 1). *)
Record Unit01 := mkUnit01 {
  u01 : Q;
  u01_range : Qle_bool 0 u01 && negb (Qle_bool 1 u01) = true;
  u01_binary64 : Qeq_bool (binary64 u01) u01 = true
}.

(** The generator: the sequence of values it will return and how many of
    them have been drawn. *)
Record Rng := mkRng {
  draws : nat → Unit01;
  pos : nat
}.

Definition Rand (A : Type) : Type := Rng → A * Rng.

Definition Math_random : Rand Q :=
  λ g, (u01 (draws g (pos g)), mkRng (draws g) (S (pos g))).

(** Number of values drawn between two generator states. *)
Definition drawn (g g' : Rng) : nat := (pos g' - pos g)%nat.

(** ** [Array.prototype.sort] with a comparator that may draw *)

(** [order > 0] *)
Definition isPositive (order : Q) : bool := negb (Qle_bool order 0).

Section Sort.
Context {A St : Type}.
Variable cmp : A → A → St → Q * St.

(** One insertion step of the engine's insertion sort.  [before] is the
    already ordered prefix, last element first; [x] moves left while the
    comparator says that its left neighbour belongs after it. *)
Fixpoint insertBack (x : A) (before : list A) (s : St) : list A * St :=
  match before with
  | [] => ([x], s)
  | y :: rest =>
      let '(order, s1) := cmp y x s in
      if isPositive order then
        let '(placed, s2) := insertBack x rest s1 in (y :: placed, s2)
      else (x :: y :: rest, s1)
  end.

Fixpoint sortLoop (todo : list A) (before : list A) (s : St) : list A * St :=
  match todo with
  | [] => (rev before, s)
  | x :: rest =>
      let '(before', s1) := insertBack x before s in
      sortLoop rest before' s1
  end.

Definition sortWith (arr : list A) (s : St) : list A * St :=
  sortLoop arr [] s.
End Sort.

(** ** Queue builder: [getShuffledQueue] (App.tsx, lines 330-346) *)

(** [[queue[i], queue[j]] = [queue[j], queue[i]]].  Both elements are read
    before either is written.  The loop below only passes indices inside the
    array ([fisherYates_in_range]), so the second branch is never taken. *)
Definition swap {A} (queue : list A) (i j : nat) : list A :=
  match queue !! i, queue !! j with
  | Some qi, Some qj => <[j := qi]> (<[i := qj]> queue)
  | _, _ => queue
  end.

(** [Math.floor(Math.random() * (i + 1))]: the floor of the rounded
    product.  [i + 1] itself is exact, an index being far below 2^53. *)
Definition randomIndex (r : Q) (i : nat) : nat :=
  Z.to_nat (Qfloor (binary64 (r * inject_Z (Z.of_nat i + 1)))).

(** [for (let i = queue.length - 1; i > 0; i--) { j = ...; swap }] with the
    loop variable as the recursion argument. *)
Fixpoint fisherYates (i : nat) (queue : list Song) (g : Rng) : list Song * Rng :=
  match i with
  | O => (queue, g)
  | S i' =>
      let '(r, g1) := Math_random g in
      let j := randomIndex r i in
      fisherYates i' (swap queue i j) g1
  end.

(** [queue.reduce((sum, song) => sum + song.playCount, 0)] *)
Definition totalPlayCount (queue : list Song) : Z :=
  fold_left (λ sum song, sum + playCount song) queue 0.

(** [x || 1] on numbers: [x] unless it is zero. *)
Definition orOne (x : Z) : Z := if x =? 0 then 1 else x.

(** [(totalPlayCount - a.playCount) || 1] *)
Definition weight (total : Z) (a : Song) : Z := orOne (total - playCount a).

(** The comparator handed to [sort] in weighted mode:
    [(Math.random() * weightB) - (Math.random() * weightA)]. *)
Definition weightedCompare (total : Z) (a b : Song) : Rand Q :=
  λ g,
    let weightA := weight total a in
    let weightB := weight total b in
    let '(r1, g1) := Math_random g in
    let '(r2, g2) := Math_random g1 in
    ((r1 * inject_Z weightB - r2 * inject_Z weightA)%Q, g2).

(** [getShuffledQueue] is memoised on [shuffleMode]: the mode is the one of
    the render that created the callback. *)
Definition getShuffledQueue (shuffleMode : ShuffleMode)
    (sourceQueue : list Song) : Rand (list Song) :=
  λ g,
    let queue := sourceQueue in
    match shuffleMode with
    | ShuffleRandom => fisherYates (length queue - 1) queue g
    | ShuffleWeighted =>
        sortWith (weightedCompare (totalPlayCount queue)) queue g
    | ShuffleNone => (queue, g)
    end.

(** ** The component state ([App], lines 91-116) *)

Inductive ViewType := Library | PlaylistView.

(** [{ type: 'library' | 'playlist'; id?: number }] *)
Record ActiveView := mkView {
  view_type : ViewType;
  view_id : option Z
}.

(** The [<audio>] element behind [audioRef]: the position it plays at and
    whether it is paused.  The element is the browser's; an assignment to
    [currentTime] is recorded as made. *)
Record Audio := mkAudio {
  audio_currentTime : Q;
  audio_paused : bool
}.

Record AppState := mkApp {
  songs : list Song;
  playlists : list Playlist;
  activeView : ActiveView;
  searchQuery : string;
  sortOption : SortOption;
  currentSongIndex : Z;
  playQueue : list Song;
  isPlaying : bool;
  currentTime : Q;
  audioDuration : Q;
  shuffleMode : ShuffleMode;
  repeatMode : RepeatMode;
  audioRef : option Audio;
  playCountTrackedRef : gset string
}.

Definition setSongs (v : list Song) (st : AppState) : AppState :=
  mkApp v (playlists st) (activeView st) (searchQuery st) (sortOption st)
    (currentSongIndex st) (playQueue st) (isPlaying st) (currentTime st)
    (audioDuration st) (shuffleMode st) (repeatMode st) (audioRef st)
    (playCountTrackedRef st).

Definition setCurrentSongIndex (v : Z) (st : AppState) : AppState :=
  mkApp (songs st) (playlists st) (activeView st) (searchQuery st)
    (sortOption st) v (playQueue st) (isPlaying st) (currentTime st)
    (audioDuration st) (shuffleMode st) (repeatMode st) (audioRef st)
    (playCountTrackedRef st).

Definition setPlayQueue (v : list Song) (st : AppState) : AppState :=
  mkApp (songs st) (playlists st) (activeView st) (searchQuery st)
    (sortOption st) (currentSongIndex st) v (isPlaying st) (currentTime st)
    (audioDuration st) (shuffleMode st) (repeatMode st) (audioRef st)
    (playCountTrackedRef st).

Definition setIsPlaying (v : bool) (st : AppState) : AppState :=
  mkApp (songs st) (playlists st) (activeView st) (searchQuery st)
    (sortOption st) (currentSongIndex st) (playQueue st) v (currentTime st)
    (audioDuration st) (shuffleMode st) (repeatMode st) (audioRef st)
    (playCountTrackedRef st).

Definition setCurrentTime (v : Q) (st : AppState) : AppState :=
  mkApp (songs st) (playlists st) (activeView st) (searchQuery st)
    (sortOption st) (currentSongIndex st) (playQueue st) (isPlaying st) v
    (audioDuration st) (shuffleMode st) (repeatMode st) (audioRef st)
    (playCountTrackedRef st).

Definition setShuffleMode (v : ShuffleMode) (st : AppState) : AppState :=
  mkApp (songs st) (playlists st) (activeView st) (searchQuery st)
    (sortOption st) (currentSongIndex st) (playQueue st) (isPlaying st)
    (currentTime st) (audioDuration st) v (repeatMode st) (audioRef st)
    (playCountTrackedRef st).

Definition setRepeatMode (v : RepeatMode) (st : AppState) : AppState :=
  mkApp (songs st) (playlists st) (activeView st) (searchQuery st)
    (sortOption st) (currentSongIndex st) (playQueue st) (isPlaying st)
    (currentTime st) (audioDuration st) (shuffleMode st) v (audioRef st)
    (playCountTrackedRef st).

(** A write through [audioRef.current]. *)
Definition setAudio (v : option Audio) (st : AppState) : AppState :=
  mkApp (songs st) (playlists st) (activeView st) (searchQuery st)
    (sortOption st) (currentSongIndex st) (playQueue st) (isPlaying st)
    (currentTime st) (audioDuration st) (shuffleMode st) (repeatMode st) v
    (playCountTrackedRef st).

(** A write through [playCountTrackedRef.current]. *)
Definition setTracked (v : gset string) (st : AppState) : AppState :=
  mkApp (songs st) (playlists st) (activeView st) (searchQuery st)
    (sortOption st) (currentSongIndex st) (playQueue st) (isPlaying st)
    (currentTime st) (audioDuration st) (shuffleMode st) (repeatMode st)
    (audioRef st) v.

(** [playQueue[currentSongIndex]] *)
Definition currentSong (st : AppState) : option Song :=
  at_index (playQueue st) (currentSongIndex st).

(** ** Playback controller (App.tsx, lines 258-377) *)

Definition playSong (song : Song) (songList : list Song) (st : AppState)
    : Rand AppState :=
  λ g,
    let index := findIndex (hasId (id song)) songList in
    if -1 <? index then
      let '(st1, g1) :=
        if bool_decide (shuffleMode st ≠ ShuffleNone) then
          let '(shuffledQueue, g1) := getShuffledQueue (shuffleMode st) songList g in
          let newIndex := findIndex (hasId (id song)) shuffledQueue in
          (setCurrentSongIndex newIndex (setPlayQueue shuffledQueue st), g1)
        else
          (setCurrentSongIndex index (setPlayQueue songList st), g)
      in (setIsPlaying true st1, g1)
    else (st, g).

(** [audio.currentTime = 0; audio.play()] *)
Definition restartAudio (a : Audio) : Audio := mkAudio 0%Q false.

(** [audio.currentTime = 0] *)
Definition rewindAudio (a : Audio) : Audio := mkAudio 0%Q (audio_paused a).

Definition playNextSong (st : AppState) : AppState :=
  if bool_decide (length (playQueue st) = 0%nat) then st
  else if bool_decide (repeatMode st = RepeatOne) then
    setAudio (restartAudio <$> audioRef st) st
  else
    let nextIndex := currentSongIndex st + 1 in
    if Z.of_nat (length (playQueue st)) <=? nextIndex then
      if bool_decide (repeatMode st = RepeatAll) then setCurrentSongIndex 0 st
      else setIsPlaying false st
    else setCurrentSongIndex nextIndex st.

(** [audioRef.current && audioRef.current.currentTime > 3] *)
Definition pastScrubBack (ref : option Audio) : bool :=
  match ref with
  | Some a => negb (Qle_bool (audio_currentTime a) 3%Q)
  | None => false
  end.

Definition playPrevSong (st : AppState) : AppState :=
  if bool_decide (length (playQueue st) = 0%nat) then st
  else if pastScrubBack (audioRef st) then
    setAudio (rewindAudio <$> audioRef st) st
  else
    let prevIndex := currentSongIndex st - 1 in
    if prevIndex <? 0 then
      if bool_decide (repeatMode st = RepeatAll)
      then setCurrentSongIndex (Z.of_nat (length (playQueue st)) - 1) st
      else st
    else setCurrentSongIndex prevIndex st.

Definition handlePlayPause (st : AppState) : Rand AppState :=
  λ g,
    if bool_decide (0 < length (playQueue st))%nat then
      (setIsPlaying (negb (isPlaying st)) st, g)
    else
      match songs st with
      | first :: _ => playSong first (songs st) st g
      | [] => (st, g)
      end.

Definition handleSeek (time : Q) (st : AppState) : AppState :=
  match audioRef st with
  | Some a => setCurrentTime time (setAudio (Some (mkAudio time (audio_paused a))) st)
  | None => st
  end.

(** [modes[(modes.indexOf(mode) + 1) % modes.length]] for
    [['none', 'random', 'weighted']] and [['none', 'all', 'one']]. *)
Definition nextShuffleMode (m : ShuffleMode) : ShuffleMode :=
  match m with
  | ShuffleNone => ShuffleRandom
  | ShuffleRandom => ShuffleWeighted
  | ShuffleWeighted => ShuffleNone
  end.

Definition nextRepeatMode (m : RepeatMode) : RepeatMode :=
  match m with
  | RepeatNone => RepeatAll
  | RepeatAll => RepeatOne
  | RepeatOne => RepeatNone
  end.

Definition toggleRepeat (st : AppState) : AppState :=
  setRepeatMode (nextRepeatMode (repeatMode st)) st.

(** [p => p.id === activeView.id] *)
Definition isActivePlaylist (v : ActiveView) (p : Playlist) : bool :=
  bool_decide (Some (playlist_id p) = view_id v).

(** The list [toggleShuffle] reverts to: the library, or the songs of the
    active playlist looked up one by one ([songs.find(...)!], [None] where
    the identity is not in the library), or [[]] without such a playlist. *)
Definition originalList (st : AppState) : list (option Song) :=
  match view_type (activeView st) with
  | Library => Some <$> songs st
  | PlaylistView =>
      match find_first (isActivePlaylist (activeView st)) (playlists st) with
      | Some p => (λ i, find_first (hasId i) (songs st)) <$> songIds p
      | None => []
      end
  end.

(** [list.findIndex(s => s.id === currentSong.id)]: the callback reads
    [currentSong.id] and [s.id], so it throws when it is called with either
    of them [undefined]. *)
Fixpoint findCurrent_from (current : option Song) (arr : list (option Song))
    (i : Z) : Result Z :=
  match arr with
  | [] => Ok (-1)
  | s :: rest =>
      match s, current with
      | Some s, Some c =>
          if hasId (id c) s then Ok i else findCurrent_from current rest (i + 1)
      | _, _ => Throw TypeError
      end
  end.

Definition findCurrent (current : option Song) (arr : list (option Song))
    : Result Z :=
  findCurrent_from current arr 0.

(** The array as a [Song[]], when every entry is a song. *)
Definition typedList (arr : list (option Song)) : option (list Song) :=
  mapM (λ s, s) arr.

(** The handler calls [getShuffledQueue] of its own render, whose mode is
    still [shuffleMode st]; [setShuffleMode(newMode)] only shows at the next
    render.  When the lookup of the current song throws, the handler is left
    at that point and the model reports the throw alone. *)
Definition toggleShuffle (st : AppState) : Rng → Result (AppState * Rng) :=
  λ g,
    let newMode := nextShuffleMode (shuffleMode st) in
    let st1 := setShuffleMode newMode st in
    if bool_decide (newMode ≠ ShuffleNone) && bool_decide (0 < length (playQueue st))%nat then
      let current := at_index (playQueue st) (currentSongIndex st) in
      let '(newQueue, g1) := getShuffledQueue (shuffleMode st) (playQueue st) g in
      match findCurrent current (Some <$> newQueue) with
      | Ok newIndex =>
          Ok (setCurrentSongIndex newIndex (setPlayQueue newQueue st1), g1)
      | Throw e => Throw e
      | Untyped => Untyped
      end
    else if bool_decide (newMode = ShuffleNone) && bool_decide (0 < length (playQueue st))%nat then
      let list := originalList st in
      let current := at_index (playQueue st) (currentSongIndex st) in
      match findCurrent current list with
      | Ok newIndex =>
          match typedList list with
          | Some typed =>
              Ok (setCurrentSongIndex newIndex (setPlayQueue typed st1), g)
          | None => Untyped
          end
      | Throw e => Throw e
      | Untyped => Untyped
      end
    else Ok (st1, g).

(** ** The source view: [filteredAndSortedSongs] (App.tsx, lines 398-427) *)

Section SourceView.
(** The engine's [String.prototype.localeCompare] and [toLowerCase]. *)
Variable localeCompare : string → string → Z.
Variable toLowerCase : string → string.

(** [s.includes(sub)] *)
Definition includes (s sub : string) : bool :=
  match String.index 0 sub s with
  | Some _ => true
  | None => false
  end.

(** The songs of the active view before search and sort; a playlist
    identity that is not in the library is dropped. *)
Definition viewItems (st : AppState) : list Song :=
  match view_type (activeView st) with
  | Library => songs st
  | PlaylistView =>
      match find_first (isActivePlaylist (activeView st)) (playlists st) with
      | Some p => omap (λ i, find_first (hasId i) (songs st)) (songIds p)
      | None => []
      end
  end.

Definition matchesSearch (query : string) (song : Song) : bool :=
  includes (toLowerCase (title song)) (toLowerCase query)
  || includes (toLowerCase (artist song)) (toLowerCase query)
  || includes (toLowerCase (album song)) (toLowerCase query).

Definition sortCompare (opt : SortOption) (a b : Song) : unit → Q * unit :=
  λ u,
    let compare :=
      match key opt with
      | KeyTitle => localeCompare (title a) (title b)
      | KeyArtist => localeCompare (artist a) (artist b)
      | KeyPlayCount => playCount a - playCount b
      | KeyDateAdded => dateAdded a - dateAdded b
      end in
    (inject_Z (match direction opt with Asc => compare | Desc => - compare end), u).

Definition filteredAndSortedSongs (st : AppState) : list Song :=
  let items := viewItems st in
  let items :=
    if bool_decide (searchQuery st ≠ "")
    then filter (λ song, matchesSearch (searchQuery st) song = true) items
    else items in
  (sortWith (sortCompare (sortOption st)) items tt).1.
End SourceView.

(** ** Play-count tracker (App.tsx, lines 170-188) *)

Definition PLAY_COUNT_THRESHOLD_S : Q := 5%Q.

(** [`${currentSong.id}-${Date.now()}`] *)
Definition songPlaybackId (song : Song) (now : Z) : string :=
  id song +:+ "-" +:+ pretty now.

(** One run of the play-count effect at clock reading [now] (the value of
    [Date.now()]).  Returns the identities passed to [incrementPlayCount]
    and the state with the tracked set as the run leaves it. *)
Definition playCountEffect (now : Z) (st : AppState) : list string * AppState :=
  match currentSong st with
  | None => ([], st)
  | Some song =>
      let songPlaybackId := songPlaybackId song now in
      let '(calls, st1) :=
        if isPlaying st
           && Qle_bool PLAY_COUNT_THRESHOLD_S (currentTime st)
           && negb (bool_decide (songPlaybackId ∈ playCountTrackedRef st))
        then ([id song],
              setTracked ({[ songPlaybackId ]} ∪ playCountTrackedRef st) st)
        else ([], st)
      in
      if negb (isPlaying st1) && negb (currentSongIndex st1 =? -1)
      then (calls, setTracked ∅ st1)
      else (calls, st1)
  end.

(** The [timeupdate] listener: the element has moved to [position] and the
    listener copies it into the state ([setCurrentTime(audio.currentTime)]). *)
Definition updateCurrentTime (position : Q) (st : AppState) : AppState :=
  setCurrentTime position
    (setAudio ((λ a, mkAudio position (audio_paused a)) <$> audioRef st) st).

(** What a session is made of: position reports of the element, and presses
    of the play/pause button. *)
Inductive Signal :=
| TimeUpdate (position : Q)
| PlayPause.

(** The state change of a signal, before the effects run. *)
Definition handle (sig : Signal) (st : AppState) : Rand AppState :=
  λ g,
    match sig with
    | TimeUpdate position => (updateCurrentTime position st, g)
    | PlayPause => handlePlayPause st g
    end.

(** The effect runs after a render in which one of its dependencies
    [[currentTime, isPlaying, currentSongIndex, playQueue]] changed. *)
Definition depsChanged (old new : AppState) : bool :=
  negb (Qeq_bool (currentTime old) (currentTime new)
        && bool_decide (isPlaying old = isPlaying new)
        && bool_decide (currentSongIndex old = currentSongIndex new)
        && bool_decide (playQueue old = playQueue new)).

(** One signal, with the clock reading [now] at which the effect run that
    follows it evaluates [Date.now()]. *)
Definition step (now : Z) (sig : Signal) (st : AppState)
    : Rand (list string * AppState) :=
  λ g,
    let '(st1, g1) := handle sig st g in
    if depsChanged st st1 then (playCountEffect now st1, g1)
    else (([], st1), g1).

(** A series of signals.  The identities passed to [incrementPlayCount] are
    collected in order. *)
Fixpoint run (events : list (Z * Signal)) (st : AppState)
    : Rand (list string * AppState) :=
  λ g,
    match events with
    | [] => (([], st), g)
    | (now, sig) :: rest =>
        let '((calls, st1), g1) := step now sig st g in
        let '((calls', st2), g2) := run rest st1 g1 in
        ((calls ++ calls', st2), g2)
    end.

(** ** Library store ([services/db]) *)

Inductive TxMode := ReadOnly | ReadWrite.

(** What a call does to the database, in order: [db.transaction(...)],
    [tx.store.get], [tx.store.put], [tx.done]. *)
Inductive TxEvent :=
| TxOpen (mode : TxMode)
| TxGet (k : string)
| TxPut (s : Song)
| TxDone.

(** The [songs] object store, keyed by the record's [id] ([keyPath: 'id']),
    and the requests made so far. *)
Record Database := mkDb {
  songsStore : gmap string Song;
  txLog : list TxEvent
}.

Definition Tx (A : Type) : Type := Database → A * Database.

Definition logEvent (e : TxEvent) (db : Database) : Database :=
  mkDb (songsStore db) (txLog db ++ [e]).

(** [tx.store.get(key)] *)
Definition store_get (k : string) : Tx (option Song) :=
  λ db, (songsStore db !! k, logEvent (TxGet k) db).

(** [tx.store.put(song)]: the key is read from the record. *)
Definition store_put (s : Song) : Tx unit :=
  λ db, (tt, logEvent (TxPut s) (mkDb (<[id s := s]> (songsStore db)) (txLog db))).

(** [const tx = db.transaction(SONGS_STORE, mode); ...; await tx.done] *)
Definition transaction {A} (mode : TxMode) (body : Tx A) : Tx A :=
  λ db,
    let '(a, db1) := body (logEvent (TxOpen mode) db) in
    (a, logEvent TxDone db1).

(** *** The order of string keys

    IndexedDB orders string keys by their UTF-16 code units.  A string is
    held here as the bytes of its UTF-8 encoding; [codeUnits] gives the code
    units of the JavaScript string.  A byte sequence that is not UTF-8 does
    not come from a JavaScript string; its stray bytes count as one unit
    each. *)

(** The value of one byte. *)
Definition byteOf (c : ascii) : Z := Z.of_N (N_of_ascii c).

(** The payload of a continuation byte of UTF-8. *)
Definition tail6 (c : ascii) : Z := Z.land (byteOf c) 63.

(** UTF-16 units of one code point: itself inside the basic plane, a
    surrogate pair beyond it. *)
Definition unitsOf (cp : Z) : list Z :=
  if cp <? 65536 then [cp]
  else [55296 + Z.shiftr (cp - 65536) 10; 56320 + Z.land (cp - 65536) 1023].

Fixpoint codeUnits (s : string) : list Z :=
  match s with
  | EmptyString => []
  | String a rest =>
      let b := byteOf a in
      if b <? 192 then b :: codeUnits rest
      else
        match rest with
        | String c1 rest1 =>
            if b <? 224 then
              unitsOf (Z.lor (Z.shiftl (Z.land b 31) 6) (tail6 c1))
              ++ codeUnits rest1
            else
              match rest1 with
              | String c2 rest2 =>
                  if b <? 240 then
                    unitsOf (Z.lor (Z.shiftl (Z.land b 15) 12)
                               (Z.lor (Z.shiftl (tail6 c1) 6) (tail6 c2)))
                    ++ codeUnits rest2
                  else
                    match rest2 with
                    | String c3 rest3 =>
                        unitsOf (Z.lor (Z.shiftl (Z.land b 7) 18)
                                   (Z.lor (Z.shiftl (tail6 c1) 12)
                                      (Z.lor (Z.shiftl (tail6 c2) 6) (tail6 c3))))
                        ++ codeUnits rest3
                    | EmptyString => b :: codeUnits rest
                    end
              | EmptyString => b :: codeUnits rest
              end
        | EmptyString => [b]
        end
  end.

(** Arrays of code units, compared unit by unit; a prefix comes first. *)
Fixpoint unitsLeb (a b : list Z) : bool :=
  match a, b with
  | [], _ => true
  | _ :: _, [] => false
  | x :: a', y :: b' =>
      if x <? y then true else if y <? x then false else unitsLeb a' b'
  end.

(** The order of the keys of the store. *)
Definition keyLe (a b : string * Song) : Prop :=
  unitsLeb (codeUnits a.1) (codeUnits b.1) = true.

#[global] Instance keyLe_dec a b : Decision (keyLe a b).
Proof. unfold keyLe. apply _. Defined.

(** [db.getAll(SONGS_STORE)]: the records in key order. *)
Definition getSongs (db : Database) : list Song :=
  (merge_sort keyLe (map_to_list (songsStore db))).*2.

(** [songs.map(song => tx.store.put(song))]: one put per song, in order. *)
Fixpoint putAll (batch : list Song) : Tx unit :=
  λ db,
    match batch with
    | [] => (tt, db)
    | song :: rest => let '(_, db1) := store_put song db in putAll rest db1
    end.

Definition addSongs (batch : list Song) (db : Database) : Result Database :=
  Ok (transaction ReadWrite (putAll batch) db).2.

Definition getSongById (i : string) (db : Database) : option Song :=
  songsStore db !! i.

Definition incrementPlayCount (songId : string) (db : Database) : Result Database :=
  Ok (transaction ReadWrite
        (λ db1,
           let '(song, db2) := store_get songId db1 in
           match song with
           | Some song => store_put (bumpPlayCount song) db2
           | None => (tt, db2)
           end) db).2.

(** [n] calls one after the other, each awaited before the next. *)
Fixpoint incrementPlayCountTimes (n : nat) (songId : string) (db : Database)
    : Result Database :=
  match n with
  | O => Ok db
  | S n' =>
      match incrementPlayCount songId db with
      | Ok db1 => incrementPlayCountTimes n' songId db1
      | Throw e => Throw e
      | Untyped => Untyped
      end
  end.

(** ** Playlists: the store ([services/db], lines 76-100) *)

(** The [playlists] object store ([keyPath: 'id'], [autoIncrement: true]):
    the records by key, and the key generator, which starts at 1. *)
Record PlaylistStore := mkPlaylistStore {
  playlistRecords : gmap Z Playlist;
  keyGenerator : Z
}.

Definition emptyPlaylistStore : PlaylistStore := mkPlaylistStore ∅ 1.

(** The order of the keys of the store. *)
Definition playlistKeyLe (a b : Z * Playlist) : Prop := a.1 ≤ b.1.

#[global] Instance playlistKeyLe_dec a b : Decision (playlistKeyLe a b).
Proof. unfold playlistKeyLe. apply _. Defined.

(** [db.getAll(PLAYLISTS_STORE)]: the records in key order. *)
Definition getPlaylists (pdb : PlaylistStore) : list Playlist :=
  (merge_sort playlistKeyLe (map_to_list (playlistRecords pdb))).*2.

(** The last key that the key generator of an object store gives out. *)
Definition MAX_GENERATED_KEY : Z := 2 ^ 53.

(** [db.add(PLAYLISTS_STORE, { name, songIds: [], dateCreated: Date.now() })].
    The record has no [id]: the store takes the key from the generator,
    writes it into the record and advances the generator.  [add] rejects
    with a [ConstraintError] (here [None]) when the generator has passed its
    last key, and when the key is already taken. *)
Definition addPlaylist (name : string) (now : Z) (pdb : PlaylistStore)
    : option (Z * PlaylistStore) :=
  let newId := keyGenerator pdb in
  if MAX_GENERATED_KEY <? newId then None
  else
    match playlistRecords pdb !! newId with
    | Some _ => None
    | None =>
        Some (newId,
              mkPlaylistStore
                (<[newId := mkPlaylist newId name [] now]> (playlistRecords pdb))
                (newId + 1))
    end.

(** [db.put(PLAYLISTS_STORE, playlist)]: the key is the record's [id]; a key
    at or past the generator moves the generator behind it, and never
    further than one past its last key. *)
Definition updatePlaylist (playlist : Playlist) (pdb : PlaylistStore)
    : PlaylistStore :=
  let value := Z.min (playlist_id playlist) MAX_GENERATED_KEY in
  mkPlaylistStore
    (<[playlist_id playlist := playlist]> (playlistRecords pdb))
    (if keyGenerator pdb <=? value then value + 1 else keyGenerator pdb).

(** [db.delete(PLAYLISTS_STORE, id)] *)
Definition deletePlaylist (i : Z) (pdb : PlaylistStore) : PlaylistStore :=
  mkPlaylistStore (delete i (playlistRecords pdb)) (keyGenerator pdb).

(** ** Playlists: the handlers (App.tsx, lines 379-396) *)

Definition setPlaylists (v : list Playlist) (st : AppState) : AppState :=
  mkApp (songs st) v (activeView st) (searchQuery st) (sortOption st)
    (currentSongIndex st) (playQueue st) (isPlaying st) (currentTime st)
    (audioDuration st) (shuffleMode st) (repeatMode st) (audioRef st)
    (playCountTrackedRef st).

(** [answer] is what [prompt] returned ([None] for [null]); [nowStore] and
    [nowState] are the two readings of [Date.now()], in the store call and in
    the handler. *)
Definition handleCreatePlaylist (answer : option string) (nowStore nowState : Z)
    (st : AppState) (pdb : PlaylistStore) : option (AppState * PlaylistStore) :=
  match answer with
  | Some name =>
      if bool_decide (name ≠ "") then
        match addPlaylist name nowStore pdb with
        | Some (newId, pdb') =>
            let newPlaylist := mkPlaylist newId name [] nowState in
            Some (setPlaylists (playlists st ++ [newPlaylist]) st, pdb')
        | None => None
        end
      else Some (st, pdb)
  | None => Some (st, pdb)
  end.

(** [p => p.id === playlistId] *)
Definition hasPlaylistId (i : Z) (p : Playlist) : bool :=
  bool_decide (playlist_id p = i).

(** [{ ...playlist, songIds: [...playlist.songIds, songId] }] *)
Definition withSong (songId : string) (playlist : Playlist) : Playlist :=
  mkPlaylist (playlist_id playlist) (playlist_name playlist)
             (songIds playlist ++ [songId]) (dateCreated playlist).

(** The modal that the handler closes at its end is not part of the state
    modelled here. *)
Definition handleAddSongToPlaylist (playlistId : Z) (songId : string)
    (st : AppState) (pdb : PlaylistStore) : AppState * PlaylistStore :=
  match find_first (hasPlaylistId playlistId) (playlists st) with
  | Some playlist =>
      if bool_decide (songId ∈ songIds playlist) then (st, pdb)
      else
        let updatedPlaylist := withSong songId playlist in
        (setPlaylists
           ((λ p, if hasPlaylistId playlistId p then updatedPlaylist else p)
              <$> playlists st) st,
         updatePlaylist updatedPlaylist pdb)
  | None => (st, pdb)
  end.

(** ** Import: [scanFiles] (App.tsx, lines 199-256) *)

Definition SUPPORTED_FORMATS : list string :=
  ["mp3"; "m4a"; "wav"; "flac"; "aac"].

(** [s] cut at its last dot: what stands before it and what stands after
    it; [None] when [s] has no dot. *)
Fixpoint splitLastDot (s : string) : option (string * string) :=
  match s with
  | EmptyString => None
  | String c rest =>
      match splitLastDot rest with
      | Some (stem, ext) => Some (String c stem, ext)
      | None => if Ascii.eqb c "."%char then Some (EmptyString, rest) else None
      end
  end.

(** [s.split('.').pop()]: what follows the last dot, or all of [s]. *)
Definition popSplitDot (s : string) : string :=
  match splitLastDot s with
  | Some (_, ext) => ext
  | None => s
  end.

Fixpoint hasSlash (s : string) : bool :=
  match s with
  | EmptyString => false
  | String c rest => Ascii.eqb c "/"%char || hasSlash rest
  end.

(** [s.replace(/\.[^/.]+$/, "")]: the last dot and what follows it are cut
    off when at least one character follows and none of them is a slash. *)
Definition stripExtension (s : string) : string :=
  match splitLastDot s with
  | Some (stem, ext) =>
      if bool_decide (ext ≠ "") && negb (hasSlash ext) then stem else s
  | None => s
  end.

(** The [tags] of a file as [jsmediatags] reports them. *)
Record Tags := mkTags {
  tag_title : option string;
  tag_artist : option string;
  tag_album : option string
}.

(** [value || fallback] on a string that may be [undefined]. *)
Definition orElse (value : option string) (fallback : string) : string :=
  match value with
  | Some v => if bool_decide (v = "") then fallback else v
  | None => fallback
  end.

Section Scan.
(** The engine's [toLowerCase]; the tag reader ([None] when it calls
    [onError]); and the duration that the probing [<audio>] element reports
    (0 on error). *)
Variable toLowerCase : string → string.
Variable readTags : File → option Tags.
Variable probeDuration : File → Q.

(** [!extension || !SUPPORTED_FORMATS.includes(extension)
     || existingSongIds.has(file.name)] *)
Definition skipsFile (existingSongIds : gset string) (f : File) : bool :=
  let extension := toLowerCase (popSplitDot (name f)) in
  bool_decide (extension = "")
  || negb (bool_decide (extension ∈ SUPPORTED_FORMATS))
  || bool_decide (name f ∈ existingSongIds).

(** The song built for a file whose tags were read at clock reading [now]. *)
Definition songOfFile (f : File) (tags : Tags) (now : Z) : Song :=
  mkSong (name f +:+ "-" +:+ pretty (lastModified f)) f (name f)
         (orElse (tag_title tags) (stripExtension (name f)))
         (orElse (tag_artist tags) "Unknown Artist")
         (orElse (tag_album tags) "Unknown Album")
         (probeDuration f) 0 now.

(** The loop over the files; [i] is the loop variable and [now i] the
    reading of [Date.now()] in iteration [i].  A file whose tags cannot be
    read lands in the [catch] and is left out.  The progress display is not
    part of the state modelled here. *)
Fixpoint scanLoop (existingSongIds : gset string) (now : nat → Z)
    (files : list File) (i : nat) : list Song :=
  match files with
  | [] => []
  | f :: rest =>
      if skipsFile existingSongIds f then scanLoop existingSongIds now rest (S i)
      else
        match readTags f with
        | Some tags =>
            songOfFile f tags (now i) :: scanLoop existingSongIds now rest (S i)
        | None => scanLoop existingSongIds now rest (S i)
        end
  end.

(** [new Set(songs.map(s => s.fileName))] *)
Definition fileNamesOf (library : list Song) : gset string :=
  list_to_set (fileName <$> library).

Definition scanFiles (files : list File) (now : nat → Z) (st : AppState)
    (db : Database) : Result (AppState * Database) :=
  let existingSongIds := fileNamesOf (songs st) in
  let newSongs := scanLoop existingSongIds now files 0 in
  if bool_decide (0 < length newSongs)%nat then
    match addSongs newSongs db with
    | Ok db' => Ok (setSongs (songs st ++ newSongs) st, db')
    | Throw e => Throw e
    | Untyped => Untyped
    end
  else Ok (st, db).
End Scan.

(** ** Example data *)

Module Examples.
Definition half : Unit01 := mkUnit01 (1 # 2) eq_refl eq_refl.
Definition quarter : Unit01 := mkUnit01 (1 # 4) eq_refl eq_refl.

Definition songA : Song :=
  mkSong "a.mp3-1" (mkFile "a.mp3" 1) "a.mp3" "A" "Unknown Artist"
         "Unknown Album" 180%Q 0 100.
Definition songB : Song :=
  mkSong "b.mp3-2" (mkFile "b.mp3" 2) "b.mp3" "B" "Unknown Artist"
         "Unknown Album" 200%Q 2 200.
Definition songC : Song :=
  mkSong "c.mp3-3" (mkFile "c.mp3" 3) "c.mp3" "C" "Unknown Artist"
         "Unknown Album" 240%Q 5 300.

(** A generator that returns 1/2, 1/4, 1/2, 1/4, ... *)
Definition alternating : Rng :=
  mkRng (λ n, if Nat.even n then half else quarter) 0.

(** The same first two values, then 1/4 for ever. *)
Definition alternatingThenQuarter : Rng :=
  mkRng (λ n, if (n <? 2)%nat then draws alternating n else quarter) 0.

(** A freshly mounted component that plays [queue] at [index], with the
    library in view and nothing counted yet. *)
Definition playing (queue : list Song) (index : Z) (mode : RepeatMode)
    (position : Q) : AppState :=
  mkApp queue [] (mkView Library None) "" (mkSortOption KeyTitle Asc)
        index queue true position 0%Q ShuffleNone mode
        (Some (mkAudio position false)) ∅.

(** A component in weighted mode, library in view, playing A from the queue
    [C, A, B]. *)
Definition weightedSession : AppState :=
  mkApp [songA; songB; songC] []
        (mkView Library None) "" (mkSortOption KeyTitle Asc)
        1 [songC; songA; songB] true 0%Q 0%Q
        ShuffleWeighted RepeatNone (Some (mkAudio 0%Q false)) ∅.

(** The user started A from the library (queue [A, B]), then opened the
    empty playlist 1 and pressed the shuffle button. *)
Definition emptyPlaylistInView : AppState :=
  mkApp [songA; songB] [mkPlaylist 1 "Empty" [] 0]
        (mkView PlaylistView (Some 1)) "" (mkSortOption KeyTitle Asc)
        0 [songA; songB] true 0%Q 0%Q
        ShuffleNone RepeatNone (Some (mkAudio 0%Q false)) ∅.

(** A store that holds B with two plays. *)
Definition storeWithB : Database :=
  mkDb {[ "b.mp3-2" := songB ]} [].

(** B as stored, and B as a later import describes it. *)
Definition songB' : Song :=
  mkSong "b.mp3-2" (mkFile "b.mp3" 2) "b.mp3" "B (remastered)"
         "Unknown Artist" "Unknown Album" 200%Q 0 400.
End Examples.

(** ** Definitions used to state the properties *)

(** The Fisher-Yates shuffle as the textbooks state it: for [i] from [n - 1]
    down to 1, exchange the elements at [i] and at a chosen position
    [choice i] with [0 <= choice i <= i]. *)
Definition textbookShuffle {A} (choice : nat → nat) (l : list A) : list A :=
  foldl (λ q i, swap q i (choice i)) l (rev (seq 1 (length l - 1))).

(** The largest length of a JavaScript array is [2^32 - 1]. *)
Definition MAX_ARRAY_LENGTH : Z := 2 ^ 32 - 1.

(** The sum of [f] over a list. *)
Definition sumOf {A} (f : A → Z) (l : list A) : Z :=
  foldr (λ x acc, f x + acc) 0 l.

(** The spec's reading of the weighted mode: as many values drawn as there
    are songs, one for each. *)
Definition oneValuePerSong (source : list Song) (g : Rng) : Prop :=
  drawn g (getShuffledQueue ShuffleWeighted source g).2 = length source.

(** How often [incrementPlayCount] was called for an identity. *)
Definition callsFor (i : string) (calls : list string) : nat :=
  length (filter (λ c, c = i) calls).

(** The spec's reading of the tracker: over a session on one song, pauses
    and resumes included, the song is counted once. *)
Definition countedOnce (song : Song) (events : list (Z * Signal))
    (st : AppState) (g : Rng) : Prop :=
  callsFor (id song) (run events st g).1.1 = 1%nat.

(** [t] brought into the interval from [lo] to [hi]. *)
Definition clamp (lo hi t : Q) : Q :=
  if Qle_bool t lo then lo else if Qle_bool hi t then hi else t.

(** The spec's reading of Seek: the stored position is the clamped time. *)
Definition seekClamps (time : Q) (st : AppState) : Prop :=
  (currentTime (handleSeek time st) == clamp 0 (audioDuration st) time)%Q.

(** The spec's reading of the toggle: the new queue is built from the
    current source view under the new mode, for some state of the random
    source. *)
Definition rebuiltFromSourceView (localeCompare : string → string → Z)
    (toLowerCase : string → string) (st st' : AppState) : Prop :=
  ∃ h, playQueue st'
       = (getShuffledQueue (nextShuffleMode (shuffleMode st))
            (filteredAndSortedSongs localeCompare toLowerCase st) h).1.

(** Every record is stored under its own identity, as [keyPath: 'id']
    makes it. *)
Definition storeKeyed (db : Database) : Prop :=
  ∀ k s, songsStore db !! k = Some s → id s = k.

(** [n] plays added to a record. *)
Definition addPlays (n : nat) (s : Song) : Song :=
  mkSong (id s) (file s) (fileName s) (title s) (artist s) (album s)
         (duration s) (playCount s + Z.of_nat n) (dateAdded s).

(** The requests of the [i]-th of a series of increments on a record that
    starts as [s]: one transaction, the read and the write inside it. *)
Definition incrementTrace (songId : string) (s : Song) (i : nat) : list TxEvent :=
  [TxOpen ReadWrite; TxGet songId; TxPut (addPlays (S i) s); TxDone].

(** The reading of the sentence "no increment is ever lost": after [n]
    awaited increments a stored record has [n] more plays. *)
Definition noIncrementLost (db : Database) (songId : string) (n : nat) : Prop :=
  ∀ song, songsStore db !! songId = Some song →
    ∃ db', incrementPlayCountTimes n songId db = Ok db'
      ∧ playCount <$> getSongById songId db' = Some (playCount song + Z.of_nat n).

(** The store after one put per song of a batch. *)
Definition storeAfter (batch : list Song) (m : gmap string Song) : gmap string Song :=
  foldl (λ m s, <[id s := s]> m) m batch.

(** Every playlist is stored under its own [id], and below the key generator
    as long as the generator can give out keys. *)
Definition playlistsKeyed (pdb : PlaylistStore) : Prop :=
  ∀ k p, playlistRecords pdb !! k = Some p →
         playlist_id p = k
         ∧ (k < keyGenerator pdb ∨ MAX_GENERATED_KEY < keyGenerator pdb).

(** The calls a client can make on the playlist store. *)
Inductive PlaylistOp :=
| OpAdd (name : string) (now : Z)
| OpUpdate (playlist : Playlist)
| OpDelete (i : Z).

(** A series of calls, each awaited before the next; [None] as soon as one
    of them rejects. *)
Fixpoint applyOps (ops : list PlaylistOp) (pdb : PlaylistStore)
    : option PlaylistStore :=
  match ops with
  | [] => Some pdb
  | OpAdd name now :: rest =>
      match addPlaylist name now pdb with
      | Some (_, pdb') => applyOps rest pdb'
      | None => None
      end
  | OpUpdate playlist :: rest => applyOps rest (updatePlaylist playlist pdb)
  | OpDelete i :: rest => applyOps rest (deletePlaylist i pdb)
  end.

(** The character [c] occurs in [s]. *)
Fixpoint occurs (c : ascii) (s : string) : bool :=
  match s with
  | EmptyString => false
  | String c' rest => Ascii.eqb c' c || occurs c rest
  end.

(** What can happen between two presses of a button while no song ends:
    the effects run (App.tsx, lines 151-188) and the element reports its
    position and its duration (lines 131-146).  They change the element,
    the reported position and duration, the tracked set and the play counts
    of the library; the queue, the pointer, the playing flag and the two
    modes are as the press left them. *)
Definition sameControls (st st' : AppState) : Prop :=
  playQueue st' = playQueue st
  ∧ currentSongIndex st' = currentSongIndex st
  ∧ isPlaying st' = isPlaying st
  ∧ shuffleMode st' = shuffleMode st
  ∧ repeatMode st' = repeatMode st.

(** [k] presses of a button, each followed by such activity. *)
Inductive pressed (press : AppState → AppState)
    : nat → AppState → AppState → Prop :=
| pressed_0 (st : AppState) : pressed press 0 st st
| pressed_S (k : nat) (st st1 st2 : AppState) :
    pressed press k st st1 → sameControls (press st1) st2 →
    pressed press (S k) st st2.

(** The pointer is -1 or an index of the queue. *)
Definition cursorInQueue (st : AppState) : Prop :=
  -1 ≤ currentSongIndex st < Z.of_nat (length (playQueue st)).

Module MoreExamples.
(** A playlist store after two playlists were created. *)
Definition twoPlaylists : PlaylistStore :=
  mkPlaylistStore
    {[ 1 := mkPlaylist 1 "Morning" ["a.mp3-1"] 10;
       2 := mkPlaylist 2 "Evening" [] 20 ]} 3.

(** The component with the library [A, B, C] and those two playlists, idle. *)
Definition idleLibrary : AppState :=
  mkApp [Examples.songA; Examples.songB; Examples.songC]
        [mkPlaylist 1 "Morning" ["a.mp3-1"] 10; mkPlaylist 2 "Evening" [] 20]
        (mkView Library None) "" (mkSortOption KeyPlayCount Asc)
        (-1) [] false 0%Q 0%Q ShuffleNone RepeatNone
        (Some (mkAudio 0%Q true)) ∅.

Definition plainTags : Tags := mkTags (Some "Title") None (Some "").

(** The string functions and oracles used in the examples: text is left as
    it is, every file has tags, every duration is 3 s. *)
Definition asIs (s : string) : string := s.
Definition alwaysTags (f : File) : option Tags := Some plainTags.
Definition threeSeconds (f : File) : Q := 3%Q.
Definition tick (i : nat) : Z := 1700000000000 + Z.of_nat i.
(** The element after the effects of a press: loaded anew at position 0,
    running or not as the playing flag says, with the position reported at
    [position] and nothing tracked. *)
Definition afterEffects (position : Q) (st : AppState) : AppState :=
  setTracked ∅
    (setCurrentTime position
       (setAudio (Some (mkAudio position (negb (isPlaying st)))) st)).

(** The binary64 number next below 2/3. *)
Definition nearTwoThirds : Unit01 :=
  mkUnit01 (6004799503160661 # 2 ^ 53) eq_refl eq_refl.

(** A record at the end of the range in which every integer is a number. *)
Definition songAtLimit : Song :=
  mkSong "b.mp3-2" (mkFile "b.mp3" 2) "b.mp3" "B" "Unknown Artist"
         "Unknown Album" 0%Q (2 ^ 53) 0.

Definition storeAtLimit : Database := mkDb {[ "b.mp3-2" := songAtLimit ]} [].

(** Two records whose identities start with U+FF5E and with U+1F600. *)
Definition storeBeyondBasicPlane : Database :=
  mkDb (<[ "～.mp3-1" := mkSong "～.mp3-1" (mkFile "～.mp3" 1) "～.mp3" "Wave"
                            "Unknown Artist" "Unknown Album" 1%Q 0 0 ]>
          {[ "😀.mp3-2" := mkSong "😀.mp3-2" (mkFile "😀.mp3" 2) "😀.mp3" "Smile"
                            "Unknown Artist" "Unknown Album" 1%Q 0 0 ]}) [].

(** A store that holds A (never played) and B (two plays). *)
Definition storeWithAB : Database :=
  mkDb (<[ "a.mp3-1" := Examples.songA ]> {[ "b.mp3-2" := Examples.songB ]}) [].

Definition codeUnitCompare (a b : string) : Z :=
  match String.compare a b with Lt => -1 | Eq => 0 | Gt => 1 end.
End MoreExamples.

(** * Properties *)

(** ** Arrays *)

Lemma at_index_Some {A} (arr : list A) (i : Z) (x : A) :
  at_index arr i = Some x ↔ 0 ≤ i ∧ arr !! Z.to_nat i = Some x.
Proof.
  unfold at_index. destruct (Z.ltb_spec i 0); split.
  - intros [=].
  - intros [? _]. lia.
  - auto.
  - intros [_ ?]. done.
Qed.

Lemma at_index_range {A} (arr : list A) (i : Z) (x : A) :
  at_index arr i = Some x → 0 ≤ i < Z.of_nat (length arr).
Proof.
  intros [Hi Hx]%at_index_Some. apply lookup_lt_Some in Hx. lia.
Qed.

Lemma findIndex_from_found {A} (p : A → bool) (arr : list A) (base : Z) :
  (∃ x, x ∈ arr ∧ p x = true) →
  ∃ (n : nat) (x : A),
    findIndex_from p arr base = base + Z.of_nat n
    ∧ arr !! n = Some x ∧ p x = true
    ∧ ∀ (m : nat) (y : A), (m < n)%nat → arr !! m = Some y → p y = false.
Proof.
  revert base. induction arr as [|a arr IH]; intros base [x [Hin Hp]].
  - inversion Hin.
  - simpl. destruct (p a) eqn:Hpa.
    + exists 0%nat, a. repeat split; [lia | done | intros; lia].
    + apply elem_of_cons in Hin as [-> | Hin]; [congruence |].
      destruct (IH (base + 1)) as (n & y & Hn & Hy & Hpy & Hbefore); [eauto |].
      exists (S n), y. repeat split; [lia | done | done |].
      intros [|m] z Hm Hz; simpl in Hz; [congruence |].
      eapply Hbefore; [| done]. lia.
Qed.

Lemma findIndex_from_absent {A} (p : A → bool) (arr : list A) (base : Z) :
  (∀ x, x ∈ arr → p x = false) → findIndex_from p arr base = -1.
Proof.
  revert base. induction arr as [|a arr IH]; intros base Hall; [done |].
  simpl. rewrite Hall by left. apply IH. intros x Hx. apply Hall. by right.
Qed.

(** [findIndex] returns the first position of an element that satisfies the
    predicate. *)
Lemma findIndex_found {A} (p : A → bool) (arr : list A) :
  (∃ x, x ∈ arr ∧ p x = true) →
  ∃ x, 0 ≤ findIndex p arr
       ∧ at_index arr (findIndex p arr) = Some x ∧ p x = true
       ∧ ∀ j y, 0 ≤ j < findIndex p arr → at_index arr j = Some y → p y = false.
Proof.
  intros H. destruct (findIndex_from_found p arr 0 H) as (n & x & Hn & Hx & Hp & Hb).
  unfold findIndex. rewrite Hn. exists x. repeat split; [lia | | done |].
  - apply at_index_Some. split; [lia |].
    by replace (Z.to_nat (0 + Z.of_nat n)) with n by lia.
  - intros j y Hj [_ Hy]%at_index_Some. eapply (Hb (Z.to_nat j)); [lia | done].
Qed.

Lemma findIndex_absent {A} (p : A → bool) (arr : list A) :
  (∀ x, x ∈ arr → p x = false) → findIndex p arr = -1.
Proof. apply findIndex_from_absent. Qed.

Lemma hasId_true (i : string) (s : Song) : hasId i s = true ↔ id s = i.
Proof. unfold hasId. apply bool_decide_eq_true. Qed.

Lemma hasId_false (i : string) (s : Song) : hasId i s = false ↔ id s ≠ i.
Proof. unfold hasId. apply bool_decide_eq_false. Qed.

(** ** JavaScript numbers *)

Lemma pow2_pos (k : Z) : (0 < 2 ^ k)%Q.
Proof. by apply Qpower_0_lt. Qed.

Lemma pow2_succ (k : Z) : (2 ^ (k + 1) == 2 * 2 ^ k)%Q.
Proof. rewrite Qpower_plus by done. rewrite Qpower_1_r. ring. Qed.

Lemma pow2_inject (k : Z) : 0 ≤ k → (2 ^ k == inject_Z (2 ^ k))%Q.
Proof. intros Hk. by rewrite Zpower_Qpower. Qed.

Lemma binade_spec (q : Q) :
  ¬ (q == 0)%Q → (2 ^ binade q <= Qabs q)%Q ∧ (Qabs q < 2 ^ (binade q + 1))%Q.
Proof.
  intros Hq. unfold binade.
  set (n := Z.abs (Qnum q)). set (d := Z.pos (Qden q)).
  assert (Hn : 0 < n).
  { unfold n. destruct q as [[|p|p] dd]; simpl in *; try lia.
    exfalso. apply Hq. reflexivity. }
  assert (Habs : (Qabs q == inject_Z n / inject_Z d)%Q).
  { unfold n, d. destruct q as [a dd]. unfold Qabs. simpl.
    rewrite (Qmake_Qdiv (Z.abs a) dd). reflexivity. }
  assert (Hd : 0 < d) by (unfold d; lia).
  pose proof (Z.log2_spec n Hn) as [Hn1 Hn2].
  pose proof (Z.log2_spec d Hd) as [Hd1 Hd2].
  pose proof (Z.log2_nonneg n) as Hln. pose proof (Z.log2_nonneg d) as Hld.
  set (ln := Z.log2 n) in *. set (ld := Z.log2 d) in *.
  assert (HdQ : (0 < inject_Z d)%Q) by (change 0%Q with (inject_Z 0); by rewrite <- Zlt_Qlt).
  assert (Hn1Q : (2 ^ ln <= inject_Z n)%Q).
  { rewrite pow2_inject by done. by rewrite <- Zle_Qle. }
  assert (Hn2Q : (inject_Z n < 2 ^ (ln + 1))%Q).
  { rewrite pow2_inject by lia. rewrite <- Zlt_Qlt. by replace (ln + 1) with (Z.succ ln) by lia. }
  assert (Hd1Q : (2 ^ ld <= inject_Z d)%Q).
  { rewrite pow2_inject by done. by rewrite <- Zle_Qle. }
  assert (Hd2Q : (inject_Z d < 2 ^ (ld + 1))%Q).
  { rewrite pow2_inject by lia. rewrite <- Zlt_Qlt. by replace (ld + 1) with (Z.succ ld) by lia. }
  assert (Hsplit : ∀ k, (2 ^ (ln - ld + k) * 2 ^ ld == 2 ^ (ln + k))%Q).
  { intros k. rewrite <- Qpower_plus by done. by replace (ln - ld + k + ld) with (ln + k) by lia. }
  pose proof (pow2_pos ld) as Hpld.
  destruct (Qle_bool (2 ^ (ln - ld)) (Qabs q)) eqn:Hle.
  - apply Qle_bool_iff in Hle. split; [done |].
    rewrite Habs. apply Qlt_shift_div_r; [done |].
    pose proof (Hsplit 1) as H1.
    pose proof (pow2_pos (ln - ld + 1)) as Hp.
    eapply Qlt_le_trans; [exact Hn2Q |]. rewrite <- H1.
    apply Qmult_le_l; done.
  - assert (Hlt : (Qabs q < 2 ^ (ln - ld))%Q).
    { apply Qnot_le_lt. intros Hc. apply Qle_bool_iff in Hc. congruence. }
    split; [| by replace (ln - ld - 1 + 1) with (ln - ld) by lia].
    rewrite Habs. apply Qle_shift_div_l; [done |].
    pose proof (Hsplit (-1)) as H1.
    replace (ln - ld + -1) with (ln - ld - 1) in H1 by lia.
    pose proof (pow2_pos (ln - ld - 1)) as Hp.
    pose proof (pow2_succ ld) as Hs. pose proof (pow2_succ (ln + -1)) as Hs'.
    replace (ln + -1 + 1) with ln in Hs' by lia.
    apply Qle_trans with (2 ^ (ln - ld - 1) * 2 ^ (ld + 1))%Q.
    + apply Qmult_le_l; [done |]. by apply Qlt_le_weak.
    + rewrite Hs. lra.
Qed.

Lemma nearestEven_floor (x : Q) :
  nearestEven x = Qfloor x ∨ nearestEven x = Qfloor x + 1.
Proof.
  unfold nearestEven. destruct (_ ?= _)%Q; [destruct (Z.even _) | |]; auto.
Qed.

Lemma nearestEven_close (x : Q) :
  (inject_Z (nearestEven x) - x <= 1 # 2)%Q
  ∧ (x - inject_Z (nearestEven x) <= 1 # 2)%Q.
Proof.
  pose proof (Qfloor_le x) as Hlo. pose proof (Qlt_floor x) as Hhi.
  rewrite inject_Z_plus in Hhi. change (inject_Z 1) with 1%Q in Hhi.
  unfold nearestEven.
  destruct (x - inject_Z (Qfloor x) ?= 1 # 2)%Q eqn:Hc.
  - apply Qeq_alt in Hc.
    destruct (Z.even _); rewrite ?inject_Z_plus; change (inject_Z 1) with 1%Q;
      split; lra.
  - apply Qlt_alt in Hc. split; lra.
  - apply Qgt_alt in Hc. rewrite inject_Z_plus. change (inject_Z 1) with 1%Q.
    split; lra.
Qed.

Lemma nearestEven_inject (z : Z) : nearestEven (inject_Z z) = z.
Proof.
  unfold nearestEven. rewrite Qfloor_Z.
  assert (Hc : (inject_Z z - inject_Z z ?= 1 # 2)%Q = Lt).
  { apply Qlt_alt. assert (H0 : (inject_Z z - inject_Z z == 0)%Q) by ring.
    by rewrite H0. }
  by rewrite Hc.
Qed.

Lemma nearestEven_comp (x y : Q) : (x == y)%Q → nearestEven x = nearestEven y.
Proof.
  intros Hxy. unfold nearestEven.
  rewrite (Qfloor_comp _ _ Hxy).
  assert (Hc : (x - inject_Z (Qfloor y) ?= 1 # 2)%Q
               = (y - inject_Z (Qfloor y) ?= 1 # 2)%Q).
  { apply Qcompare_comp; [by rewrite Hxy | done]. }
  by rewrite Hc.
Qed.

Lemma nearestEven_ge (z : Z) (x : Q) : (inject_Z z <= x)%Q → z ≤ nearestEven x.
Proof.
  intros Hz. pose proof (Qfloor_resp_le _ _ Hz) as Hf. rewrite Qfloor_Z in Hf.
  destruct (nearestEven_floor x) as [-> | ->]; lia.
Qed.

Lemma binary64_unfold (q : Q) :
  ¬ (q == 0)%Q → binary64 q = (inject_Z (nearestEven (q / ulp q)) * ulp q)%Q.
Proof.
  intros Hq. unfold binary64.
  destruct (Qeq_bool q 0) eqn:Heq; [| done].
  apply Qeq_bool_iff in Heq. done.
Qed.

Lemma scaled_close (q x m u : Q) :
  (0 < u)%Q → (q == x * u)%Q → (m - x <= 1 # 2)%Q → (x - m <= 1 # 2)%Q →
  (m * u - q <= u / 2)%Q ∧ (q - m * u <= u / 2)%Q.
Proof.
  intros Hu Hq H1 H2.
  assert (Ha : (0 <= ((1 # 2) - (m - x)) * u)%Q) by (apply Qmult_le_0_compat; lra).
  assert (Hb : (0 <= ((1 # 2) - (x - m)) * u)%Q) by (apply Qmult_le_0_compat; lra).
  assert (Hh : (u / 2 == (1 # 2) * u)%Q) by field.
  rewrite Hh. split; lra.
Qed.

Lemma binary64_close (q : Q) :
  ¬ (q == 0)%Q →
  (binary64 q - q <= ulp q / 2)%Q ∧ (q - binary64 q <= ulp q / 2)%Q.
Proof.
  intros Hq. rewrite binary64_unfold by done.
  pose proof (pow2_pos (Z.max (binade q - 52) (-1074))) as Hu. fold (ulp q) in Hu.
  destruct (nearestEven_close (q / ulp q)) as [H1 H2].
  apply (scaled_close q (q / ulp q)); [done | | done | done].
  field. lra.
Qed.

Lemma binary64_exact (q : Q) (z : Z) :
  ¬ (q == 0)%Q → (q / ulp q == inject_Z z)%Q → (binary64 q == q)%Q.
Proof.
  intros Hq Hz. rewrite binary64_unfold by done.
  pose proof (pow2_pos (Z.max (binade q - 52) (-1074))) as Hu. fold (ulp q) in Hu.
  rewrite (nearestEven_comp _ _ Hz), nearestEven_inject, <- Hz. field. lra.
Qed.

Lemma binade_inject (n : Z) : n ≠ 0 → binade (inject_Z n) = Z.log2 (Z.abs n).
Proof.
  intros Hn. unfold binade. simpl Qnum. simpl Qden.
  change (Z.log2 1) with 0. rewrite Z.sub_0_r.
  assert (Hpos : 0 < Z.abs n) by lia.
  pose proof (Z.log2_spec _ Hpos) as [Hlo _].
  pose proof (Z.log2_nonneg (Z.abs n)) as Hl.
  assert (Hle : Qle_bool (2 ^ Z.log2 (Z.abs n)) (Qabs (inject_Z n)) = true).
  { apply Qle_bool_iff. rewrite pow2_inject by done.
    change (Qabs (inject_Z n)) with (inject_Z (Z.abs n)). by rewrite <- Zle_Qle. }
  by rewrite Hle.
Qed.

Lemma binary64_inject (n : Z) :
  Z.abs n ≤ 2 ^ 53 → (binary64 (inject_Z n) == inject_Z n)%Q.
Proof.
  intros Hn. destruct (decide (n = 0)) as [-> | Hn0]; [done |].
  assert (Hq : ¬ (inject_Z n == 0)%Q).
  { change 0%Q with (inject_Z 0). rewrite inject_Z_injective. done. }
  assert (Hpos : 0 < Z.abs n) by lia.
  pose proof (Z.log2_spec _ Hpos) as [Hlo Hhi].
  pose proof (Z.log2_nonneg (Z.abs n)) as Hl.
  assert (He : Z.log2 (Z.abs n) ≤ 53).
  { destruct (decide (Z.log2 (Z.abs n) ≤ 53)) as [|Hbig]; [done |].
    assert (Hp : 2 ^ 54 ≤ 2 ^ Z.log2 (Z.abs n)) by (apply Z.pow_le_mono_r; lia).
    lia. }
  destruct (decide (Z.log2 (Z.abs n) = 53)) as [He53 | He53].
  - assert (Habs : Z.abs n = 2 ^ 53) by (rewrite He53 in Hlo; lia).
    apply (binary64_exact _ (n / 2) Hq).
    unfold ulp. rewrite binade_inject, He53 by done. simpl Z.max.
    rewrite Qpower_1_r.
    assert (Hn2 : n = 2 * (n / 2)).
    { assert (Hc : n = 2 ^ 53 ∨ n = - 2 ^ 53) by lia.
      by destruct Hc as [-> | ->]. }
    rewrite Hn2 at 1. rewrite inject_Z_mult. field.
  - apply (binary64_exact _ (n * 2 ^ (52 - Z.log2 (Z.abs n))) Hq).
    unfold ulp. rewrite binade_inject by done.
    rewrite Z.max_l by lia.
    rewrite inject_Z_mult, <- pow2_inject by lia.
    replace (Z.log2 (Z.abs n) - 52) with (- (52 - Z.log2 (Z.abs n))) by lia.
    rewrite Qpower_opp.
    pose proof (pow2_pos (52 - Z.log2 (Z.abs n))).
    field. lra.
Qed.

Lemma jsAdd_exact (a b : Z) : Z.abs (a + b) ≤ 2 ^ 53 → jsAdd a b = a + b.
Proof.
  intros H. unfold jsAdd.
  rewrite (Qfloor_comp _ _ (binary64_inject _ H)). apply Qfloor_Z.
Qed.

Lemma binary64_zero (q : Q) : (q == 0)%Q → binary64 q = 0%Q.
Proof.
  intros Hq. unfold binary64.
  by rewrite (proj2 (Qeq_bool_iff q 0) Hq).
Qed.

Lemma binary64_nonneg (q : Q) : (0 <= q)%Q → (0 <= binary64 q)%Q.
Proof.
  intros Hq. destruct (Qeq_dec q 0) as [H0 | H0].
  - rewrite binary64_zero by done. done.
  - rewrite binary64_unfold by done.
    pose proof (pow2_pos (Z.max (binade q - 52) (-1074))) as Hu. fold (ulp q) in Hu.
    apply Qmult_le_0_compat; [| lra].
    change 0%Q with (inject_Z 0). rewrite <- Zle_Qle.
    apply nearestEven_ge. change (inject_Z 0) with 0%Q.
    apply Qle_shift_div_l; [done | lra].
Qed.

Lemma binary64_relative (q : Q) :
  (0 < q)%Q → (binary64 q <= q * (1 + EPSILON))%Q ∨ (binary64 q < 1)%Q.
Proof.
  intros Hq. assert (H0 : ¬ (q == 0)%Q) by lra.
  destruct (binary64_close q H0) as [Hup _].
  destruct (binade_spec q H0) as [Hlo Hhi].
  rewrite (Qabs_pos q) in Hlo, Hhi by lra.
  unfold ulp in Hup.
  destruct (Z.max_spec (binade q - 52) (-1074)) as [[Hlt Hmax] | [Hle Hmax]];
    rewrite Hmax in Hup.
  - right.
    assert (H1 : (2 ^ (binade q + 1) <= 2 ^ (-2))%Q)
      by (apply Qpower_le_compat_l; [lia | done]).
    assert (H2 : (2 ^ (-1074) <= 2 ^ (-2))%Q)
      by (apply Qpower_le_compat_l; [lia | done]).
    assert (H3 : (2 ^ (-2) == 1 # 4)%Q) by reflexivity.
    assert (H4 : (2 ^ (-1074) / 2 == (1 # 2) * 2 ^ (-1074))%Q) by field.
    pose proof (pow2_pos (-1074)). lra.
  - left.
    assert (H1 : (2 ^ (binade q - 52) == 2 ^ binade q * 2 ^ (-52))%Q).
    { rewrite <- Qpower_plus by done. by replace (binade q + -52) with (binade q - 52) by lia. }
    assert (H2 : (2 ^ (-52) / 2 == EPSILON)%Q) by reflexivity.
    assert (H3 : (2 ^ (binade q - 52) / 2 == 2 ^ binade q * EPSILON)%Q).
    { rewrite H1, <- H2. field. }
    rewrite H3 in Hup.
    assert (H4 : (0 <= (q - 2 ^ binade q) * EPSILON)%Q).
    { apply Qmult_le_0_compat; [lra | done]. }
    lra.
Qed.

Lemma binary64_ge_int (q : Q) (N : Z) :
  1 ≤ N → (inject_Z N <= q)%Q → (q < inject_Z (2 ^ 53))%Q →
  (inject_Z N <= binary64 q)%Q.
Proof.
  intros HN Hq Hbig.
  assert (H1 : (1 <= inject_Z N)%Q) by (change 1%Q with (inject_Z 1); by rewrite <- Zle_Qle).
  assert (H0 : ¬ (q == 0)%Q) by lra.
  destruct (binade_spec q H0) as [Hlo Hhi].
  rewrite (Qabs_pos q) in Hlo, Hhi by lra.
  assert (He0 : 0 ≤ binade q).
  { assert (Hlt : (2 ^ 0 < 2 ^ (binade q + 1))%Q) by (change (2 ^ 0)%Q with 1%Q; lra).
    apply (Qpower_lt_compat_l_inv 2 0 (binade q + 1)) in Hlt; [lia | done]. }
  assert (He : binade q ≤ 52).
  { assert (Hlt : (2 ^ binade q < 2 ^ 53)%Q).
    { rewrite (pow2_inject 53) by done. lra. }
    apply (Qpower_lt_compat_l_inv 2 (binade q) 53) in Hlt; [lia | done]. }
  rewrite binary64_unfold by done. unfold ulp.
  rewrite Z.max_l by lia.
  set (k := 52 - binade q).
  assert (Hk : (2 ^ (binade q - 52) == / inject_Z (2 ^ k))%Q).
  { replace (binade q - 52) with (- k) by (unfold k; lia).
    rewrite Qpower_opp, pow2_inject by (unfold k; lia). done. }
  assert (Hpk : (0 < inject_Z (2 ^ k))%Q).
  { rewrite <- pow2_inject by (unfold k; lia). apply pow2_pos. }
  assert (Hm : N * 2 ^ k ≤ nearestEven (q / 2 ^ (binade q - 52))).
  { apply nearestEven_ge. rewrite inject_Z_mult, Hk.
    assert (Hd : (q / / inject_Z (2 ^ k) == q * inject_Z (2 ^ k))%Q) by (field; lra).
    rewrite Hd. apply Qmult_le_compat_r; lra. }
  rewrite Zle_Qle, inject_Z_mult in Hm.
  set (m := inject_Z (nearestEven _)) in *.
  rewrite Hk.
  apply Qle_shift_div_l in Hm; [| done].
  assert (Hd : (m * / inject_Z (2 ^ k) == m / inject_Z (2 ^ k))%Q) by (field; lra).
  by rewrite Hd.
Qed.

Lemma binary64_fixed_below_one (r : Q) :
  (0 <= r)%Q → (r < 1)%Q → (binary64 r == r)%Q → (r <= 1 - EPSILON)%Q.
Proof.
  intros Hr0 Hr1 Hfix. unfold EPSILON.
  destruct (Qeq_dec r 0) as [H0 | H0]; [rewrite H0; done |].
  destruct (binade_spec r H0) as [Hlo Hhi].
  rewrite (Qabs_pos r) in Hlo, Hhi by done.
  assert (He : binade r < 0).
  { assert (Hlt : (2 ^ binade r < 2 ^ 0)%Q) by (change (2 ^ 0)%Q with 1%Q; lra).
    apply (Qpower_lt_compat_l_inv 2 (binade r) 0) in Hlt; [lia | done]. }
  destruct (decide (binade r = -1)) as [Hm1 | Hm1].
  - rewrite binary64_unfold in Hfix by done. unfold ulp in Hfix.
    rewrite Hm1 in Hfix. simpl Z.max in Hfix.
    set (M := nearestEven _) in Hfix.
    assert (Hu : (2 ^ (-53) == 1 # 2 ^ 53)%Q) by reflexivity.
    rewrite Hu in Hfix.
    assert (HM : M < 2 ^ 53).
    { rewrite Zlt_Qlt. set (m := inject_Z M) in *.
      change (inject_Z (2 ^ 53)) with (9007199254740992 # 1)%Q.
      change (1 # 2 ^ 53)%Q with (1 # 9007199254740992)%Q in Hfix. lra. }
    assert (HM' : M ≤ 2 ^ 53 - 1) by lia.
    rewrite Zle_Qle in HM'. set (m := inject_Z M) in *.
    change (inject_Z (2 ^ 53 - 1)) with (9007199254740991 # 1)%Q in HM'.
    change (1 # 2 ^ 53)%Q with (1 # 9007199254740992)%Q in *. lra.
  - assert (H1 : (2 ^ (binade r + 1) <= 2 ^ (-1))%Q)
      by (apply Qpower_le_compat_l; [lia | done]).
    assert (H2 : (2 ^ (-1) == 1 # 2)%Q) by reflexivity.
    rewrite H2 in H1.
    change (1 # 2 ^ 53)%Q with (1 # 9007199254740992)%Q. lra.
Qed.

(** ** The random source *)

Lemma u01_bounds (u : Unit01) : (0 <= u01 u)%Q ∧ (u01 u < 1)%Q.
Proof.
  destruct u as [q Hq ?]. simpl. apply andb_true_iff in Hq as [H0 H1].
  apply Qle_bool_iff in H0. apply negb_true_iff in H1.
  split; [done |]. apply Qnot_le_lt. intros Hle.
  apply Qle_bool_iff in Hle. congruence.
Qed.

Lemma u01_below_one (u : Unit01) : (u01 u <= 1 - EPSILON)%Q.
Proof.
  destruct (u01_bounds u) as [H0 H1].
  apply binary64_fixed_below_one; [done | done |].
  apply Qeq_bool_iff, u01_binary64.
Qed.

Lemma product_below (u : Unit01) (n : Z) :
  1 ≤ n → (binary64 (u01 u * inject_Z n) < inject_Z n)%Q.
Proof.
  intros Hn. destruct (u01_bounds u) as [H0 _].
  pose proof (u01_below_one u) as H1.
  assert (HnQ : (1 <= inject_Z n)%Q)
    by (change 1%Q with (inject_Z 1); by rewrite <- Zle_Qle).
  set (N := inject_Z n) in *. set (r := u01 u) in *.
  assert (Hx0 : (0 <= r * N)%Q) by (apply Qmult_le_0_compat; lra).
  destruct (Qeq_dec (r * N) 0) as [Hz | Hz].
  - rewrite binary64_zero by done. lra.
  - destruct (binary64_relative (r * N)) as [Hrel | Hrel]; [lra | | lra].
    unfold EPSILON in *.
    assert (Hp : (0 <= (1 - (1 # 2 ^ 53) - r) * N)%Q)
      by (apply Qmult_le_0_compat; lra).
    change (1 # 2 ^ 53)%Q with (1 # 9007199254740992)%Q in *. lra.
Qed.

Lemma randomIndex_le (u : Unit01) (i : nat) : (randomIndex (u01 u) i ≤ i)%nat.
Proof.
  unfold randomIndex.
  pose proof (product_below u (Z.of_nat i + 1) ltac:(lia)) as Hlt.
  pose proof (Qfloor_le (binary64 (u01 u * inject_Z (Z.of_nat i + 1)))) as Hfl.
  assert (Hz : Qfloor (binary64 (u01 u * inject_Z (Z.of_nat i + 1))) < Z.of_nat i + 1).
  { rewrite Zlt_Qlt. eapply Qle_lt_trans; done. }
  lia.
Qed.

Lemma randomIndex_draw (u : Unit01) (i : nat) :
  Z.of_nat i + 1 ≤ 2 ^ 53 →
  (u01 u * inject_Z (Z.of_nat i + 1)
     < inject_Z (Z.of_nat (randomIndex (u01 u) i)) + 1)%Q
  ∧ (inject_Z (Z.of_nat (randomIndex (u01 u) i))
     <= u01 u * inject_Z (Z.of_nat i + 1) * (1 + EPSILON))%Q.
Proof.
  intros Hi. destruct (u01_bounds u) as [H0 H1].
  assert (HnQ : (1 <= inject_Z (Z.of_nat i + 1))%Q).
  { change 1%Q with (inject_Z 1). rewrite <- Zle_Qle. lia. }
  assert (HbQ : (inject_Z (Z.of_nat i + 1) <= inject_Z (2 ^ 53))%Q)
    by (by rewrite <- Zle_Qle).
  unfold randomIndex.
  set (x := (u01 u * inject_Z (Z.of_nat i + 1))%Q) in *.
  assert (Hx0 : (0 <= x)%Q) by (apply Qmult_le_0_compat; lra).
  assert (Hxn : (x < inject_Z (Z.of_nat i + 1))%Q).
  { unfold x. set (N := inject_Z _) in *.
    assert (Hp : (0 < (1 - u01 u) * N)%Q) by (apply Qmult_lt_0_compat; lra).
    lra. }
  pose proof (binary64_nonneg x Hx0) as Hb0.
  pose proof (Qfloor_le (binary64 x)) as Hfl.
  pose proof (Qlt_floor (binary64 x)) as Hfu.
  assert (Hj0 : 0 ≤ Qfloor (binary64 x)).
  { exact (Qfloor_resp_le _ _ Hb0). }
  rewrite Z2Nat.id by done.
  set (j := Qfloor (binary64 x)) in *.
  rewrite inject_Z_plus in Hfu. change (inject_Z 1) with 1%Q in Hfu.
  split.
  - apply Qnot_le_lt. intros Hge.
    assert (Hge' : (inject_Z (j + 1) <= x)%Q)
      by (rewrite inject_Z_plus; change (inject_Z 1) with 1%Q; done).
    apply binary64_ge_int in Hge'; [| lia | by eapply Qlt_le_trans].
    rewrite inject_Z_plus in Hge'. change (inject_Z 1) with 1%Q in Hge'.
    set (J := inject_Z j) in *. lra.
  - destruct (Qeq_dec x 0) as [Hz | Hz].
    + rewrite (binary64_zero x Hz) in Hfl. unfold EPSILON.
      assert (Hp : (0 <= x * (1 + (1 # 2 ^ 53)))%Q)
        by (apply Qmult_le_0_compat; [lra | done]).
      change (1 # 2 ^ 53)%Q with (1 # 9007199254740992)%Q in *. lra.
    + destruct (binary64_relative x) as [Hrel | Hrel]; [lra | lra |].
      assert (Hj : j < 1) by (rewrite Zlt_Qlt; change (inject_Z 1) with 1%Q; lra).
      assert (Hj' : j = 0) by lia. rewrite Hj'. unfold EPSILON.
      assert (Hp : (0 <= x * (1 + (1 # 2 ^ 53)))%Q)
        by (apply Qmult_le_0_compat; [lra | done]).
      change (inject_Z 0) with 0%Q.
      change (1 # 2 ^ 53)%Q with (1 # 9007199254740992)%Q in *. lra.
Qed.

(** The product is rounded before its floor is taken: three times the
    number next below 2/3 rounds to 2. *)
Lemma randomIndex_rounds_product :
  randomIndex (u01 MoreExamples.nearTwoThirds) 2 = 2%nat
  ∧ Qfloor (u01 MoreExamples.nearTwoThirds * 3) = 1.
Proof. split; vm_compute; reflexivity. Qed.

Lemma Math_random_draws (g : Rng) : draws (Math_random g).2 = draws g.
Proof. done. Qed.

Lemma Math_random_pos (g : Rng) : pos (Math_random g).2 = S (pos g).
Proof. done. Qed.

(** ** Queue builder, random mode *)

Lemma swap_Permutation {A} (queue : list A) (i j : nat) : swap queue i j ≡ₚ queue.
Proof.
  unfold swap. destruct (queue !! i) as [qi|] eqn:Hi; [| done].
  destruct (queue !! j) as [qj|] eqn:Hj; [| done].
  by apply Permutation_insert_swap.
Qed.

Lemma swap_length {A} (queue : list A) (i j : nat) :
  length (swap queue i j) = length queue.
Proof. apply Permutation_length, swap_Permutation. Qed.

(** Every exchange of the loop reads and writes inside the array. *)
Lemma fisherYates_in_range (queue : list Song) (i : nat) (u : Unit01) :
  (i < length queue)%nat →
  is_Some (queue !! i) ∧ is_Some (queue !! randomIndex (u01 u) i).
Proof.
  intros Hi. pose proof (randomIndex_le u i).
  split; apply lookup_lt_is_Some; lia.
Qed.

Lemma fisherYates_Permutation (i : nat) (queue : list Song) (g : Rng) :
  (fisherYates i queue g).1 ≡ₚ queue.
Proof.
  revert queue g. induction i as [|i IH]; intros queue g; [done |].
  cbn [fisherYates Math_random]. rewrite IH. apply swap_Permutation.
Qed.

(** The loop draws once per iteration. *)
Lemma fisherYates_rng (i : nat) (queue : list Song) (g : Rng) :
  (fisherYates i queue g).2 = mkRng (draws g) (pos g + i).
Proof.
  revert queue g. induction i as [|i IH]; intros queue g.
  - destruct g; simpl. by rewrite Nat.add_0_r.
  - cbn [fisherYates Math_random]. rewrite IH. simpl. f_equal. lia.
Qed.

(** The result depends on the generator only through the values drawn. *)
Lemma fisherYates_same_draws (i : nat) (queue : list Song) (g g' : Rng) :
  (∀ k, (k < i)%nat → draws g' (pos g' + k) = draws g (pos g + k)) →
  (fisherYates i queue g').1 = (fisherYates i queue g).1.
Proof.
  revert queue g g'. induction i as [|i IH]; intros queue g g' Hsame; [done |].
  cbn [fisherYates Math_random].
  pose proof (Hsame 0%nat ltac:(lia)) as H0. rewrite !Nat.add_0_r in H0.
  rewrite H0. apply IH. intros k Hk. simpl.
  specialize (Hsame (S k) ltac:(lia)).
  by rewrite <- !Nat.add_succ_comm in Hsame.
Qed.

Lemma fisherYates_textbook (i : nat) (queue : list Song) (g : Rng)
    (choice : nat → nat) :
  (∀ k, (1 ≤ k ≤ i)%nat →
        choice k = randomIndex (u01 (draws g (pos g + (i - k)))) k) →
  (fisherYates i queue g).1
  = foldl (λ q k, swap q k (choice k)) queue (rev (seq 1 i)).
Proof.
  revert queue g. induction i as [|i IH]; intros queue g Hchoice; [done |].
  rewrite seq_S, rev_app_distr. change (1 + i)%nat with (S i).
  cbn [rev app foldl fisherYates Math_random].
  rewrite (Hchoice (S i)) by lia. rewrite Nat.sub_diag, Nat.add_0_r.
  apply IH. intros k Hk. rewrite (Hchoice k) by lia. simpl.
  do 2 f_equal. f_equal. lia.
Qed.

(** C8. In random mode the queue is a permutation of the source (the same
    songs, hence the same multiset of identities).  It is the textbook
    Fisher-Yates shuffle of the source: for [k] from the last index down to
    1 the element at [k] is exchanged with the one at a chosen position, and
    the position chosen for [k] from the value [r] drawn at that step lies
    in the still unshuffled prefix and is the integer part of [r * (k + 1)],
    up to the rounding of that product: [r * (k + 1)] is below the position
    plus one, and the position is at most [r * (k + 1)] increased by one
    part in 2^53.  The shuffle consumes one value per exchange, and a second
    generator that yields the same values gives the same queue.  The source
    is any array JavaScript can hold. *)
Theorem getShuffledQueue_random_permutation (source : list Song) (g g' : Rng) :
  Z.of_nat (length source) ≤ MAX_ARRAY_LENGTH →
  (∀ k, (k < length source - 1)%nat →
        draws g' (pos g' + k) = draws g (pos g + k)) →
  let queue := (getShuffledQueue ShuffleRandom source g).1 in
  queue ≡ₚ source
  ∧ id <$> queue ≡ₚ id <$> source
  ∧ (∃ choice : nat → nat,
       queue = textbookShuffle choice source
       ∧ ∀ k, (1 ≤ k < length source)%nat →
           let r := u01 (draws g (pos g + (length source - 1 - k))) in
           (choice k ≤ k)%nat
           ∧ (r * inject_Z (Z.of_nat k + 1)
                < inject_Z (Z.of_nat (choice k)) + 1)%Q
           ∧ (inject_Z (Z.of_nat (choice k))
                <= r * inject_Z (Z.of_nat k + 1) * (1 + EPSILON))%Q)
  ∧ drawn g (getShuffledQueue ShuffleRandom source g).2 = (length source - 1)%nat
  ∧ (getShuffledQueue ShuffleRandom source g').1 = queue.
Proof.
  intros Hlen Hsame. cbn zeta. unfold getShuffledQueue.
  pose proof (fisherYates_Permutation (length source - 1) source g) as Hperm.
  split; [done |]. split; [by rewrite Hperm |]. split.
  - exists (λ k, randomIndex
                   (u01 (draws g (pos g + (length source - 1 - k)))) k).
    split.
    + unfold textbookShuffle. by apply fisherYates_textbook.
    + intros k Hk. split; [apply randomIndex_le |].
      apply randomIndex_draw. unfold MAX_ARRAY_LENGTH in Hlen. lia.
  - split; [rewrite fisherYates_rng; unfold drawn; simpl; lia |].
    by apply fisherYates_same_draws.
Qed.

Lemma getShuffledQueue_random_permutation_witness :
  Z.of_nat (length [Examples.songA; Examples.songB; Examples.songC])
    ≤ MAX_ARRAY_LENGTH
  ∧ (∀ k, (k < length [Examples.songA; Examples.songB; Examples.songC] - 1)%nat →
        draws Examples.alternatingThenQuarter
              (pos Examples.alternatingThenQuarter + k)
        = draws Examples.alternating (pos Examples.alternating + k))
  ∧ (getShuffledQueue ShuffleRandom
       [Examples.songA; Examples.songB; Examples.songC]
       Examples.alternatingThenQuarter).1
    = [Examples.songC; Examples.songA; Examples.songB].
Proof.
  assert (Hlen : Z.of_nat (length [Examples.songA; Examples.songB; Examples.songC])
                 ≤ MAX_ARRAY_LENGTH) by (vm_compute; discriminate).
  assert (Hsame : ∀ k,
    (k < length [Examples.songA; Examples.songB; Examples.songC] - 1)%nat →
    draws Examples.alternatingThenQuarter
          (pos Examples.alternatingThenQuarter + k)
    = draws Examples.alternating (pos Examples.alternating + k)).
  { intros k Hk. simpl in Hk. destruct k as [|[|k]]; [reflexivity | reflexivity | lia]. }
  split; [exact Hlen |]. split; [exact Hsame |].
  destruct (getShuffledQueue_random_permutation
              [Examples.songA; Examples.songB; Examples.songC]
              Examples.alternating Examples.alternatingThenQuarter Hlen Hsame)
    as (_ & _ & _ & _ & ->).
  reflexivity.
Defined.

(** ** The sort *)

Section SortFacts.
Context {A St : Type}.
Variable cmp : A → A → St → Q * St.

Lemma insertBack_Permutation (x : A) (before : list A) (s : St) :
  (insertBack cmp x before s).1 ≡ₚ x :: before.
Proof.
  revert s. induction before as [|y rest IH]; intros s; [done |].
  simpl. destruct (cmp y x s) as [order s1].
  destruct (isPositive order); [| done].
  specialize (IH s1). destruct (insertBack cmp x rest s1) as [placed s2].
  simpl in *. rewrite IH. apply Permutation_swap.
Qed.

Lemma sortLoop_Permutation (todo before : list A) (s : St) :
  (sortLoop cmp todo before s).1 ≡ₚ before ++ todo.
Proof.
  revert before s. induction todo as [|x rest IH]; intros before s.
  - simpl. by rewrite app_nil_r, <- Permutation_rev.
  - simpl. pose proof (insertBack_Permutation x before s) as Hins.
    destruct (insertBack cmp x before s) as [before' s1]. simpl in Hins.
    rewrite IH, Hins. simpl. apply Permutation_middle.
Qed.

(** Whatever the comparator answers, the sorted array holds the elements
    of the original one. *)
Lemma sortWith_Permutation (arr : list A) (s : St) :
  (sortWith cmp arr s).1 ≡ₚ arr.
Proof. unfold sortWith. by rewrite sortLoop_Permutation. Qed.

(** A property of the state that every comparison keeps is kept by the
    sort. *)
Section Invariant.
Variable inv : St → Prop.
Hypothesis cmp_inv : ∀ a b s, inv s → inv (cmp a b s).2.

Lemma insertBack_inv (x : A) (before : list A) (s : St) :
  inv s → inv (insertBack cmp x before s).2.
Proof.
  revert s. induction before as [|y rest IH]; intros s Hs; [done |].
  simpl. pose proof (cmp_inv y x s Hs) as H1.
  destruct (cmp y x s) as [order s1]. simpl in H1.
  destruct (isPositive order); [| done].
  specialize (IH s1 H1). by destruct (insertBack cmp x rest s1).
Qed.

Lemma sortWith_inv (arr : list A) (s : St) :
  inv s → inv (sortWith cmp arr s).2.
Proof.
  unfold sortWith. generalize (@nil A) as before. revert s.
  induction arr as [|x rest IH]; intros s before Hs; [done |].
  simpl. pose proof (insertBack_inv x before s Hs) as H1.
  destruct (insertBack cmp x before s) as [before' s1]. by apply IH.
Qed.
End Invariant.

(** When every comparison advances a counter of the state by [c], the sort
    advances it by [c] times the number of comparisons it makes, and it
    makes at least one comparison per element after the first. *)
Section Cost.
Variable counter : St → nat.
Variable c : nat.
Hypothesis cmp_cost : ∀ a b s, counter (cmp a b s).2 = (counter s + c)%nat.

Lemma insertBack_cost (x : A) (before : list A) (s : St) :
  ∃ k, counter (insertBack cmp x before s).2 = (counter s + c * k)%nat
       ∧ (k ≤ length before)%nat ∧ (before ≠ [] → 1 ≤ k)%nat.
Proof.
  revert s. induction before as [|y rest IH]; intros s.
  - exists 0%nat. simpl. split; [lia | done].
  - simpl. pose proof (cmp_cost y x s) as H1.
    destruct (cmp y x s) as [order s1]. simpl in H1.
    destruct (isPositive order).
    + destruct (IH s1) as (k & Hk & Hle & _).
      destruct (insertBack cmp x rest s1) as [placed s2]. simpl in *.
      exists (S k). repeat split; [lia | lia | intros; lia].
    + exists 1%nat. simpl. repeat split; [lia | lia | done].
Qed.

Lemma sortLoop_cost (todo before : list A) (s : St) :
  ∃ k, counter (sortLoop cmp todo before s).2 = (counter s + c * k)%nat
       ∧ (before ≠ [] → length todo ≤ k)%nat
       ∧ (length todo - 1 ≤ k)%nat.
Proof.
  revert before s. induction todo as [|x rest IH]; intros before s.
  - exists 0%nat. simpl. repeat split; lia.
  - simpl. destruct (insertBack_cost x before s) as (k1 & Hk1 & _ & Hone).
    pose proof (insertBack_Permutation x before s) as Hperm.
    destruct (insertBack cmp x before s) as [before' s1]. simpl in *.
    assert (Hne : before' ≠ []).
    { intros ->. by apply Permutation_nil_cons in Hperm. }
    destruct (IH before' s1) as (k2 & Hk2 & Hfull & _).
    specialize (Hfull Hne).
    exists (k1 + k2)%nat. repeat split; [lia | | lia].
    intros Hb. specialize (Hone Hb). lia.
Qed.

Lemma sortWith_cost (arr : list A) (s : St) :
  ∃ k, counter (sortWith cmp arr s).2 = (counter s + c * k)%nat
       ∧ (length arr - 1 ≤ k)%nat.
Proof.
  destruct (sortLoop_cost arr [] s) as (k & Hk & _ & Hmin). eauto.
Qed.
End Cost.
End SortFacts.

(** ** Queue builder, weighted mode *)

Lemma totalPlayCount_sum (queue : list Song) :
  totalPlayCount queue = sumOf playCount queue.
Proof.
  unfold totalPlayCount.
  assert (H : ∀ acc, fold_left (λ sum song, sum + playCount song) queue acc
                     = acc + sumOf playCount queue).
  { induction queue as [|s rest IH]; intros acc; simpl; [lia |].
    rewrite IH. lia. }
  rewrite H. lia.
Qed.

Lemma playCount_le_sum (queue : list Song) (s : Song) :
  Forall (λ x, 0 ≤ playCount x) queue → s ∈ queue →
  0 ≤ playCount s ≤ sumOf playCount queue.
Proof.
  induction 1 as [|x rest Hx Hrest IH]; intros Hin; [inversion Hin |].
  assert (0 ≤ sumOf playCount rest).
  { clear IH Hin. induction Hrest; simpl; lia. }
  simpl. apply elem_of_cons in Hin as [-> | Hin]; [lia |].
  specialize (IH Hin). lia.
Qed.

Lemma orOne_nonzero (x : Z) : orOne x ≠ 0.
Proof. unfold orOne. destruct (Z.eqb_spec x 0); lia. Qed.

Lemma orOne_max (x : Z) : 0 ≤ x → orOne x = Z.max x 1.
Proof. unfold orOne. destruct (Z.eqb_spec x 0); lia. Qed.

(** One comparison draws two values: the first scales the weight of [b],
    the second the weight of [a]. *)
Lemma weightedCompare_draws_two (total : Z) (a b : Song) (g : Rng) :
  weightedCompare total a b g
  = ((u01 (draws g (pos g)) * inject_Z (weight total b)
      - u01 (draws g (S (pos g))) * inject_Z (weight total a))%Q,
     mkRng (draws g) (S (S (pos g)))).
Proof. done. Qed.

(** From three songs on, the weighted sort draws more values than there are
    songs. *)
Lemma weighted_draws_exceed_songs (source : list Song) (g : Rng) :
  (3 ≤ length source)%nat →
  (length source < drawn g (getShuffledQueue ShuffleWeighted source g).2)%nat.
Proof.
  intros Hlen. unfold getShuffledQueue, drawn.
  destruct (sortWith_cost (weightedCompare (totalPlayCount source)) pos 2
              (λ a b s, ltac:(simpl; lia)) source g) as (k & -> & Hk).
  lia.
Qed.

(** C2 (as amended). In weighted mode the builder computes the total of the
    play counts of the source; a song's weight is [total - playCount], or 1
    when that is 0, which for play counts that are not negative is
    [max (total - playCount) 1], never 0; the copy of the source is sorted
    with a comparator that draws two fresh values at every comparison, the
    first scaled by the weight of its second argument and the second by the
    weight of its first; the queue is a permutation of the source, and the
    number of values drawn is twice the number of comparisons, not the number
    of songs. *)
Theorem getShuffledQueue_weighted (source : list Song) (g : Rng) :
  Forall (λ s, 0 ≤ playCount s) source →
  let total := totalPlayCount source in
  let queue := (getShuffledQueue ShuffleWeighted source g).1 in
  let g' := (getShuffledQueue ShuffleWeighted source g).2 in
  total = sumOf playCount source
  ∧ (∀ s, s ∈ source →
          weight total s = Z.max (total - playCount s) 1 ∧ weight total s ≠ 0)
  ∧ getShuffledQueue ShuffleWeighted source g
    = sortWith (weightedCompare total) source g
  ∧ (∀ a b h,
        weightedCompare total a b h
        = ((u01 (draws h (pos h)) * inject_Z (weight total b)
            - u01 (draws h (S (pos h))) * inject_Z (weight total a))%Q,
           mkRng (draws h) (S (S (pos h)))))
  ∧ queue ≡ₚ source
  ∧ draws g' = draws g
  ∧ ∃ comparisons, drawn g g' = (2 * comparisons)%nat
                   ∧ (length source - 1 ≤ comparisons)%nat.
Proof.
  intros Hcounts. cbn zeta. unfold getShuffledQueue.
  split; [apply totalPlayCount_sum |].
  split.
  { intros s Hs. split; [| apply orOne_nonzero].
    unfold weight. apply orOne_max.
    pose proof (playCount_le_sum source s Hcounts Hs).
    rewrite totalPlayCount_sum. lia. }
  split; [done |].
  split; [intros; apply weightedCompare_draws_two |].
  split; [apply sortWith_Permutation |].
  split.
  { apply (sortWith_inv _ (λ s, draws s = draws g)); [| done].
    intros a b s Hs. by rewrite weightedCompare_draws_two. }
  destruct (sortWith_cost (weightedCompare (totalPlayCount source)) pos 2
              (λ a b s, ltac:(simpl; lia)) source g) as (k & Hk & Hmin).
  exists k. unfold drawn. rewrite Hk. split; [lia | done].
Qed.

Lemma getShuffledQueue_weighted_witness :
  Forall (λ s, 0 ≤ playCount s)
         [Examples.songA; Examples.songB; Examples.songC]
  ∧ (getShuffledQueue ShuffleWeighted
       [Examples.songA; Examples.songB; Examples.songC] Examples.alternating).1
    ≡ₚ [Examples.songA; Examples.songB; Examples.songC].
Proof.
  assert (Hcounts : Forall (λ s, 0 ≤ playCount s)
                      [Examples.songA; Examples.songB; Examples.songC]).
  { repeat (constructor; [simpl; lia |]). constructor. }
  split; [exact Hcounts |].
  exact (proj1 (proj2 (proj2 (proj2 (proj2
    (getShuffledQueue_weighted _ Examples.alternating Hcounts)))))).
Defined.

(** Three songs, two comparisons (A with B, then A with C), four values. *)
Lemma getShuffledQueue_weighted_counterexample :
  ¬ oneValuePerSong [Examples.songA; Examples.songB; Examples.songC]
                    Examples.alternating.
Proof. unfold oneValuePerSong. vm_compute. discriminate. Qed.

(** ** Playback controller: Next, Prev, Seek *)

(** A state with a current song has a queue that is not empty. *)
Lemma currentSong_queue_nonempty (st : AppState) (c : Song) :
  currentSong st = Some c →
  0 ≤ currentSongIndex st < Z.of_nat (length (playQueue st)).
Proof. apply at_index_range. Qed.

(** C4. Next on a loaded state.  With repeat-one the pointer stays and the
    element is sent back to position 0 and told to play.  Otherwise the
    pointer advances by one when the advanced pointer is inside the queue;
    when it is not, repeat-all wraps to 0, and repeat-none sets playing to
    false and leaves the pointer on the last index, with the last song of
    the queue still current.  The queue is never changed. *)
Theorem playNextSong_transition (st : AppState) (c : Song) (a : Audio) :
  currentSong st = Some c → audioRef st = Some a →
  let st' := playNextSong st in
  let len := Z.of_nat (length (playQueue st)) in
  playQueue st' = playQueue st
  ∧ match repeatMode st with
    | RepeatOne =>
        currentSongIndex st' = currentSongIndex st
        ∧ audioRef st' = Some (mkAudio 0%Q false)
        ∧ isPlaying st' = isPlaying st
    | RepeatAll =>
        currentSongIndex st'
        = (if decide (currentSongIndex st + 1 < len)
           then currentSongIndex st + 1 else 0)
        ∧ isPlaying st' = isPlaying st
    | RepeatNone =>
        if decide (currentSongIndex st + 1 < len)
        then currentSongIndex st' = currentSongIndex st + 1
             ∧ isPlaying st' = isPlaying st
        else isPlaying st' = false
             ∧ currentSongIndex st' = currentSongIndex st
             ∧ currentSongIndex st' = len - 1
             ∧ currentSong st' = Some c
    end.
Proof.
  intros Hcur Haudio. cbn zeta.
  pose proof (currentSong_queue_nonempty st c Hcur) as Hrange.
  unfold playNextSong.
  rewrite bool_decide_eq_false_2 by (intros Hlen; rewrite Hlen in Hrange; simpl in Hrange; lia).
  destruct (repeatMode st) eqn:Hmode; simpl.
  - destruct (Z.leb_spec (Z.of_nat (length (playQueue st))) (currentSongIndex st + 1));
      case_decide; try lia; simpl; repeat split; try done; lia.
  - rewrite Haudio. simpl. done.
  - destruct (Z.leb_spec (Z.of_nat (length (playQueue st))) (currentSongIndex st + 1));
      case_decide; try lia; simpl; done.
Qed.

(** The scenarios of the spec: queue [A, B, C], pointer on C. *)
Lemma playNextSong_transition_witness :
  let st := Examples.playing
              [Examples.songA; Examples.songB; Examples.songC] 2 RepeatNone 0%Q in
  currentSong st = Some Examples.songC
  ∧ audioRef st = Some (mkAudio 0%Q false)
  ∧ isPlaying (playNextSong st) = false
  ∧ currentSongIndex (playNextSong st) = 2.
Proof.
  cbn zeta. split; [reflexivity |]. split; [reflexivity |].
  pose proof (playNextSong_transition
    (Examples.playing [Examples.songA; Examples.songB; Examples.songC]
                      2 RepeatNone 0%Q)
    Examples.songC (mkAudio 0%Q false) eq_refl eq_refl) as H.
  cbn zeta in H. destruct H as [_ H]. simpl repeatMode in H.
  destruct (decide _) as [Hlt | _] in H; [vm_compute in Hlt; discriminate |].
  destruct H as (Hp & Hi & _ & _). split; [exact Hp |]. rewrite Hi. reflexivity.
Defined.

Example playNextSong_wraps_with_repeat_all :
  let st' := playNextSong
    (Examples.playing [Examples.songA; Examples.songB; Examples.songC]
                      2 RepeatAll 0%Q) in
  currentSongIndex st' = 0 ∧ isPlaying st' = true.
Proof. done. Qed.

(** C5. Prev on a loaded state.  When the element is past 3 seconds it is
    sent back to position 0 and the pointer stays.  Otherwise the pointer
    goes back by one when that is not negative; when it is, repeat-all wraps
    to the last index and the other modes change nothing. *)
Theorem playPrevSong_transition (st : AppState) (c : Song) (a : Audio) :
  currentSong st = Some c → audioRef st = Some a →
  let st' := playPrevSong st in
  let len := Z.of_nat (length (playQueue st)) in
  playQueue st' = playQueue st
  ∧ isPlaying st' = isPlaying st
  ∧ ((3 < audio_currentTime a)%Q →
       currentSongIndex st' = currentSongIndex st
       ∧ audioRef st' = Some (mkAudio 0%Q (audio_paused a)))
  ∧ ((audio_currentTime a <= 3)%Q →
       audioRef st' = audioRef st
       ∧ if decide (0 ≤ currentSongIndex st - 1)
         then currentSongIndex st' = currentSongIndex st - 1
         else match repeatMode st with
              | RepeatAll => currentSongIndex st' = len - 1
              | _ => st' = st
              end).
Proof.
  intros Hcur Haudio. cbn zeta.
  pose proof (currentSong_queue_nonempty st c Hcur) as Hrange.
  unfold playPrevSong.
  rewrite bool_decide_eq_false_2 by (intros Hlen; rewrite Hlen in Hrange; simpl in Hrange; lia).
  rewrite Haudio. unfold pastScrubBack.
  destruct (Qle_bool (audio_currentTime a) 3) eqn:Hle; simpl.
  - apply Qle_bool_iff in Hle.
    assert (Hrest :
      let st' := if currentSongIndex st - 1 <? 0
                 then if bool_decide (repeatMode st = RepeatAll)
                      then setCurrentSongIndex (Z.of_nat (length (playQueue st)) - 1) st
                      else st
                 else setCurrentSongIndex (currentSongIndex st - 1) st in
      playQueue st' = playQueue st ∧ isPlaying st' = isPlaying st
      ∧ audioRef st' = audioRef st
      ∧ if decide (0 ≤ currentSongIndex st - 1)
        then currentSongIndex st' = currentSongIndex st - 1
        else match repeatMode st with
             | RepeatAll => currentSongIndex st' = Z.of_nat (length (playQueue st)) - 1
             | _ => st' = st
             end).
    { cbn zeta. destruct (Z.ltb_spec (currentSongIndex st - 1) 0);
        case_decide; try lia; [| done].
      destruct (repeatMode st); simpl; done. }
    cbn zeta in Hrest. destruct Hrest as (Hq & Hp & Ha & Hi).
    split; [done |]. split; [done |]. split.
    + intros Hgt. exfalso. by apply (Qlt_not_le _ _ Hgt).
    + intros _. split; [by rewrite <- Haudio | done].
  - split; [done |]. split; [done |]. split; [done |].
    intros Hle'%Qle_bool_iff. congruence.
Qed.

(** The scenario of the spec: pointer on B, 5 seconds in. *)
Lemma playPrevSong_transition_witness :
  let st := Examples.playing
              [Examples.songA; Examples.songB; Examples.songC] 1 RepeatNone 5%Q in
  currentSong st = Some Examples.songB
  ∧ audioRef st = Some (mkAudio 5%Q false)
  ∧ currentSongIndex (playPrevSong st) = 1
  ∧ audioRef (playPrevSong st) = Some (mkAudio 0%Q false).
Proof.
  cbn zeta. split; [reflexivity |]. split; [reflexivity |].
  pose proof (playPrevSong_transition
    (Examples.playing [Examples.songA; Examples.songB; Examples.songC]
                      1 RepeatNone 5%Q)
    Examples.songB (mkAudio 5%Q false) eq_refl eq_refl) as H.
  cbn zeta in H. destruct H as (_ & _ & H & _).
  destruct (H ltac:(reflexivity)) as [Hi Ha].
  split; [rewrite Hi; reflexivity | exact Ha].
Defined.

Example playPrevSong_steps_back_before_threshold :
  let st' := playPrevSong
    (Examples.playing [Examples.songA; Examples.songB; Examples.songC]
                      1 RepeatNone 1%Q) in
  currentSongIndex st' = 0 ∧ currentSong st' = Some Examples.songA.
Proof. done. Qed.

(** C9 (as amended). Seek stores the requested time as it is given, both in
    the position of the state and in the element, and changes neither the
    playing flag nor the queue nor the pointer; nothing clamps the time to
    the duration. *)
Theorem handleSeek_stores_time (time : Q) (st : AppState) (a : Audio) :
  audioRef st = Some a →
  let st' := handleSeek time st in
  currentTime st' = time
  ∧ audioRef st' = Some (mkAudio time (audio_paused a))
  ∧ isPlaying st' = isPlaying st
  ∧ playQueue st' = playQueue st
  ∧ currentSongIndex st' = currentSongIndex st
  ∧ audioDuration st' = audioDuration st.
Proof. intros Haudio. unfold handleSeek. rewrite Haudio. done. Qed.

Lemma handleSeek_stores_time_witness :
  audioRef (Examples.playing [Examples.songA] 0 RepeatNone 0%Q)
  = Some (mkAudio 0%Q false)
  ∧ currentTime (handleSeek 50%Q (Examples.playing [Examples.songA] 0 RepeatNone 0%Q))
    = 50%Q.
Proof.
  split; [reflexivity |].
  exact (proj1 (handleSeek_stores_time 50%Q
    (Examples.playing [Examples.songA] 0 RepeatNone 0%Q)
    (mkAudio 0%Q false) eq_refl)).
Defined.

(** Before the element has reported a duration the state holds 0 and the
    slider runs to 100 ([max={duration || 100}]): a seek to 50 stores 50. *)
Lemma handleSeek_counterexample :
  ¬ seekClamps 50%Q (Examples.playing [Examples.songA] 0 RepeatNone 0%Q).
Proof. unfold seekClamps. vm_compute. discriminate. Qed.

(** ** Playback controller: the shuffle toggle *)

(** In every mode the built queue holds the songs of the source. *)
Lemma getShuffledQueue_Permutation (mode : ShuffleMode) (source : list Song)
    (g : Rng) :
  (getShuffledQueue mode source g).1 ≡ₚ source.
Proof.
  destruct mode; simpl.
  - done.
  - apply fisherYates_Permutation.
  - apply sortWith_Permutation.
Qed.

Lemma findCurrent_from_typed (c : Song) (l : list Song) (base : Z) :
  findCurrent_from (Some c) (Some <$> l) base
  = Ok (findIndex_from (hasId (id c)) l base).
Proof.
  revert base. induction l as [|s rest IH]; intros base; [done |].
  simpl. destruct (hasId (id c) s); [done | apply IH].
Qed.

Lemma findCurrent_typed (c : Song) (l : list Song) :
  findCurrent (Some c) (Some <$> l) = Ok (findIndex (hasId (id c)) l).
Proof. apply findCurrent_from_typed. Qed.

Lemma typedList_typed (l : list Song) : typedList (Some <$> l) = Some l.
Proof.
  unfold typedList. induction l as [|s rest IH]; [done |].
  cbn. cbn in IH. by rewrite IH.
Qed.

(** With the library in view the toggle reverts to [songs]. *)
Lemma originalList_library (st : AppState) :
  view_type (activeView st) = Library → originalList st = Some <$> songs st.
Proof. unfold originalList. by intros ->. Qed.

(** The lookup by identity finds the playing song in a queue that holds it. *)
Lemma findIndex_current (c : Song) (queue : list Song) :
  (∃ x, x ∈ queue ∧ id x = id c) →
  ∃ c', at_index queue (findIndex (hasId (id c)) queue) = Some c' ∧ id c' = id c.
Proof.
  intros (x & Hx & Hid).
  destruct (findIndex_found (hasId (id c)) queue) as (c' & _ & Hat & Hp & _).
  { exists x. split; [done |]. by apply hasId_true. }
  exists c'. split; [done |]. by apply hasId_true.
Qed.

Lemma currentSong_elem_of (st : AppState) (c : Song) :
  currentSong st = Some c → c ∈ playQueue st.
Proof.
  intros [_ H]%at_index_Some. by eapply list_elem_of_lookup_2.
Qed.

(** The toggle shuffles with the callback of the current render, that is,
    under the mode that it is leaving. *)
Lemma toggleShuffle_builds_under_previous_mode (st : AppState) (g : Rng)
    (c : Song) :
  currentSong st = Some c →
  nextShuffleMode (shuffleMode st) ≠ ShuffleNone →
  let built := getShuffledQueue (shuffleMode st) (playQueue st) g in
  toggleShuffle st g
  = Ok (setCurrentSongIndex (findIndex (hasId (id c)) built.1)
          (setPlayQueue built.1
             (setShuffleMode (nextShuffleMode (shuffleMode st)) st)),
        built.2).
Proof.
  intros Hcur Hmode. cbn zeta.
  pose proof (currentSong_queue_nonempty st c Hcur) as Hrange.
  unfold toggleShuffle.
  rewrite (bool_decide_eq_true_2 _ Hmode).
  rewrite bool_decide_eq_true_2 by lia. simpl.
  unfold currentSong in Hcur. rewrite Hcur.
  destruct (getShuffledQueue (shuffleMode st) (playQueue st) g) as [newQueue g1].
  by rewrite findCurrent_typed.
Qed.

(** Leaving mode none for mode random, the queue is only copied and no value
    is drawn. *)
Lemma toggleShuffle_from_none_keeps_order (st : AppState) (g : Rng) (c : Song) :
  currentSong st = Some c → shuffleMode st = ShuffleNone →
  ∃ st', toggleShuffle st g = Ok (st', g)
         ∧ shuffleMode st' = ShuffleRandom
         ∧ playQueue st' = playQueue st.
Proof.
  intros Hcur Hnone.
  pose proof (toggleShuffle_builds_under_previous_mode st g c Hcur) as H.
  rewrite Hnone in H. specialize (H ltac:(done)). cbn zeta in H.
  eexists. split; [exact H |]. done.
Qed.

(** C3 (as amended). On a state with a current song the toggle moves the
    mode one step along none, random, weighted, none.  When the new mode is
    random or weighted the new queue is a reordering of the current play
    queue (not of the source view), so the playing identity is always found.
    When the new mode is none the new queue is the list of the active view
    as stored (the library, or the songs of the playlist), not searched and
    not sorted.  In both cases the pointer is the first index of the new
    queue that holds the playing identity, found by identity; when no entry
    holds it the pointer is -1 and there is no current song.  The playing
    flag is not touched. *)
Theorem toggleShuffle_continuity (st : AppState) (g : Rng) (c : Song) :
  currentSong st = Some c →
  let newMode := nextShuffleMode (shuffleMode st) in
  (newMode ≠ ShuffleNone →
     ∃ st' g', toggleShuffle st g = Ok (st', g')
       ∧ shuffleMode st' = newMode
       ∧ playQueue st' ≡ₚ playQueue st
       ∧ currentSongIndex st' = findIndex (hasId (id c)) (playQueue st')
       ∧ isPlaying st' = isPlaying st
       ∧ ∃ c', currentSong st' = Some c' ∧ id c' = id c)
  ∧ (newMode = ShuffleNone →
     ∀ view, originalList st = Some <$> view →
     ∃ st', toggleShuffle st g = Ok (st', g)
       ∧ shuffleMode st' = ShuffleNone
       ∧ playQueue st' = view
       ∧ currentSongIndex st' = findIndex (hasId (id c)) view
       ∧ isPlaying st' = isPlaying st
       ∧ ((∃ x, x ∈ view ∧ id x = id c) →
            ∃ c', currentSong st' = Some c' ∧ id c' = id c)
       ∧ ((∀ x, x ∈ view → id x ≠ id c) →
            currentSongIndex st' = -1 ∧ currentSong st' = None)).
Proof.
  intros Hcur. cbn zeta. split.
  - intros Hmode.
    rewrite (toggleShuffle_builds_under_previous_mode st g c Hcur Hmode).
    pose proof (getShuffledQueue_Permutation (shuffleMode st) (playQueue st) g) as Hperm.
    destruct (getShuffledQueue (shuffleMode st) (playQueue st) g) as [newQueue g1].
    simpl in *. eexists _, _. split; [done |]. simpl.
    split; [done |]. split; [done |]. split; [done |]. split; [done |].
    unfold currentSong; simpl. apply findIndex_current.
    exists c. split; [| done]. rewrite Hperm. by apply currentSong_elem_of.
  - intros Hmode view Hview.
    pose proof (currentSong_queue_nonempty st c Hcur) as Hrange.
    unfold toggleShuffle. rewrite Hmode. simpl.
    rewrite bool_decide_eq_true_2 by lia.
    unfold currentSong in Hcur. rewrite Hcur, Hview.
    rewrite findCurrent_typed, typedList_typed.
    eexists. split; [done |]. simpl.
    split; [done |]. split; [done |]. split; [done |]. split; [done |].
    split.
    + intros Hin. unfold currentSong; simpl. by apply findIndex_current.
    + intros Habsent.
      assert (Hidx : findIndex (hasId (id c)) view = -1).
      { apply findIndex_absent. intros x Hx. apply hasId_false. by apply Habsent. }
      unfold currentSong; simpl. by rewrite Hidx.
Qed.

Lemma toggleShuffle_continuity_witness :
  currentSong Examples.weightedSession = Some Examples.songA
  ∧ ∃ st', toggleShuffle Examples.weightedSession Examples.alternating
           = Ok (st', Examples.alternating)
           ∧ playQueue st' = [Examples.songA; Examples.songB; Examples.songC]
           ∧ currentSongIndex st' = 0.
Proof.
  split; [reflexivity |].
  destruct (toggleShuffle_continuity Examples.weightedSession Examples.alternating
              Examples.songA eq_refl) as [_ Hnone].
  destruct (Hnone eq_refl [Examples.songA; Examples.songB; Examples.songC] eq_refl)
    as (st' & Hrun & _ & Hqueue & Hindex & _).
  exists st'. split; [exact Hrun |]. split; [exact Hqueue |].
  rewrite Hindex. reflexivity.
Defined.

(** The source view is empty, whatever the engine's string functions do, yet
    the new queue is the old one and the pointer stays on A. *)
Lemma toggleShuffle_counterexample :
  toggleShuffle Examples.emptyPlaylistInView Examples.alternating
  = Ok (setShuffleMode ShuffleRandom Examples.emptyPlaylistInView, Examples.alternating)
  ∧ ¬ ∃ localeCompare toLowerCase,
        rebuiltFromSourceView localeCompare toLowerCase Examples.emptyPlaylistInView
          (setShuffleMode ShuffleRandom Examples.emptyPlaylistInView).
Proof.
  split; [reflexivity |].
  intros (localeCompare & toLowerCase & h & Hqueue).
  vm_compute in Hqueue. discriminate Hqueue.
Qed.

(** ** Play-count tracker *)

(** Two clock readings give two different markers for the same song. *)
Lemma songPlaybackId_inj (song : Song) (now1 now2 : Z) :
  songPlaybackId song now1 = songPlaybackId song now2 → now1 = now2.
Proof.
  unfold songPlaybackId. intros H.
  apply (inj (String.app (id song))) in H.
  apply (inj (String.app "-")) in H.
  by apply (inj pretty) in H.
Qed.

(** While playing past the threshold, a run of the effect whose marker is
    not in the set calls [incrementPlayCount] and adds the marker. *)
Lemma playCountEffect_counts (now : Z) (st : AppState) (song : Song) :
  currentSong st = Some song →
  isPlaying st = true →
  (PLAY_COUNT_THRESHOLD_S <= currentTime st)%Q →
  songPlaybackId song now ∉ playCountTrackedRef st →
  playCountEffect now st
  = ([id song],
     setTracked ({[ songPlaybackId song now ]} ∪ playCountTrackedRef st) st).
Proof.
  intros Hcur Hplay Htime%Qle_bool_iff Hfresh. unfold playCountEffect.
  rewrite Hcur, Hplay, Htime. rewrite (bool_decide_eq_false_2 _ Hfresh).
  simpl. by rewrite Hplay.
Qed.

(** Two runs of the effect in one uninterrupted session, past the threshold,
    at two different clock readings: the song is counted twice. *)
Lemma playCountEffect_counts_again (now1 now2 : Z) (st : AppState) (song : Song) :
  currentSong st = Some song →
  isPlaying st = true →
  (PLAY_COUNT_THRESHOLD_S <= currentTime st)%Q →
  playCountTrackedRef st = ∅ →
  now1 ≠ now2 →
  (playCountEffect now1 st).1
    ++ (playCountEffect now2 (playCountEffect now1 st).2).1
  = [id song; id song].
Proof.
  intros Hcur Hplay Htime Hempty Hclock.
  rewrite (playCountEffect_counts now1 st song) by (try done; rewrite Hempty; set_solver).
  simpl.
  rewrite (playCountEffect_counts now2 _ song); try done.
  simpl. rewrite Hempty. intros Hin.
  apply elem_of_union in Hin as [Hin | Hin]; [| set_solver].
  apply elem_of_singleton in Hin. apply songPlaybackId_inj in Hin. congruence.
Qed.

(** Position reports only, no pause, stop or pointer change: the element
    reports 5 s at clock reading 1700000000000 and 5.25 s a quarter of a
    second later.  [incrementPlayCount] is called for A at both reports, and
    the set holds two markers. *)
Lemma playCount_counted_at_every_update :
  let '((calls, st'), _) :=
    run [(1700000000000, TimeUpdate 5%Q);
         (1700000000250, TimeUpdate (21 # 4)%Q)]
        (Examples.playing [Examples.songA] 0 RepeatNone 0%Q)
        Examples.alternating in
  calls = ["a.mp3-1"; "a.mp3-1"]
  ∧ playCountTrackedRef st'
    = {[ "a.mp3-1-1700000000000"; "a.mp3-1-1700000000250" ]}
  ∧ isPlaying st' = true
  ∧ currentSongIndex st' = 0.
Proof. vm_compute. repeat split. Qed.

(** C1 (as amended). One run of the play-count effect on a state with a
    current song.  While playing, with the position at 5 seconds or more,
    the run calls [incrementPlayCount] for the current identity once and
    records its marker when the marker is not yet in the tracked set, and
    calls nothing when the marker is already there; below 5 seconds it calls
    nothing.  While not playing it calls nothing and clears the tracked set:
    a pause ends the session, and a resume past the threshold is counted
    again.  Nothing but the tracked set is changed. *)
Theorem playCountEffect_session (now : Z) (st : AppState) (song : Song) :
  currentSong st = Some song →
  let marker := songPlaybackId song now in
  let calls := (playCountEffect now st).1 in
  let st' := (playCountEffect now st).2 in
  st' = setTracked (playCountTrackedRef st') st
  ∧ (isPlaying st = true →
       ((PLAY_COUNT_THRESHOLD_S <= currentTime st)%Q →
          marker ∉ playCountTrackedRef st →
          calls = [id song]
          ∧ playCountTrackedRef st' = {[ marker ]} ∪ playCountTrackedRef st)
       ∧ ((PLAY_COUNT_THRESHOLD_S <= currentTime st)%Q →
          marker ∈ playCountTrackedRef st →
          calls = [] ∧ playCountTrackedRef st' = playCountTrackedRef st)
       ∧ ((currentTime st < PLAY_COUNT_THRESHOLD_S)%Q →
          calls = [] ∧ playCountTrackedRef st' = playCountTrackedRef st))
  ∧ (isPlaying st = false → calls = [] ∧ playCountTrackedRef st' = ∅).
Proof.
  intros Hcur. cbn zeta.
  pose proof (currentSong_queue_nonempty st song Hcur) as Hrange.
  assert (Hptr : (currentSongIndex st =? -1) = false) by (apply Z.eqb_neq; lia).
  unfold playCountEffect. rewrite Hcur.
  destruct (isPlaying st) eqn:Hplay.
  - destruct (Qle_bool PLAY_COUNT_THRESHOLD_S (currentTime st)) eqn:Htime.
    + case_bool_decide as Hin; simpl; rewrite Hplay; simpl.
      * split; [by destruct st |]. split; [| done].
        intros _. split; [done |]. split; [done |].
        intros Hlt. apply Qle_bool_iff in Htime. by apply Qlt_not_le in Hlt.
      * split; [by destruct st |]. split; [| done].
        intros _. split; [done |]. split; [done |].
        intros Hlt. apply Qle_bool_iff in Htime. by apply Qlt_not_le in Hlt.
    + simpl. rewrite Hplay. simpl.
      split; [by destruct st |]. split; [| done]. intros _.
      assert (Hno : ¬ (PLAY_COUNT_THRESHOLD_S <= currentTime st)%Q).
      { intros Hle%Qle_bool_iff. congruence. }
      split; [done |]. split; done.
  - simpl. rewrite Hplay, Hptr. simpl. split; [done |]. split; done.
Qed.

Lemma playCountEffect_session_witness :
  currentSong (Examples.playing [Examples.songA] 0 RepeatNone 5%Q)
  = Some Examples.songA
  ∧ (playCountEffect 1700000000000
       (Examples.playing [Examples.songA] 0 RepeatNone 5%Q)).1
    = ["a.mp3-1"].
Proof.
  split; [reflexivity |].
  destruct (playCountEffect_session 1700000000000
              (Examples.playing [Examples.songA] 0 RepeatNone 5%Q)
              Examples.songA eq_refl) as (_ & Hplaying & _).
  destruct (Hplaying eq_refl) as (Hfresh & _).
  refine (proj1 (Hfresh _ _)).
  - vm_compute. discriminate.
  - simpl. apply not_elem_of_empty.
Defined.

(** The scenario of the spec: A is counted when it reaches 5 s; the user
    pauses, the element goes back to the start, the user resumes, and the
    position crosses 5 s again: A is counted a second time. *)
Lemma playCount_counterexample :
  ¬ countedOnce Examples.songA
      [(1700000000000, TimeUpdate 5%Q);
       (1700000002000, PlayPause);
       (1700000002010, TimeUpdate 0%Q);
       (1700000004000, PlayPause);
       (1700000006000, TimeUpdate 2%Q);
       (1700000009250, TimeUpdate (21 # 4)%Q)]
      (Examples.playing [Examples.songA] 0 RepeatNone 0%Q)
      Examples.alternating.
Proof. unfold countedOnce. vm_compute. discriminate. Qed.

(** ** Library store *)

Lemma storeKeyed_empty : storeKeyed (mkDb ∅ []).
Proof. intros k s H. simpl in H. by rewrite lookup_empty in H. Qed.

Lemma storeKeyed_insert (m : gmap string Song) (log log' : list TxEvent) (s : Song) :
  storeKeyed (mkDb m log) → storeKeyed (mkDb (<[id s := s]> m) log').
Proof.
  intros Hkeyed k r. simpl. rewrite lookup_insert.
  case_decide; [naive_solver |]. apply Hkeyed.
Qed.

Lemma addPlays_0 (s : Song) : addPlays 0 s = s.
Proof. destruct s. unfold addPlays; simpl. f_equal. lia. Qed.

(** Below 2^53 the addition is exact: one more play is the successor. *)
Lemma bumpPlayCount_addPlays (s : Song) :
  Z.abs (playCount s + 1) ≤ 2 ^ 53 → bumpPlayCount s = addPlays 1 s.
Proof. intros H. unfold addPlays, bumpPlayCount. by rewrite jsAdd_exact. Qed.

Lemma addPlays_bump (n : nat) (s : Song) :
  Z.abs (playCount s + 1) ≤ 2 ^ 53 →
  addPlays n (bumpPlayCount s) = addPlays (S n) s.
Proof.
  intros H. rewrite bumpPlayCount_addPlays by done.
  unfold addPlays; simpl. f_equal. lia.
Qed.

Lemma flat_map_seq_S {B} (f : nat → list B) (start len : nat) :
  flat_map f (seq (S start) len) = flat_map (λ i, f (S i)) (seq start len).
Proof.
  revert start. induction len as [|len IH]; intros start; [done |].
  simpl. by rewrite IH.
Qed.

(** One increment of a stored record. *)
Lemma incrementPlayCount_present (db : Database) (songId : string) (song : Song) :
  storeKeyed db → songsStore db !! songId = Some song →
  incrementPlayCount songId db
  = Ok (mkDb (<[songId := bumpPlayCount song]> (songsStore db))
             (txLog db ++ [TxOpen ReadWrite; TxGet songId;
                           TxPut (bumpPlayCount song); TxDone])).
Proof.
  intros Hkeyed Hsong. unfold incrementPlayCount, transaction, store_get.
  cbn [songsStore logEvent txLog]. rewrite Hsong.
  unfold store_put, logEvent. simpl.
  rewrite (Hkeyed _ _ Hsong).
  by rewrite <- !app_assoc.
Qed.

(** At the end of the exact range of JavaScript numbers an increment is
    lost: a record that holds 2^53 plays keeps 2^53 after an increment
    (2^53 + 1 is not a binary64 value and the sum rounds back). *)
Lemma incrementPlayCount_counterexample :
  ¬ noIncrementLost MoreExamples.storeAtLimit "b.mp3-2" 1.
Proof.
  intros Hclaim.
  destruct (Hclaim MoreExamples.songAtLimit eq_refl) as (db' & Hrun & Hcount).
  vm_compute in Hrun. injection Hrun as <-.
  vm_compute in Hcount. discriminate.
Qed.

(** C6. [n] increments of a stored record whose play count stays inside
    the exact range of JavaScript numbers (from -2^53 up to 2^53 after the
    last increment), one after the other, all resolve; they leave the record
    with its play count raised by [n] and everything else in the store as it
    was; and the requests they add are [n] transactions, each one opened,
    reading the record, writing it back with one more play, and done. *)
Theorem incrementPlayCount_sequential (db : Database) (songId : string)
    (song : Song) (n : nat) :
  storeKeyed db → songsStore db !! songId = Some song →
  - 2 ^ 53 ≤ playCount song → playCount song + Z.of_nat n ≤ 2 ^ 53 →
  ∃ db', incrementPlayCountTimes n songId db = Ok db'
    ∧ songsStore db' = <[songId := addPlays n song]> (songsStore db)
    ∧ playCount <$> getSongById songId db' = Some (playCount song + Z.of_nat n)
    ∧ txLog db' = txLog db ++ flat_map (incrementTrace songId song) (seq 0 n)
    ∧ storeKeyed db'.
Proof.
  revert db song. induction n as [|n IH]; intros db song Hkeyed Hsong Hlo Hhi.
  - exists db. simpl. rewrite addPlays_0, app_nil_r.
    rewrite (insert_id _ _ _ Hsong). unfold getSongById. rewrite Hsong. simpl.
    repeat split; try done. f_equal. lia.
  - cbn [incrementPlayCountTimes].
    rewrite (incrementPlayCount_present db songId song Hkeyed Hsong).
    assert (Hexact : Z.abs (playCount song + 1) ≤ 2 ^ 53) by lia.
    set (db1 := mkDb _ _).
    assert (Hkeyed1 : storeKeyed db1).
    { subst db1. rewrite <- (Hkeyed _ _ Hsong) at 1.
      change (id song) with (id (bumpPlayCount song)).
      destruct db. by eapply storeKeyed_insert. }
    assert (Hsong1 : songsStore db1 !! songId = Some (bumpPlayCount song)).
    { subst db1. simpl. apply lookup_insert_eq. }
    assert (Hcount1 : playCount (bumpPlayCount song) = playCount song + 1).
    { by rewrite bumpPlayCount_addPlays. }
    destruct (IH db1 (bumpPlayCount song) Hkeyed1 Hsong1)
      as (db' & Hrun & Hstore & Hcount & Hlog & Hkeyed'); [lia | lia |].
    exists db'. split; [done |]. split.
    { rewrite Hstore. subst db1. simpl.
      by rewrite insert_insert_eq, addPlays_bump. }
    split.
    { rewrite Hcount, Hcount1. f_equal. lia. }
    split; [| done].
    rewrite Hlog. subst db1. cbn [txLog]. rewrite <- app_assoc. f_equal.
    cbn [seq flat_map]. rewrite flat_map_seq_S. f_equal.
    { unfold incrementTrace. by rewrite bumpPlayCount_addPlays. }
    apply flat_map_ext. intros i.
    unfold incrementTrace. by rewrite addPlays_bump.
Qed.

Lemma incrementPlayCount_sequential_witness :
  storeKeyed Examples.storeWithB
  ∧ songsStore Examples.storeWithB !! "b.mp3-2" = Some Examples.songB
  ∧ ∃ db', incrementPlayCountTimes 3 "b.mp3-2" Examples.storeWithB = Ok db'
           ∧ playCount <$> getSongById "b.mp3-2" db' = Some 5.
Proof.
  assert (Hkeyed : storeKeyed Examples.storeWithB).
  { intros k s H. unfold Examples.storeWithB in H. simpl in H.
    apply lookup_singleton_Some in H as [<- <-]. reflexivity. }
  split; [exact Hkeyed |]. split; [reflexivity |].
  destruct (incrementPlayCount_sequential Examples.storeWithB "b.mp3-2" Examples.songB 3
              Hkeyed eq_refl) as (db' & Hrun & _ & Hcount & _);
    [vm_compute; discriminate | vm_compute; discriminate |].
  exists db'. split; [exact Hrun | exact Hcount].
Defined.

(** C10. An increment of an identity that is not in the store resolves and
    leaves the store as it was: no record is added and none is changed.
    Its one transaction reads and writes nothing back. *)
Theorem incrementPlayCount_absent (db : Database) (songId : string) :
  songsStore db !! songId = None →
  ∃ db', incrementPlayCount songId db = Ok db'
    ∧ songsStore db' = songsStore db
    ∧ getSongs db' = getSongs db
    ∧ txLog db' = txLog db ++ [TxOpen ReadWrite; TxGet songId; TxDone].
Proof.
  intros Habsent. unfold incrementPlayCount, transaction, store_get.
  cbn [songsStore logEvent txLog]. rewrite Habsent. simpl.
  eexists. split; [done |]. simpl. repeat split. by rewrite <- !app_assoc.
Qed.

Lemma incrementPlayCount_absent_witness :
  songsStore Examples.storeWithB !! "a.mp3-1" = None
  ∧ ∃ db', incrementPlayCount "a.mp3-1" Examples.storeWithB = Ok db'
           ∧ songsStore db' = songsStore Examples.storeWithB.
Proof.
  split; [reflexivity |].
  destruct (incrementPlayCount_absent Examples.storeWithB "a.mp3-1" eq_refl)
    as (db' & Hrun & Hstore & _).
  exists db'. split; [exact Hrun | exact Hstore].
Defined.

Lemma putAll_spec (batch : list Song) (db : Database) :
  putAll batch db
  = (tt, mkDb (storeAfter batch (songsStore db)) (txLog db ++ (TxPut <$> batch))).
Proof.
  revert db. induction batch as [|s rest IH]; intros db.
  - destruct db. simpl. by rewrite app_nil_r.
  - cbn [putAll store_put]. rewrite IH. unfold logEvent. simpl.
    by rewrite <- app_assoc.
Qed.

(** A batch is written in one transaction, one put per song. *)
Lemma addSongs_spec (batch : list Song) (db : Database) :
  addSongs batch db
  = Ok (mkDb (storeAfter batch (songsStore db))
             (txLog db ++ TxOpen ReadWrite :: (TxPut <$> batch) ++ [TxDone])).
Proof.
  unfold addSongs, transaction. rewrite putAll_spec. unfold logEvent. simpl.
  by rewrite <- !app_assoc.
Qed.

Lemma storeAfter_union (batch : list Song) (m : gmap string Song) :
  storeAfter batch m = storeAfter batch ∅ ∪ m.
Proof.
  revert m. induction batch as [|s rest IH]; intros m.
  - simpl. by rewrite (left_id ∅ (∪)).
  - simpl. rewrite (IH (<[id s := s]> m)), (IH (<[id s := s]> ∅)).
    rewrite insert_empty, insert_union_singleton_l. by rewrite (assoc (∪)).
Qed.

(** Writing a batch again changes nothing. *)
Lemma storeAfter_idemp (batch : list Song) (m : gmap string Song) :
  storeAfter batch (storeAfter batch m) = storeAfter batch m.
Proof.
  rewrite (storeAfter_union batch (storeAfter batch m)).
  rewrite (storeAfter_union batch m).
  by rewrite (assoc (∪)), (idemp (∪)).
Qed.

Lemma storeKeyed_storeAfter (batch : list Song) (m : gmap string Song)
    (log log' : list TxEvent) :
  storeKeyed (mkDb m log) → storeKeyed (mkDb (storeAfter batch m) log').
Proof.
  revert m. induction batch as [|s rest IH]; intros m Hkeyed.
  - intros k r. apply Hkeyed.
  - simpl. apply IH. by eapply storeKeyed_insert.
Qed.

(** [getSongs] returns one record per stored identity. *)
Lemma getSongs_one_per_identity (db : Database) (k : string) (s : Song) :
  storeKeyed db → songsStore db !! k = Some s →
  filter (λ r, id r = k) (getSongs db) = [s].
Proof.
  intros Hkeyed Hs. apply Permutation_singleton_r.
  unfold getSongs. rewrite merge_sort_Permutation.
  rewrite <- (insert_delete_id (songsStore db) k s Hs).
  rewrite map_to_list_insert by apply lookup_delete_eq.
  rewrite fmap_cons. cbn [snd].
  rewrite filter_cons_True by (by eapply Hkeyed).
  apply Permutation_cons; [done |].
  apply Permutation_nil_r.
  assert (Hnone : ∀ r, r ∈ (map_to_list (delete k (songsStore db))).*2 → id r ≠ k).
  { intros r [[k' r'] [-> Hin]]%list_elem_of_fmap. simpl.
    apply elem_of_map_to_list in Hin.
    apply lookup_delete_Some in Hin as [Hne Hin].
    rewrite (Hkeyed _ _ Hin). congruence. }
  revert Hnone. generalize ((map_to_list (delete k (songsStore db))).*2).
  intros l Hnone. induction l as [|r rest IH]; [done |].
  rewrite filter_cons_False by (apply Hnone; left).
  apply IH. intros r' Hr'. apply Hnone. by right.
Qed.

(** C7. [addSongs] (the spec's [upsertSongs]) always resolves and is
    idempotent by identity.  Writing a batch a second time leaves the store,
    and what [getSongs] returns, as the first write left them.  Writing a
    record and then a record of the same identity leaves exactly one record
    of that identity, the later one, and touches no other identity. *)
Theorem addSongs_idempotent_by_identity (db : Database) (batch : list Song)
    (first later : Song) :
  storeKeyed db → id first = id later →
  (∃ db1 db2, addSongs batch db = Ok db1 ∧ addSongs batch db1 = Ok db2
      ∧ songsStore db2 = songsStore db1
      ∧ getSongs db2 = getSongs db1)
  ∧ (∃ db1 db2, addSongs [first] db = Ok db1 ∧ addSongs [later] db1 = Ok db2
      ∧ getSongById (id later) db2 = Some later
      ∧ filter (λ r, id r = id later) (getSongs db2) = [later]
      ∧ (∀ k, k ≠ id later → songsStore db2 !! k = songsStore db !! k)
      ∧ storeKeyed db2).
Proof.
  intros Hkeyed Hsame. split.
  - rewrite addSongs_spec. eexists _, _. split; [done |].
    rewrite addSongs_spec. split; [done |]. cbn [songsStore].
    rewrite storeAfter_idemp. split; [done |].
    unfold getSongs. by cbn [songsStore].
  - rewrite addSongs_spec. eexists _, _. split; [done |].
    rewrite addSongs_spec. split; [done |]. cbn [songsStore storeAfter foldl].
    rewrite Hsame, insert_insert_eq.
    assert (Hkeyed2 : ∀ log, storeKeyed
              (mkDb (<[id later := later]> (songsStore db)) log)).
    { intros log. destruct db. by eapply storeKeyed_insert. }
    assert (Hlater : <[id later := later]> (songsStore db) !! id later = Some later)
      by apply lookup_insert_eq.
    split; [done |]. split.
    { by apply getSongs_one_per_identity. }
    split; [| done].
    intros k Hk. simpl. by rewrite lookup_insert_ne.
Qed.

Lemma addSongs_idempotent_by_identity_witness :
  storeKeyed (mkDb ∅ [])
  ∧ id Examples.songB = id Examples.songB'
  ∧ ∃ db1 db2, addSongs [Examples.songB] (mkDb ∅ []) = Ok db1
               ∧ addSongs [Examples.songB'] db1 = Ok db2
               ∧ filter (λ r, id r = id Examples.songB') (getSongs db2) = [Examples.songB'].
Proof.
  split; [exact storeKeyed_empty |]. split; [reflexivity |].
  destruct (addSongs_idempotent_by_identity (mkDb ∅ [])
              [Examples.songA] Examples.songB Examples.songB' storeKeyed_empty eq_refl)
    as [_ (db1 & db2 & H1 & H2 & _ & Hone & _)].
  exists db1, db2. split; [exact H1 |]. split; [exact H2 | exact Hone].
Defined.

(** * Further properties *)

(** ** Library store: songs *)

Lemma storeAfter_lookup_other (batch : list Song) (m : gmap string Song)
    (k : string) :
  k ∉ id <$> batch → storeAfter batch m !! k = m !! k.
Proof.
  revert m. induction batch as [|x rest IH]; intros m Hk; [done |].
  simpl. rewrite fmap_cons, not_elem_of_cons in Hk. destruct Hk as [Hne Hk].
  rewrite IH by done. by rewrite lookup_insert_ne.
Qed.

Lemma storeAfter_lookup_member (batch : list Song) (m : gmap string Song)
    (s : Song) :
  NoDup (id <$> batch) → s ∈ batch → storeAfter batch m !! id s = Some s.
Proof.
  revert m. induction batch as [|x rest IH]; intros m Hnodup Hin.
  - inversion Hin.
  - rewrite fmap_cons, NoDup_cons in Hnodup. destruct Hnodup as [Hx Hrest].
    simpl. apply elem_of_cons in Hin as [-> | Hin].
    + rewrite storeAfter_lookup_other by done. apply lookup_insert_eq.
    + by apply IH.
Qed.

(** X1. A batch without two records of one identity is read back record by
    record, and an identity that the batch does not name keeps what it
    had. *)
Theorem addSongs_read_back (db : Database) (batch : list Song) (s : Song) :
  NoDup (id <$> batch) → s ∈ batch →
  ∃ db', addSongs batch db = Ok db'
    ∧ getSongById (id s) db' = Some s
    ∧ ∀ k, k ∉ id <$> batch → getSongById k db' = getSongById k db.
Proof.
  intros Hnodup Hin. rewrite addSongs_spec. eexists. split; [done |].
  unfold getSongById. cbn [songsStore]. split.
  - by apply storeAfter_lookup_member.
  - intros k Hk. by apply storeAfter_lookup_other.
Qed.

Lemma addSongs_read_back_witness :
  NoDup (id <$> [Examples.songA; Examples.songB])
  ∧ Examples.songB ∈ [Examples.songA; Examples.songB]
  ∧ ∃ db', addSongs [Examples.songA; Examples.songB] Examples.storeWithB = Ok db'
           ∧ getSongById "b.mp3-2" db' = Some Examples.songB.
Proof.
  assert (Hnodup : NoDup (id <$> [Examples.songA; Examples.songB])).
  { apply (bool_decide_unpack _). vm_compute. exact I. }
  assert (Hin : Examples.songB ∈ [Examples.songA; Examples.songB]).
  { apply (bool_decide_unpack _). vm_compute. exact I. }
  split; [exact Hnodup |]. split; [exact Hin |].
  destruct (addSongs_read_back Examples.storeWithB _ _ Hnodup Hin)
    as (db' & Hrun & Hread & _).
  exists db'. split; [exact Hrun | exact Hread].
Defined.

Lemma unitsLeb_total (a b : list Z) : unitsLeb a b = true ∨ unitsLeb b a = true.
Proof.
  revert b. induction a as [|x a IH]; intros [|y b]; simpl; auto.
  destruct (Z.ltb_spec x y), (Z.ltb_spec y x); auto; lia.
Qed.

#[global] Instance keyLe_total : Total keyLe.
Proof. intros a b. unfold keyLe. apply unitsLeb_total. Qed.

Lemma Sorted_keyLe_records (l : list (string * Song)) :
  Forall (λ kv, id kv.2 = kv.1) l → Sorted keyLe l →
  Sorted (λ a b, unitsLeb (codeUnits (id a)) (codeUnits (id b)) = true) l.*2.
Proof.
  intros Hkeyed Hsorted. induction Hsorted as [|kv l Hs IH Hhd]; [constructor |].
  apply Forall_cons in Hkeyed as [Hkv Hl]. rewrite fmap_cons.
  constructor; [by apply IH |].
  destruct Hhd as [|kv' l' Hle]; [constructor |].
  apply Forall_cons in Hl as [Hkv' _]. rewrite fmap_cons. constructor.
  unfold keyLe in Hle. by rewrite Hkv, Hkv'.
Qed.

(** The order is the one of the code units, not of the bytes: an identity
    that starts beyond the basic plane (a surrogate pair, from D800) comes
    before one that starts high in the basic plane (here FF5E). *)
Lemma getSongs_code_unit_order :
  id <$> getSongs MoreExamples.storeBeyondBasicPlane = ["😀.mp3-2"; "～.mp3-1"]
  ∧ String.leb "～.mp3-1" "😀.mp3-2" = true.
Proof. split; vm_compute; reflexivity. Qed.

(** X2. [getSongs] returns every stored record exactly once, in the order of
    the identities (by UTF-16 code units). *)
Theorem getSongs_lists_every_record_once (db : Database) :
  storeKeyed db →
  length (getSongs db) = size (songsStore db)
  ∧ NoDup (id <$> getSongs db)
  ∧ (∀ s, s ∈ getSongs db ↔ getSongById (id s) db = Some s)
  ∧ Sorted (λ a b, unitsLeb (codeUnits (id a)) (codeUnits (id b)) = true)
           (getSongs db).
Proof.
  intros Hkeyed. unfold getSongs.
  pose proof (merge_sort_Permutation keyLe (map_to_list (songsStore db))) as Hperm.
  assert (Hall : Forall (λ kv : string * Song, id kv.2 = kv.1)
                   (merge_sort keyLe (map_to_list (songsStore db)))).
  { rewrite Hperm. apply Forall_forall. intros [k s] Hin.
    apply elem_of_map_to_list in Hin. simpl. by eapply Hkeyed. }
  split.
  { by rewrite length_fmap, Hperm, length_map_to_list. }
  split.
  { assert (Hids : id <$> (merge_sort keyLe (map_to_list (songsStore db))).*2
                   = (merge_sort keyLe (map_to_list (songsStore db))).*1).
    { clear Hperm. induction Hall as [|kv l Hkv Hl IH]; [done |].
      rewrite !fmap_cons, IH. by rewrite Hkv. }
    rewrite Hids, Hperm. apply NoDup_fst_map_to_list. }
  split.
  { intros s. rewrite Hperm. unfold getSongById. split.
    - intros [[k s'] [-> Hin]]%list_elem_of_fmap. simpl.
      apply elem_of_map_to_list in Hin. by rewrite (Hkeyed _ _ Hin).
    - intros Hs. apply list_elem_of_fmap. exists (id s, s). split; [done |].
      by apply elem_of_map_to_list. }
  apply Sorted_keyLe_records; [done |]. apply (Sorted_merge_sort keyLe).
Qed.

Lemma getSongs_lists_every_record_once_witness :
  storeKeyed MoreExamples.storeWithAB
  ∧ getSongs MoreExamples.storeWithAB = [Examples.songA; Examples.songB]
  ∧ length (getSongs MoreExamples.storeWithAB) = 2%nat
  ∧ NoDup (id <$> getSongs MoreExamples.storeWithAB)
  ∧ Sorted (λ a b, unitsLeb (codeUnits (id a)) (codeUnits (id b)) = true)
           (getSongs MoreExamples.storeWithAB).
Proof.
  assert (Hkeyed : storeKeyed MoreExamples.storeWithAB).
  { intros k s H. unfold MoreExamples.storeWithAB in H. simpl in H.
    apply lookup_insert_Some in H as [[<- <-] | [_ H]]; [reflexivity |].
    apply lookup_singleton_Some in H as [<- <-]. reflexivity. }
  split; [exact Hkeyed |]. split; [vm_compute; reflexivity |].
  destruct (getSongs_lists_every_record_once MoreExamples.storeWithAB Hkeyed)
    as (Hlen & Hnodup & _ & Hsorted).
  split; [exact Hlen |]. split; [exact Hnodup | exact Hsorted].
Defined.

Lemma incrementPlayCount_absent_store (db : Database) (songId : string) :
  songsStore db !! songId = None →
  ∃ db', incrementPlayCount songId db = Ok db' ∧ songsStore db' = songsStore db.
Proof.
  intros Habsent. unfold incrementPlayCount, transaction, store_get.
  cbn [songsStore logEvent txLog]. rewrite Habsent. eexists. split; done.
Qed.

(** On a store that keeps each record under its identity, an increment
    alters the one record of that identity, if there is one. *)
Lemma incrementPlayCount_alter (db : Database) (songId : string) :
  storeKeyed db →
  ∃ db', incrementPlayCount songId db = Ok db'
    ∧ songsStore db' = alter bumpPlayCount songId (songsStore db)
    ∧ storeKeyed db'.
Proof.
  intros Hkeyed.
  assert (Halter : ∀ db', songsStore db' = alter bumpPlayCount songId (songsStore db) →
                          storeKeyed db').
  { intros db' Hstore k s. rewrite Hstore, lookup_alter. case_decide as Hk.
    - subst k. destruct (songsStore db !! songId) as [s0|] eqn:H0; [| done].
      simpl. intros [= <-]. by apply (Hkeyed _ _ H0).
    - apply Hkeyed. }
  destruct (songsStore db !! songId) as [song|] eqn:Hsong.
  - rewrite (incrementPlayCount_present db songId song Hkeyed Hsong).
    eexists. split; [done |].
    assert (Hstore : <[songId := bumpPlayCount song]> (songsStore db)
                     = alter bumpPlayCount songId (songsStore db)).
    { apply map_eq. intros k.
      rewrite lookup_insert, lookup_alter. case_decide as Hk; [| done].
      subst k. by rewrite Hsong. }
    split; [done |]. by apply Halter.
  - destruct (incrementPlayCount_absent_store db songId Hsong) as (db' & Hrun & Hstore).
    exists db'. split; [done |].
    assert (Hstore' : songsStore db' = alter bumpPlayCount songId (songsStore db)).
    { rewrite Hstore. apply map_eq. intros k.
      rewrite lookup_alter. case_decide as Hk; [| done]. subst k. by rewrite Hsong. }
    split; [done |]. by apply Halter.
Qed.

(** X3. An increment, of whatever identity, neither adds nor removes a record,
    keeps every record under its identity, and changes nothing but the play
    count of the record it names; that count grows by one as long as it
    stays inside the exact range of JavaScript numbers. *)
Theorem incrementPlayCount_touches_only_playCount (db : Database)
    (songId : string) :
  storeKeyed db →
  ∃ db', incrementPlayCount songId db = Ok db'
    ∧ dom (songsStore db') = dom (songsStore db)
    ∧ storeKeyed db'
    ∧ ∀ k s, songsStore db !! k = Some s →
        ∃ count,
          songsStore db' !! k
          = Some (if decide (k = songId)
                  then mkSong (id s) (file s) (fileName s) (title s) (artist s)
                              (album s) (duration s) count (dateAdded s)
                  else s)
          ∧ (Z.abs (playCount s + 1) ≤ 2 ^ 53 → count = playCount s + 1).
Proof.
  intros Hkeyed.
  destruct (incrementPlayCount_alter db songId Hkeyed)
    as (db' & Hrun & Hstore & Hkeyed').
  exists db'. split; [done |]. rewrite Hstore.
  split; [apply dom_alter_L |]. split; [done |].
  intros k s Hs. exists (jsAdd (playCount s) 1).
  split; [| apply jsAdd_exact].
  rewrite lookup_alter. case_decide as Hk.
  - subst k. rewrite Hs. simpl. by rewrite decide_True.
  - rewrite Hs. by rewrite decide_False by congruence.
Qed.

Lemma incrementPlayCount_touches_only_playCount_witness :
  storeKeyed MoreExamples.storeWithAB
  ∧ ∃ db', incrementPlayCount "b.mp3-2" MoreExamples.storeWithAB = Ok db'
           ∧ dom (songsStore db') = dom (songsStore MoreExamples.storeWithAB)
           ∧ playCount <$> songsStore db' !! "b.mp3-2" = Some 3
           ∧ songsStore db' !! "a.mp3-1" = Some Examples.songA.
Proof.
  assert (Hkeyed : storeKeyed MoreExamples.storeWithAB).
  { intros k s H. unfold MoreExamples.storeWithAB in H. simpl in H.
    apply lookup_insert_Some in H as [[<- <-] | [_ H]]; [reflexivity |].
    apply lookup_singleton_Some in H as [<- <-]. reflexivity. }
  split; [exact Hkeyed |].
  destruct (incrementPlayCount_touches_only_playCount
              MoreExamples.storeWithAB "b.mp3-2" Hkeyed)
    as (db' & Hrun & Hdom & _ & Hrecords).
  exists db'. split; [exact Hrun |]. split; [exact Hdom |].
  destruct (Hrecords "b.mp3-2" Examples.songB eq_refl) as (countB & HB & HcB).
  destruct (Hrecords "a.mp3-1" Examples.songA eq_refl) as (countA & HA & _).
  split; [| exact HA].
  rewrite HB. simpl. f_equal. apply HcB. vm_compute. discriminate.
Defined.

(** X4. Counting a play of one song and then of another leaves the same records
    as counting them the other way round. *)
Theorem incrementPlayCount_commute (db : Database) (a b : string) :
  storeKeyed db →
  ∃ da dab db_ dba,
    incrementPlayCount a db = Ok da ∧ incrementPlayCount b da = Ok dab
    ∧ incrementPlayCount b db = Ok db_ ∧ incrementPlayCount a db_ = Ok dba
    ∧ songsStore dab = songsStore dba
    ∧ getSongs dab = getSongs dba.
Proof.
  intros Hkeyed.
  destruct (incrementPlayCount_alter db a Hkeyed) as (da & Ha & Hsa & Hka).
  destruct (incrementPlayCount_alter db b Hkeyed) as (db_ & Hb & Hsb & Hkb).
  destruct (incrementPlayCount_alter da b Hka) as (dab & Hab & Hsab & _).
  destruct (incrementPlayCount_alter db_ a Hkb) as (dba & Hba & Hsba & _).
  exists da, dab, db_, dba. do 4 (split; [done |]).
  assert (Hstore : songsStore dab = songsStore dba).
  { rewrite Hsab, Hsba, Hsa, Hsb. apply map_eq. intros k.
    rewrite !lookup_alter. repeat case_decide; subst; try done.
    all: rewrite ?lookup_alter_eq, ?lookup_alter_ne by done; try done. }
  split; [done |]. unfold getSongs. by rewrite Hstore.
Qed.

Lemma incrementPlayCount_commute_witness :
  storeKeyed MoreExamples.storeWithAB
  ∧ ∃ da dab db_ dba,
      incrementPlayCount "a.mp3-1" MoreExamples.storeWithAB = Ok da
      ∧ incrementPlayCount "b.mp3-2" da = Ok dab
      ∧ incrementPlayCount "b.mp3-2" MoreExamples.storeWithAB = Ok db_
      ∧ incrementPlayCount "a.mp3-1" db_ = Ok dba
      ∧ songsStore dab = songsStore dba
      ∧ playCount <$> getSongs dba = [1; 3].
Proof.
  assert (Hkeyed : storeKeyed MoreExamples.storeWithAB).
  { intros k s H. unfold MoreExamples.storeWithAB in H. simpl in H.
    apply lookup_insert_Some in H as [[<- <-] | [_ H]]; [reflexivity |].
    apply lookup_singleton_Some in H as [<- <-]. reflexivity. }
  split; [exact Hkeyed |].
  destruct (incrementPlayCount_commute MoreExamples.storeWithAB "a.mp3-1" "b.mp3-2"
              Hkeyed)
    as (da & dab & db_ & dba & Ha & Hab & Hb & Hba & Hs & Hsongs).
  exists da, dab, db_, dba. do 5 (split; [assumption |]).
  vm_compute in Ha. injection Ha as <-.
  vm_compute in Hab. injection Hab as <-.
  rewrite <- Hsongs. vm_compute. reflexivity.
Defined.

(** ** Library store: playlists *)

Lemma playlistsKeyed_empty : playlistsKeyed emptyPlaylistStore.
Proof. intros k p H. simpl in H. by rewrite lookup_empty in H. Qed.

Lemma twoPlaylists_keyed : playlistsKeyed MoreExamples.twoPlaylists.
Proof.
  intros k p H. unfold MoreExamples.twoPlaylists in H. simpl in H.
  destruct (decide (k = 1)) as [-> | H1].
  - vm_compute in H. injection H as <-. split; [reflexivity | left; simpl; lia].
  - destruct (decide (k = 2)) as [-> | H2].
    + vm_compute in H. injection H as <-. split; [reflexivity | left; simpl; lia].
    + rewrite lookup_insert_ne in H by done.
      rewrite lookup_singleton_ne in H by done. discriminate H.
Qed.

(** An [add] is rejected exactly when the key generator has passed its last
    key. *)
Lemma addPlaylist_rejects (name : string) (now : Z) (pdb : PlaylistStore) :
  playlistsKeyed pdb →
  addPlaylist name now pdb = None ↔ MAX_GENERATED_KEY < keyGenerator pdb.
Proof.
  intros Hkeyed. unfold addPlaylist.
  destruct (Z.ltb_spec MAX_GENERATED_KEY (keyGenerator pdb)) as [Hpast | Hin].
  - done.
  - destruct (playlistRecords pdb !! keyGenerator pdb) as [p|] eqn:Hp.
    + destruct (Hkeyed _ _ Hp) as [_ [? | ?]]; lia.
    + split; [done | lia].
Qed.

Lemma addPlaylist_keyed (name : string) (now : Z) (pdb : PlaylistStore) :
  playlistsKeyed pdb → keyGenerator pdb ≤ MAX_GENERATED_KEY →
  addPlaylist name now pdb
  = Some (keyGenerator pdb,
          mkPlaylistStore
            (<[keyGenerator pdb := mkPlaylist (keyGenerator pdb) name [] now]>
               (playlistRecords pdb))
            (keyGenerator pdb + 1))
  ∧ playlistRecords pdb !! keyGenerator pdb = None
  ∧ playlistsKeyed
      (mkPlaylistStore
         (<[keyGenerator pdb := mkPlaylist (keyGenerator pdb) name [] now]>
            (playlistRecords pdb))
         (keyGenerator pdb + 1)).
Proof.
  intros Hkeyed Hgen.
  assert (Hfree : playlistRecords pdb !! keyGenerator pdb = None).
  { destruct (playlistRecords pdb !! keyGenerator pdb) as [p|] eqn:Hp; [| done].
    destruct (Hkeyed _ _ Hp) as [_ [? | ?]]; lia. }
  unfold addPlaylist. rewrite (proj2 (Z.ltb_ge _ _)) by done.
  rewrite Hfree. split; [done |]. split; [done |].
  intros k p. simpl. rewrite lookup_insert. case_decide as Hk.
  - intros [= <-]. simpl. split; [done | lia].
  - intros Hp. destruct (Hkeyed _ _ Hp) as [? [? | ?]]; split; [done | lia | done | lia].
Qed.

Lemma updatePlaylist_keyed (playlist : Playlist) (pdb : PlaylistStore) :
  playlistsKeyed pdb → playlistsKeyed (updatePlaylist playlist pdb).
Proof.
  intros Hkeyed k p. unfold updatePlaylist, MAX_GENERATED_KEY. simpl.
  rewrite lookup_insert. case_decide as Hk.
  - intros [= <-]. split; [done |].
    destruct (Z.leb_spec (keyGenerator pdb) (Z.min (playlist_id playlist) (2 ^ 53)));
      lia.
  - intros Hp. destruct (Hkeyed _ _ Hp) as [? Hor]. split; [done |].
    unfold MAX_GENERATED_KEY in Hor.
    destruct (Z.leb_spec (keyGenerator pdb) (Z.min (playlist_id playlist) (2 ^ 53)));
      lia.
Qed.

Lemma updatePlaylist_generator (playlist : Playlist) (pdb : PlaylistStore) :
  keyGenerator pdb ≤ keyGenerator (updatePlaylist playlist pdb).
Proof.
  unfold updatePlaylist. simpl.
  destruct (Z.leb_spec (keyGenerator pdb)
              (Z.min (playlist_id playlist) MAX_GENERATED_KEY)); lia.
Qed.

Lemma deletePlaylist_keyed (i : Z) (pdb : PlaylistStore) :
  playlistsKeyed pdb → playlistsKeyed (deletePlaylist i pdb).
Proof.
  intros Hkeyed k p. unfold deletePlaylist. simpl.
  intros [_ Hp]%lookup_delete_Some. by apply Hkeyed.
Qed.

(** X5. As long as the key generator has not passed its last key, a new
    playlist gets an identity that no stored playlist has, is stored under
    it with the given name and no songs, and leaves the other playlists as
    they were. *)
Theorem addPlaylist_fresh (name : string) (now : Z) (pdb : PlaylistStore) :
  playlistsKeyed pdb → keyGenerator pdb ≤ MAX_GENERATED_KEY →
  ∃ newId pdb', addPlaylist name now pdb = Some (newId, pdb')
    ∧ playlistRecords pdb !! newId = None
    ∧ playlistRecords pdb' !! newId = Some (mkPlaylist newId name [] now)
    ∧ (∀ k, k ≠ newId → playlistRecords pdb' !! k = playlistRecords pdb !! k)
    ∧ length (getPlaylists pdb') = S (length (getPlaylists pdb))
    ∧ playlistsKeyed pdb'.
Proof.
  intros Hkeyed Hgen.
  destruct (addPlaylist_keyed name now pdb Hkeyed Hgen) as (Hrun & Hfree & Hkeyed').
  eexists _, _. split; [exact Hrun |]. split; [done |]. simpl.
  split; [apply lookup_insert_eq |].
  split; [by intros k Hk; rewrite lookup_insert_ne |].
  split; [| done].
  unfold getPlaylists. simpl.
  rewrite !length_fmap, !merge_sort_Permutation, !length_map_to_list.
  by apply map_size_insert_None.
Qed.

Lemma addPlaylist_fresh_witness :
  playlistsKeyed MoreExamples.twoPlaylists
  ∧ keyGenerator MoreExamples.twoPlaylists ≤ MAX_GENERATED_KEY
  ∧ ∃ pdb', addPlaylist "Night" 40 MoreExamples.twoPlaylists = Some (3, pdb')
            ∧ playlistRecords MoreExamples.twoPlaylists !! 3 = None
            ∧ playlistRecords pdb' !! 3 = Some (mkPlaylist 3 "Night" [] 40)
            ∧ playlistRecords pdb' !! 1 = Some (mkPlaylist 1 "Morning" ["a.mp3-1"] 10)
            ∧ length (getPlaylists pdb') = 3%nat.
Proof.
  assert (Hgen : keyGenerator MoreExamples.twoPlaylists ≤ MAX_GENERATED_KEY)
    by (vm_compute; discriminate).
  split; [exact twoPlaylists_keyed |]. split; [exact Hgen |].
  destruct (addPlaylist_fresh "Night" 40 MoreExamples.twoPlaylists
              twoPlaylists_keyed Hgen)
    as (newId & pdb' & Hrun & Hfree & Hnew & Hothers & Hlen & _).
  assert (HnewId : newId = 3).
  { vm_compute in Hrun. congruence. }
  subst newId. exists pdb'. split; [exact Hrun |]. split; [exact Hfree |].
  split; [exact Hnew |]. split; [| exact Hlen].
  rewrite (Hothers 1) by discriminate. reflexivity.
Defined.

(** X6. Whatever calls are made on the playlist store, and in whatever order:
    a put and a delete are never rejected; an add is rejected exactly when
    the key generator has passed its last key, 2^53; as long as no call is
    rejected every playlist stays stored under its own identity and the key
    generator never goes back; so a series is rejected only at an add that
    finds the generator past its last key. *)
Theorem playlist_calls_reject_only_past_last_key (ops : list PlaylistOp)
    (pdb : PlaylistStore) :
  playlistsKeyed pdb →
  match applyOps ops pdb with
  | Some pdb' => playlistsKeyed pdb' ∧ keyGenerator pdb ≤ keyGenerator pdb'
  | None =>
      ∃ before name now after pdb1,
        ops = before ++ OpAdd name now :: after
        ∧ applyOps before pdb = Some pdb1
        ∧ playlistsKeyed pdb1
        ∧ MAX_GENERATED_KEY < keyGenerator pdb1
        ∧ addPlaylist name now pdb1 = None
  end.
Proof.
  revert pdb. induction ops as [|op rest IH]; intros pdb Hkeyed.
  - simpl. split; [done | lia].
  - assert (Hstep : ∀ pdb1, playlistsKeyed pdb1 →
                      keyGenerator pdb ≤ keyGenerator pdb1 →
                      applyOps [op] pdb = Some pdb1 →
                      applyOps (op :: rest) pdb = applyOps rest pdb1 →
              match applyOps (op :: rest) pdb with
              | Some pdb' => playlistsKeyed pdb' ∧ keyGenerator pdb ≤ keyGenerator pdb'
              | None =>
                  ∃ before name now after pdb2,
                    op :: rest = before ++ OpAdd name now :: after
                    ∧ applyOps before pdb = Some pdb2
                    ∧ playlistsKeyed pdb2
                    ∧ MAX_GENERATED_KEY < keyGenerator pdb2
                    ∧ addPlaylist name now pdb2 = None
              end).
    { intros pdb1 Hk1 Hgen1 Hone Hrun. rewrite Hrun.
      specialize (IH pdb1 Hk1).
      destruct (applyOps rest pdb1) as [pdb'|] eqn:Hrest.
      - destruct IH as [Hk' Hgen']. split; [done | lia].
      - destruct IH as (before & name & now & after & pdb2 & -> & Hb & Hk2 & Hpast & Hrej).
        exists (op :: before), name, now, after, pdb2.
        split; [done |]. split; [| done].
        change (op :: before) with ([op] ++ before).
        destruct op as [name' now' | playlist | i]; simpl in Hone |- *.
        + destruct (addPlaylist name' now' pdb) as [[? ?]|]; [| done].
          by injection Hone as ->.
        + by injection Hone as ->.
        + by injection Hone as ->. }
    destruct op as [name now | playlist | i].
    + destruct (Z.ltb_spec MAX_GENERATED_KEY (keyGenerator pdb)) as [Hpast | Hin].
      * pose proof (proj2 (addPlaylist_rejects name now pdb Hkeyed) Hpast) as Hrej.
        simpl. rewrite Hrej.
        exists [], name, now, rest, pdb.
        split; [done |]. split; [done |]. split; [done |]. split; [exact Hpast | exact Hrej].
      * destruct (addPlaylist_keyed name now pdb Hkeyed Hin) as (Hrun & _ & Hkeyed').
        eapply Hstep; [exact Hkeyed' | simpl; lia | by simpl; rewrite Hrun
                      | by simpl; rewrite Hrun].
    + eapply Hstep; [by apply updatePlaylist_keyed | apply updatePlaylist_generator
                    | done | done].
    + eapply Hstep; [by apply deletePlaylist_keyed | simpl; lia | done | done].
Qed.

Lemma playlist_calls_reject_only_past_last_key_witness :
  playlistsKeyed MoreExamples.twoPlaylists
  ∧ (∃ pdb', applyOps [OpAdd "Night" 40; OpDelete 1;
                       OpUpdate (mkPlaylist 7 "Late" [] 30); OpAdd "Dawn" 50]
                      MoreExamples.twoPlaylists = Some pdb'
             ∧ playlistsKeyed pdb' ∧ keyGenerator pdb' = 9)
  ∧ applyOps [OpUpdate (mkPlaylist (2 ^ 53) "Last" [] 30); OpAdd "Dawn" 50]
             MoreExamples.twoPlaylists = None.
Proof.
  split; [exact twoPlaylists_keyed |]. split.
  - pose proof (playlist_calls_reject_only_past_last_key
                  [OpAdd "Night" 40; OpDelete 1;
                   OpUpdate (mkPlaylist 7 "Late" [] 30); OpAdd "Dawn" 50]
                  MoreExamples.twoPlaylists twoPlaylists_keyed) as Hcalls.
    destruct (applyOps _ MoreExamples.twoPlaylists) as [pdb'|] eqn:Hrun.
    + exists pdb'. split; [reflexivity |]. split; [exact (proj1 Hcalls) |].
      vm_compute in Hrun. injection Hrun as <-. reflexivity.
    + vm_compute in Hrun. discriminate Hrun.
  - vm_compute. reflexivity.
Defined.

(** X7. The identity of a deleted playlist is not given out again: the playlist
    created after the deletion, if the store still accepts one, gets a larger
    identity, and nothing is stored under the deleted one. *)
Theorem deleted_playlist_id_not_reused (i : Z) (p : Playlist) (name : string)
    (now : Z) (pdb : PlaylistStore) :
  playlistsKeyed pdb → playlistRecords pdb !! i = Some p →
  match addPlaylist name now (deletePlaylist i pdb) with
  | Some (newId, pdb') =>
      i < newId
      ∧ playlistRecords pdb' !! i = None
      ∧ Forall (λ q, playlist_id q ≠ i) (getPlaylists pdb')
  | None => MAX_GENERATED_KEY < keyGenerator pdb
  end.
Proof.
  intros Hkeyed Hp. destruct (Hkeyed _ _ Hp) as [_ Hlt].
  pose proof (deletePlaylist_keyed i pdb Hkeyed) as Hkeyed1.
  destruct (Z.ltb_spec MAX_GENERATED_KEY (keyGenerator pdb)) as [Hpast | Hin].
  { by rewrite (proj2 (addPlaylist_rejects name now _ Hkeyed1) Hpast). }
  destruct (addPlaylist_keyed name now _ Hkeyed1 Hin) as (Hrun & _ & Hkeyed2).
  rewrite Hrun. simpl. split; [lia |].
  assert (Hgone : <[keyGenerator pdb := mkPlaylist (keyGenerator pdb) name [] now]>
                    (delete i (playlistRecords pdb)) !! i = None).
  { rewrite lookup_insert_ne by lia. apply lookup_delete_eq. }
  split; [done |].
  apply Forall_forall. intros q Hq. unfold getPlaylists in Hq.
  rewrite merge_sort_Permutation in Hq.
  apply list_elem_of_fmap in Hq as [[k q'] [-> Hq]]. simpl.
  apply elem_of_map_to_list in Hq. simpl in Hq.
  destruct (Hkeyed2 _ _ Hq) as [Hid _]. simpl in Hid. rewrite Hid.
  intros ->. congruence.
Qed.

Lemma deleted_playlist_id_not_reused_witness :
  playlistsKeyed MoreExamples.twoPlaylists
  ∧ playlistRecords MoreExamples.twoPlaylists !! 2
    = Some (mkPlaylist 2 "Evening" [] 20)
  ∧ ∃ pdb',
      addPlaylist "Night" 40 (deletePlaylist 2 MoreExamples.twoPlaylists)
      = Some (3, pdb')
      ∧ playlistRecords pdb' !! 2 = None
      ∧ Forall (λ q, playlist_id q ≠ 2) (getPlaylists pdb').
Proof.
  split; [exact twoPlaylists_keyed |]. split; [reflexivity |].
  pose proof (deleted_playlist_id_not_reused 2 _ "Night" 40
                MoreExamples.twoPlaylists twoPlaylists_keyed eq_refl) as Hnot.
  destruct (addPlaylist "Night" 40 (deletePlaylist 2 MoreExamples.twoPlaylists))
    as [[newId pdb']|] eqn:Hrun.
  - assert (HnewId : newId = 3) by (vm_compute in Hrun; congruence).
    subst newId. exists pdb'. split; [reflexivity |]. exact (proj2 Hnot).
  - vm_compute in Hrun. discriminate Hrun.
Defined.

(** X8. A playlist that is put is read back as it was put, under its own
    identity; the other playlists are untouched; and no playlist is added
    unless the identity was new. *)
Theorem updatePlaylist_read_back (playlist : Playlist) (pdb : PlaylistStore) :
  let pdb' := updatePlaylist playlist pdb in
  playlistRecords pdb' !! playlist_id playlist = Some playlist
  ∧ (∀ k, k ≠ playlist_id playlist →
          playlistRecords pdb' !! k = playlistRecords pdb !! k)
  ∧ (is_Some (playlistRecords pdb !! playlist_id playlist) →
       length (getPlaylists pdb') = length (getPlaylists pdb))
  ∧ updatePlaylist playlist pdb' = pdb'.
Proof.
  cbn zeta. unfold updatePlaylist. simpl.
  split; [apply lookup_insert_eq |].
  split; [by intros k Hk; rewrite lookup_insert_ne |].
  split.
  - intros [old Hold]. unfold getPlaylists. simpl.
    rewrite !length_fmap, !merge_sort_Permutation, !length_map_to_list.
    rewrite <- (insert_delete_id _ _ _ Hold) at 2.
    rewrite <- insert_delete_eq.
    by rewrite !map_size_insert_None by apply lookup_delete_eq.
  - rewrite insert_insert_eq. f_equal.
    set (value := Z.min _ _).
    destruct (Z.leb_spec (keyGenerator pdb) value) as [Hle | Hgt].
    + destruct (Z.leb_spec (value + 1) value); [lia | done].
    + destruct (Z.leb_spec (keyGenerator pdb) value); [lia | done].
Qed.

Lemma updatePlaylist_read_back_witness :
  is_Some (playlistRecords MoreExamples.twoPlaylists !! 1)
  ∧ length (getPlaylists (updatePlaylist (mkPlaylist 1 "Dawn" [] 10)
                            MoreExamples.twoPlaylists))
    = length (getPlaylists MoreExamples.twoPlaylists).
Proof.
  assert (Hsome : is_Some (playlistRecords MoreExamples.twoPlaylists !! 1)).
  { eexists. reflexivity. }
  split; [exact Hsome |].
  exact (proj1 (proj2 (proj2 (updatePlaylist_read_back
           (mkPlaylist 1 "Dawn" [] 10) MoreExamples.twoPlaylists))) Hsome).
Defined.

(** ** Playlists: the handlers *)

Lemma find_first_Some {A} (p : A → bool) (l : list A) (x : A) :
  find_first p l = Some x → x ∈ l ∧ p x = true.
Proof.
  induction l as [|y l IH]; [done |]. simpl.
  destruct (p y) eqn:Hy.
  - intros [= <-]. split; [apply list_elem_of_here | done].
  - intros H. destruct (IH H). split; [by apply list_elem_of_further | done].
Qed.

Lemma find_first_None {A} (p : A → bool) (l : list A) :
  find_first p l = None ↔ ∀ x, x ∈ l → p x = false.
Proof.
  induction l as [|y l IH]; simpl.
  - split; [intros _ x Hx; inversion Hx | done].
  - destruct (p y) eqn:Hy.
    + split; [done |]. intros H.
      specialize (H y (list_elem_of_here _ _)). congruence.
    + rewrite IH. split.
      * intros H x [-> | Hx]%elem_of_cons; auto.
      * intros H x Hx. apply H. by apply list_elem_of_further.
Qed.

(** Replacing every element that satisfies [p] by one that satisfies it
    too: the first match is the replacement. *)
Lemma find_first_replace {A} (p : A → bool) (l : list A) (x u : A) :
  find_first p l = Some x → p u = true →
  find_first p ((λ y, if p y then u else y) <$> l) = Some u.
Proof.
  intros Hx Hu. induction l as [|y l IH]; [done |]. simpl in *.
  destruct (p y) eqn:Hy.
  - by rewrite Hu.
  - rewrite Hy. by apply IH.
Qed.

(** X9. Adding a song to a playlist a second time changes nothing: neither the
    playlists of the component nor the store. *)
Theorem handleAddSongToPlaylist_idempotent (playlistId : Z) (songId : string)
    (st : AppState) (pdb : PlaylistStore) :
  let once := handleAddSongToPlaylist playlistId songId st pdb in
  handleAddSongToPlaylist playlistId songId once.1 once.2 = once.
Proof.
  cbn zeta.
  destruct (handleAddSongToPlaylist playlistId songId st pdb)
    as [st1 pdb1] eqn:Honce.
  simpl. unfold handleAddSongToPlaylist in Honce.
  destruct (find_first (hasPlaylistId playlistId) (playlists st))
    as [playlist|] eqn:Hfind.
  - case_bool_decide as Hin.
    + injection Honce as <- <-. unfold handleAddSongToPlaylist.
      rewrite Hfind. by rewrite bool_decide_eq_true_2.
    + injection Honce as <- <-. unfold handleAddSongToPlaylist. simpl.
      destruct (find_first_Some _ _ _ Hfind) as [_ Hid].
      rewrite (find_first_replace _ _ playlist (withSong songId playlist) Hfind)
        by done.
      rewrite bool_decide_eq_true_2; [done |]. simpl. set_solver.
  - injection Honce as <- <-. unfold handleAddSongToPlaylist. by rewrite Hfind.
Qed.

(** X10. When a playlist of that identity exists, after the call the playlist
    found under the identity holds the song: as its last entry if it was
    new, and with the list unchanged if it was there already.  No playlist
    lists a song twice if none did before; playlists of other identities and
    the number of playlists are unchanged; and when the song was added, the
    store holds the same updated playlist. *)
Theorem handleAddSongToPlaylist_adds_once (playlistId : Z) (songId : string)
    (st : AppState) (pdb : PlaylistStore) (playlist : Playlist) :
  Forall (λ p, NoDup (songIds p)) (playlists st) →
  find_first (hasPlaylistId playlistId) (playlists st) = Some playlist →
  let st' := (handleAddSongToPlaylist playlistId songId st pdb).1 in
  let pdb' := (handleAddSongToPlaylist playlistId songId st pdb).2 in
  let expected := if bool_decide (songId ∈ songIds playlist)
                  then playlist else withSong songId playlist in
  find_first (hasPlaylistId playlistId) (playlists st') = Some expected
  ∧ songId ∈ songIds expected
  ∧ Forall (λ p, NoDup (songIds p)) (playlists st')
  ∧ length (playlists st') = length (playlists st)
  ∧ filter (λ p, playlist_id p ≠ playlistId) (playlists st')
    = filter (λ p, playlist_id p ≠ playlistId) (playlists st)
  ∧ (songId ∉ songIds playlist →
       playlistRecords pdb' !! playlistId = Some expected)
  ∧ (songId ∈ songIds playlist → st' = st ∧ pdb' = pdb).
Proof.
  intros Hnodup Hfind. cbn zeta. unfold handleAddSongToPlaylist. rewrite Hfind.
  destruct (find_first_Some _ _ _ Hfind) as [Hmember Hid].
  assert (Hidp : playlist_id playlist = playlistId)
    by (by apply bool_decide_eq_true in Hid).
  case_bool_decide as Hin; simpl.
  - repeat split; try done.
  - split.
    { by apply (find_first_replace _ _ playlist). }
    split; [simpl; set_solver |].
    split.
    { apply Forall_fmap. eapply Forall_impl; [exact Hnodup |].
      intros p Hp. simpl. destruct (hasPlaylistId playlistId p); [| done].
      simpl. apply NoDup_app. split.
      - rewrite Forall_forall in Hnodup. by apply Hnodup.
      - split; [| apply NoDup_singleton].
        intros x Hx [-> | Hx']%elem_of_cons; [done | inversion Hx']. }
    split; [by rewrite length_fmap |].
    split.
    { clear Hfind Hnodup Hmember. induction (playlists st) as [|p l IH]; [done |].
      rewrite fmap_cons. unfold hasPlaylistId at 1.
      case_bool_decide as Hp.
      - rewrite filter_cons_False by (simpl; intros H; by apply H).
        rewrite filter_cons_False by (intros H; by apply H). apply IH.
      - rewrite !filter_cons_True by done. by rewrite IH. }
    split; [| done].
    intros _. rewrite <- Hidp. apply lookup_insert_eq.
Qed.

Lemma handleAddSongToPlaylist_adds_once_witness :
  Forall (λ p, NoDup (songIds p)) (playlists MoreExamples.idleLibrary)
  ∧ find_first (hasPlaylistId 2) (playlists MoreExamples.idleLibrary)
    = Some (mkPlaylist 2 "Evening" [] 20)
  ∧ find_first (hasPlaylistId 2)
      (playlists (handleAddSongToPlaylist 2 "b.mp3-2" MoreExamples.idleLibrary
                    MoreExamples.twoPlaylists).1)
    = Some (mkPlaylist 2 "Evening" ["b.mp3-2"] 20).
Proof.
  assert (Hnodup : Forall (λ p, NoDup (songIds p))
                     (playlists MoreExamples.idleLibrary)).
  { apply (bool_decide_unpack _). vm_compute. exact I. }
  split; [exact Hnodup |]. split; [reflexivity |].
  exact (proj1 (handleAddSongToPlaylist_adds_once 2 "b.mp3-2"
           MoreExamples.idleLibrary MoreExamples.twoPlaylists
           (mkPlaylist 2 "Evening" [] 20) Hnodup eq_refl)).
Defined.

(** X11. Creating a playlist: a cancelled prompt or an empty name changes
    nothing.  With a name, on a store that the component's playlists come
    from and whose key generator has not passed its last key, the call
    succeeds, appends a playlist without songs whose identity no playlist of
    the component has, and stores it under that identity.  Once the
    generator has passed its last key the call is rejected and nothing is
    appended. *)
Theorem handleCreatePlaylist_appends (name : string) (nowStore nowState : Z)
    (st : AppState) (pdb : PlaylistStore) :
  playlistsKeyed pdb →
  Forall (λ p, is_Some (playlistRecords pdb !! playlist_id p)) (playlists st) →
  handleCreatePlaylist None nowStore nowState st pdb = Some (st, pdb)
  ∧ handleCreatePlaylist (Some "") nowStore nowState st pdb = Some (st, pdb)
  ∧ (name ≠ "" → keyGenerator pdb ≤ MAX_GENERATED_KEY →
     ∃ newId st' pdb',
       handleCreatePlaylist (Some name) nowStore nowState st pdb = Some (st', pdb')
       ∧ playlists st' = playlists st ++ [mkPlaylist newId name [] nowState]
       ∧ (newId ∉ playlist_id <$> playlists st)
       ∧ playlistRecords pdb' !! newId = Some (mkPlaylist newId name [] nowStore)
       ∧ playlistsKeyed pdb'
       ∧ Forall (λ p, is_Some (playlistRecords pdb' !! playlist_id p))
                (playlists st'))
  ∧ (name ≠ "" → MAX_GENERATED_KEY < keyGenerator pdb →
     handleCreatePlaylist (Some name) nowStore nowState st pdb = None).
Proof.
  intros Hkeyed Hstored. split; [done |]. split; [done |]. split.
  - intros Hname Hgen. unfold handleCreatePlaylist.
    rewrite (bool_decide_eq_true_2 _ Hname).
    destruct (addPlaylist_keyed name nowStore pdb Hkeyed Hgen)
      as (-> & Hfree & Hkeyed').
    eexists _, _, _. split; [done |]. simpl. split; [done |].
    assert (Hnew : keyGenerator pdb ∉ playlist_id <$> playlists st).
    { intros [p [Hp Hin]]%list_elem_of_fmap.
      rewrite Forall_forall in Hstored. specialize (Hstored p Hin).
      rewrite <- Hp, Hfree in Hstored. by destruct Hstored. }
    split; [done |]. split; [apply lookup_insert_eq |]. split; [done |].
    apply Forall_app. split.
    + eapply Forall_impl; [exact Hstored |]. intros p [q Hq]. simpl.
      rewrite lookup_insert. case_decide; eauto.
    + apply Forall_singleton. simpl. rewrite lookup_insert_eq. eauto.
  - intros Hname Hpast. unfold handleCreatePlaylist.
    rewrite (bool_decide_eq_true_2 _ Hname).
    by rewrite (proj2 (addPlaylist_rejects name nowStore pdb Hkeyed) Hpast).
Qed.

Lemma handleCreatePlaylist_appends_witness :
  playlistsKeyed MoreExamples.twoPlaylists
  ∧ Forall (λ p, is_Some (playlistRecords MoreExamples.twoPlaylists
                            !! playlist_id p))
           (playlists MoreExamples.idleLibrary)
  ∧ ∃ st' pdb',
      handleCreatePlaylist (Some "Night") 40 41
        MoreExamples.idleLibrary MoreExamples.twoPlaylists
      = Some (st', pdb')
      ∧ playlists st'
        = playlists MoreExamples.idleLibrary ++ [mkPlaylist 3 "Night" [] 41]
      ∧ (3 ∉ playlist_id <$> playlists MoreExamples.idleLibrary)
      ∧ playlistRecords pdb' !! 3 = Some (mkPlaylist 3 "Night" [] 40).
Proof.
  assert (Hstored : Forall
            (λ p, is_Some (playlistRecords MoreExamples.twoPlaylists
                             !! playlist_id p))
            (playlists MoreExamples.idleLibrary)).
  { simpl. repeat constructor; eexists; reflexivity. }
  assert (Hname : "Night" ≠ "") by discriminate.
  assert (Hgen : keyGenerator MoreExamples.twoPlaylists ≤ MAX_GENERATED_KEY)
    by (vm_compute; discriminate).
  split; [exact twoPlaylists_keyed |]. split; [exact Hstored |].
  destruct (proj1 (proj2 (proj2 (handleCreatePlaylist_appends "Night" 40 41 _ _
              twoPlaylists_keyed Hstored))) Hname Hgen)
    as (newId & st' & pdb' & Hrun & Hlist & Hfresh & Hrecord & _).
  assert (HnewId : newId = 3).
  { pose proof Hrun as Hst. vm_compute in Hst. injection Hst as <- _.
    vm_compute in Hlist. congruence. }
  subst newId. exists st', pdb'.
  split; [exact Hrun |]. split; [exact Hlist |]. split; [exact Hfresh | exact Hrecord].
Defined.

(** ** Playback controller: starting, pausing and stepping *)

Lemma findIndex_from_range {A} (p : A → bool) (arr : list A) (base : Z) :
  findIndex_from p arr base = -1
  ∨ base ≤ findIndex_from p arr base < base + Z.of_nat (length arr).
Proof.
  revert base. induction arr as [|x rest IH]; intros base; [by left |].
  simpl. destruct (p x).
  - right. lia.
  - destruct (IH (base + 1)) as [-> | H]; [by left | right; lia].
Qed.

Lemma findIndex_range {A} (p : A → bool) (arr : list A) :
  -1 ≤ findIndex p arr < Z.of_nat (length arr).
Proof.
  unfold findIndex. destruct (findIndex_from_range p arr 0) as [-> | H]; lia.
Qed.

Lemma setCurrentSongIndex_same (st : AppState) :
  setCurrentSongIndex (currentSongIndex st) st = st.
Proof. by destruct st. Qed.

(** [playSong] on a list that holds the song. *)
Lemma playSong_found (song : Song) (songList : list Song) (st : AppState)
    (g : Rng) :
  (∃ x, x ∈ songList ∧ id x = id song) →
  let built := getShuffledQueue (shuffleMode st) songList g in
  playSong song songList st g
  = (setIsPlaying true
       (setCurrentSongIndex (findIndex (hasId (id song)) built.1)
          (setPlayQueue built.1 st)),
     built.2).
Proof.
  intros Hin. cbn zeta. unfold playSong.
  destruct (findIndex_found (hasId (id song)) songList) as (c & Hge & _).
  { destruct Hin as (x & Hx & Hid). exists x. split; [done |]. by apply hasId_true. }
  rewrite (proj2 (Z.ltb_lt _ _)) by lia.
  case_bool_decide as Hmode.
  - by destruct (getShuffledQueue (shuffleMode st) songList g).
  - assert (shuffleMode st = ShuffleNone) as -> by (by destruct (shuffleMode st)).
    done.
Qed.

(** X12. Starting a song.  When no song of the list has its identity, nothing
    changes and nothing is drawn.  Otherwise the component is playing, the
    queue holds exactly the songs of the list, the current song has the
    identity asked for, and with shuffle off the queue is the list itself;
    library, playlists and modes are untouched. *)
Theorem playSong_starts_song (song : Song) (songList : list Song)
    (st : AppState) (g : Rng) :
  let st' := (playSong song songList st g).1 in
  ((∀ x, x ∈ songList → id x ≠ id song) → playSong song songList st g = (st, g))
  ∧ ((∃ x, x ∈ songList ∧ id x = id song) →
       isPlaying st' = true
       ∧ playQueue st' ≡ₚ songList
       ∧ (∃ c, currentSong st' = Some c ∧ id c = id song)
       ∧ (shuffleMode st = ShuffleNone →
            playQueue st' = songList ∧ (playSong song songList st g).2 = g)
       ∧ songs st' = songs st ∧ playlists st' = playlists st
       ∧ shuffleMode st' = shuffleMode st ∧ repeatMode st' = repeatMode st).
Proof.
  cbn zeta. split.
  - intros Habsent. unfold playSong.
    rewrite findIndex_absent; [done |].
    intros x Hx. apply hasId_false. by apply Habsent.
  - intros Hin. rewrite (playSong_found song songList st g Hin).
    pose proof (getShuffledQueue_Permutation (shuffleMode st) songList g) as Hperm.
    destruct (getShuffledQueue (shuffleMode st) songList g) as [queue g1] eqn:Hbuilt.
    simpl in *. split; [done |]. split; [done |]. split.
    { unfold currentSong; simpl. apply findIndex_current.
      destruct Hin as (x & Hx & Hid). exists x. split; [by rewrite Hperm | done]. }
    split; [| done].
    intros Hnone. rewrite Hnone in Hbuilt. simpl in Hbuilt.
    by injection Hbuilt as <- <-.
Qed.

Lemma playSong_starts_song_witness :
  (∃ x, x ∈ [Examples.songA; Examples.songB; Examples.songC]
        ∧ id x = id Examples.songB)
  ∧ ∃ c, currentSong (playSong Examples.songB
                        [Examples.songA; Examples.songB; Examples.songC]
                        MoreExamples.idleLibrary Examples.alternating).1
         = Some c
         ∧ id c = id Examples.songB.
Proof.
  assert (Hin : ∃ x, x ∈ [Examples.songA; Examples.songB; Examples.songC]
                     ∧ id x = id Examples.songB).
  { exists Examples.songB. split; [| reflexivity].
    apply (bool_decide_unpack _). vm_compute. exact I. }
  split; [exact Hin |].
  exact (proj1 (proj2 (proj2 (proj2 (playSong_starts_song Examples.songB
           [Examples.songA; Examples.songB; Examples.songC]
           MoreExamples.idleLibrary Examples.alternating) Hin)))).
Defined.

Lemma sameControls_refl (st : AppState) : sameControls st st.
Proof. by repeat split. Qed.

Lemma sameControls_trans (a b c : AppState) :
  sameControls a b → sameControls b c → sameControls a c.
Proof.
  intros (H1 & H2 & H3 & H4 & H5) (K1 & K2 & K3 & K4 & K5).
  repeat split; congruence.
Qed.

Lemma sameControls_sym (a b : AppState) : sameControls a b → sameControls b a.
Proof. intros (H1 & H2 & H3 & H4 & H5). by repeat split. Qed.

Lemma afterEffects_sameControls (position : Q) (st : AppState) :
  sameControls st (MoreExamples.afterEffects position st).
Proof. by repeat split. Qed.

(** X13. With a queue, the play/pause button flips the playing flag and nothing
    else, and draws nothing; a second press, whatever the effects and the
    element did in between, gives back the playing flag and leaves the
    queue, the pointer and the modes as they were. *)
Theorem handlePlayPause_toggles (st : AppState) (g : Rng) :
  playQueue st ≠ [] →
  handlePlayPause st g = (setIsPlaying (negb (isPlaying st)) st, g)
  ∧ ∀ st2 g2, sameControls (handlePlayPause st g).1 st2 →
      sameControls st (handlePlayPause st2 g2).1
      ∧ (handlePlayPause st2 g2).2 = g2.
Proof.
  intros Hqueue.
  assert (Hone : ∀ st g, playQueue st ≠ [] →
            handlePlayPause st g = (setIsPlaying (negb (isPlaying st)) st, g)).
  { intros st0 g0 Hq. unfold handlePlayPause.
    rewrite bool_decide_eq_true_2; [done |].
    destruct (playQueue st0); [done | simpl; lia]. }
  split; [by apply Hone |].
  intros st2 g2. rewrite (Hone st g Hqueue). simpl.
  intros (H1 & H2 & H3 & H4 & H5). simpl in *.
  rewrite (Hone st2 g2) by (by rewrite H1). simpl.
  split; [| done].
  repeat split; simpl; try done.
  rewrite H3. apply negb_involutive.
Qed.

Lemma handlePlayPause_toggles_witness :
  playQueue (Examples.playing [Examples.songA] 0 RepeatNone 0%Q) ≠ []
  ∧ isPlaying (handlePlayPause
                 (Examples.playing [Examples.songA] 0 RepeatNone 0%Q)
                 Examples.alternating).1 = false
  ∧ isPlaying (handlePlayPause
                 (MoreExamples.afterEffects 0%Q
                    (handlePlayPause
                       (Examples.playing [Examples.songA] 0 RepeatNone 0%Q)
                       Examples.alternating).1)
                 Examples.alternating).1 = true.
Proof.
  assert (Hqueue : playQueue (Examples.playing [Examples.songA] 0 RepeatNone 0%Q) ≠ [])
    by discriminate.
  split; [exact Hqueue |].
  destruct (handlePlayPause_toggles _ Examples.alternating Hqueue) as [Hone Htwo].
  split; [rewrite Hone; reflexivity |].
  destruct (Htwo _ Examples.alternating (afterEffects_sameControls 0%Q _))
    as [(_ & _ & Hflag & _) _].
  exact Hflag.
Defined.

(** X14. Without a queue, the play/pause button starts the first song of the
    library, with the whole library as the queue; with an empty library it
    does nothing. *)
Theorem handlePlayPause_starts_library (st : AppState) (g : Rng) :
  playQueue st = [] →
  let st' := (handlePlayPause st g).1 in
  (songs st = [] → handlePlayPause st g = (st, g))
  ∧ (∀ first rest, songs st = first :: rest →
       isPlaying st' = true
       ∧ playQueue st' ≡ₚ songs st
       ∧ ∃ c, currentSong st' = Some c ∧ id c = id first).
Proof.
  intros Hqueue. cbn zeta. unfold handlePlayPause. rewrite Hqueue.
  rewrite bool_decide_eq_false_2 by (simpl; lia). split.
  - by intros ->.
  - intros first rest Hsongs. rewrite Hsongs.
    assert (Hin : ∃ x, x ∈ first :: rest ∧ id x = id first).
    { exists first. split; [apply list_elem_of_here | done]. }
    rewrite (playSong_found first (first :: rest) st g Hin).
    pose proof (getShuffledQueue_Permutation (shuffleMode st) (first :: rest) g) as Hperm.
    destruct (getShuffledQueue (shuffleMode st) (first :: rest) g) as [queue g1].
    simpl in *. split; [done |]. split; [done |].
    unfold currentSong; simpl. apply findIndex_current.
    exists first. split; [| done]. rewrite Hperm. apply list_elem_of_here.
Qed.

Lemma handlePlayPause_starts_library_witness :
  playQueue MoreExamples.idleLibrary = []
  ∧ ∃ c, currentSong (handlePlayPause MoreExamples.idleLibrary
                        Examples.alternating).1 = Some c
         ∧ id c = id Examples.songA.
Proof.
  split; [reflexivity |].
  exact (proj2 (proj2 (proj2 (handlePlayPause_starts_library
           MoreExamples.idleLibrary Examples.alternating eq_refl)
           Examples.songA [Examples.songB; Examples.songC] eq_refl))).
Defined.

Lemma findCurrent_from_range (current : option Song) (arr : list (option Song))
    (base i : Z) :
  findCurrent_from current arr base = Ok i →
  i = -1 ∨ base ≤ i < base + Z.of_nat (length arr).
Proof.
  revert base. induction arr as [|s rest IH]; intros base; simpl.
  - intros [= <-]. by left.
  - destruct s as [s|]; [| done]. destruct current as [c|]; [| done].
    destruct (hasId (id c) s).
    + intros [= <-]. right. lia.
    + intros H. destruct (IH _ H) as [-> | Hr]; [by left | right; lia].
Qed.

Lemma typedList_length (arr : list (option Song)) (typed : list Song) :
  typedList arr = Some typed → length typed = length arr.
Proof.
  unfold typedList. intros H. apply length_mapM in H. done.
Qed.

(** X15. No transition moves the pointer out of the queue: after Next, Prev,
    Seek, the repeat toggle, play/pause, the start of a song, or a shuffle
    toggle that returns, the pointer is -1 or an index of the queue. *)
Theorem transitions_keep_cursor_in_queue (st : AppState) :
  cursorInQueue st →
  cursorInQueue (playNextSong st)
  ∧ cursorInQueue (playPrevSong st)
  ∧ (∀ time, cursorInQueue (handleSeek time st))
  ∧ cursorInQueue (toggleRepeat st)
  ∧ (∀ g, cursorInQueue (handlePlayPause st g).1)
  ∧ (∀ song songList g, cursorInQueue (playSong song songList st g).1)
  ∧ (∀ g st' g', toggleShuffle st g = Ok (st', g') → cursorInQueue st').
Proof.
  unfold cursorInQueue. intros Hcur.
  assert (HplaySong : ∀ song songList g,
    -1 ≤ currentSongIndex (playSong song songList st g).1
       < Z.of_nat (length (playQueue (playSong song songList st g).1))).
  { intros song songList g. unfold playSong.
    destruct (Z.ltb_spec (-1) (findIndex (hasId (id song)) songList)) as [Hfound | _];
      [| done].
    case_bool_decide as Hmode.
    - destruct (getShuffledQueue (shuffleMode st) songList g) as [queue g1].
      simpl. apply findIndex_range.
    - simpl. apply findIndex_range. }
  split.
  { unfold playNextSong. case_bool_decide as Hempty; [done |].
    case_bool_decide as Hone; [done |].
    destruct (Z.leb_spec (Z.of_nat (length (playQueue st))) (currentSongIndex st + 1));
      [| simpl; lia].
    case_bool_decide; simpl; [| done].
    destruct (playQueue st); [done | simpl; lia]. }
  split.
  { unfold playPrevSong. case_bool_decide as Hempty; [done |].
    destruct (pastScrubBack (audioRef st)); [done |].
    destruct (Z.ltb_spec (currentSongIndex st - 1) 0); [| simpl; lia].
    case_bool_decide; simpl; [| done].
    destruct (playQueue st); [done | simpl; lia]. }
  split.
  { intros time. unfold handleSeek. by destruct (audioRef st). }
  split; [done |].
  split.
  { intros g. unfold handlePlayPause. case_bool_decide; [done |].
    destruct (songs st) as [|first rest]; [done |]. apply HplaySong. }
  split; [exact HplaySong |].
  intros g st' g'. unfold toggleShuffle.
  destruct (bool_decide (nextShuffleMode (shuffleMode st) ≠ ShuffleNone)
            && bool_decide (0 < length (playQueue st))%nat) eqn:Hfirst.
  - destruct (getShuffledQueue (shuffleMode st) (playQueue st) g) as [queue g1].
    destruct (findCurrent _ _) as [newIndex | |] eqn:Hfind; [| done | done].
    intros [= <- <-]. simpl.
    apply findCurrent_from_range in Hfind. rewrite length_fmap in Hfind. lia.
  - destruct (bool_decide (nextShuffleMode (shuffleMode st) = ShuffleNone)
              && bool_decide (0 < length (playQueue st))%nat) eqn:Hsecond.
    + destruct (findCurrent _ _) as [newIndex | |] eqn:Hfind; [| done | done].
      destruct (typedList (originalList st)) as [typed|] eqn:Htyped; [| done].
      intros [= <- <-]. simpl.
      apply findCurrent_from_range in Hfind.
      rewrite (typedList_length _ _ Htyped). lia.
    + by intros [= <- <-].
Qed.

Lemma transitions_keep_cursor_in_queue_witness :
  cursorInQueue (Examples.playing
                   [Examples.songA; Examples.songB; Examples.songC] 2 RepeatAll 0%Q)
  ∧ cursorInQueue (playNextSong (Examples.playing
                     [Examples.songA; Examples.songB; Examples.songC] 2 RepeatAll 0%Q)).
Proof.
  assert (Hcur : cursorInQueue (Examples.playing
            [Examples.songA; Examples.songB; Examples.songC] 2 RepeatAll 0%Q)).
  { unfold cursorInQueue. simpl. lia. }
  split; [exact Hcur |].
  exact (proj1 (transitions_keep_cursor_in_queue _ Hcur)).
Defined.

(** One Next with repeat-all, from a pointer inside the queue. *)
Lemma playNextSong_repeat_all_step (st : AppState) :
  repeatMode st = RepeatAll →
  0 ≤ currentSongIndex st < Z.of_nat (length (playQueue st)) →
  playNextSong st
  = setCurrentSongIndex
      ((currentSongIndex st + 1) mod Z.of_nat (length (playQueue st))) st.
Proof.
  intros Hmode Hrange. unfold playNextSong. rewrite Hmode.
  rewrite bool_decide_eq_false_2
    by (intros Hlen; rewrite Hlen in Hrange; simpl in Hrange; lia).
  simpl.
  destruct (Z.leb_spec (Z.of_nat (length (playQueue st))) (currentSongIndex st + 1)).
  - replace (currentSongIndex st + 1) with (Z.of_nat (length (playQueue st))) by lia.
    by rewrite Z_mod_same_full.
  - by rewrite Z.mod_small by lia.
Qed.

(** The controls after Next depend on the controls alone. *)
Lemma playNextSong_sameControls (a b : AppState) :
  sameControls a b → sameControls (playNextSong a) (playNextSong b).
Proof.
  intros (H1 & H2 & H3 & H4 & H5). unfold playNextSong.
  rewrite H1, H2, H5.
  repeat case_bool_decide; try done;
    destruct (_ <=? _); by repeat split.
Qed.

Lemma pressed_playNextSong (k : nat) (st st' : AppState) :
  pressed playNextSong k st st' → sameControls (Nat.iter k playNextSong st) st'.
Proof.
  induction 1 as [st | k st st1 st2 Hk IH Hact].
  - apply sameControls_refl.
  - rewrite Nat.iter_succ.
    eapply sameControls_trans; [| exact Hact].
    by apply playNextSong_sameControls.
Qed.

Lemma pressed_afterEffects (press : AppState → AppState) (position : Q)
    (k : nat) (st : AppState) :
  pressed press k st
    (Nat.iter k (λ s, MoreExamples.afterEffects position (press s)) st).
Proof.
  induction k as [|k IH]; [constructor |].
  rewrite Nat.iter_succ. econstructor; [exact IH |].
  apply afterEffects_sameControls.
Qed.

(** X16. With repeat-all, [k] presses of Next, whatever the effects and the
    element do after each of them, move the pointer [k] places round the
    queue and leave the queue, the playing flag and the modes as they were;
    as many presses as the queue is long come back to the same song. *)
Theorem playNextSong_repeat_all_cycles (st st' : AppState) (k : nat) :
  repeatMode st = RepeatAll →
  0 ≤ currentSongIndex st < Z.of_nat (length (playQueue st)) →
  pressed playNextSong k st st' →
  currentSongIndex st'
  = (currentSongIndex st + Z.of_nat k) mod Z.of_nat (length (playQueue st))
  ∧ playQueue st' = playQueue st
  ∧ isPlaying st' = isPlaying st
  ∧ shuffleMode st' = shuffleMode st
  ∧ repeatMode st' = repeatMode st
  ∧ (k = length (playQueue st) → currentSong st' = currentSong st).
Proof.
  intros Hmode Hrange Hpressed.
  assert (Hiter : ∀ n, Nat.iter n playNextSong st
    = setCurrentSongIndex
        ((currentSongIndex st + Z.of_nat n) mod Z.of_nat (length (playQueue st))) st).
  { induction n as [|n IH].
    - simpl. rewrite Z.add_0_r, Z.mod_small by lia.
      by rewrite setCurrentSongIndex_same.
    - rewrite Nat.iter_succ, IH.
      rewrite playNextSong_repeat_all_step; simpl; [| done |].
      + unfold setCurrentSongIndex. simpl. f_equal.
        rewrite Zplus_mod_idemp_l. f_equal. lia.
      + apply Z.mod_pos_bound. lia. }
  destruct (pressed_playNextSong k st st' Hpressed) as (H1 & H2 & H3 & H4 & H5).
  rewrite Hiter in H1, H2, H3, H4, H5. simpl in *.
  do 5 (split; [done |]).
  intros ->. unfold currentSong. rewrite H1, H2.
  rewrite <- (Z.mul_1_l (Z.of_nat (length (playQueue st)))) at 1.
  by rewrite Z_mod_plus_full, Z.mod_small by lia.
Qed.

Lemma playNextSong_repeat_all_cycles_witness :
  let st := Examples.playing
              [Examples.songA; Examples.songB; Examples.songC] 1 RepeatAll 0%Q in
  let st' := Nat.iter 4
               (λ s, MoreExamples.afterEffects (1 # 2)%Q (playNextSong s)) st in
  repeatMode st = RepeatAll
  ∧ 0 ≤ currentSongIndex st < Z.of_nat (length (playQueue st))
  ∧ pressed playNextSong 4 st st'
  ∧ currentSongIndex st' = 2
  ∧ audioRef st' ≠ audioRef st.
Proof.
  cbn zeta.
  assert (Hrange : 0 ≤ currentSongIndex (Examples.playing
            [Examples.songA; Examples.songB; Examples.songC] 1 RepeatAll 0%Q)
          < Z.of_nat (length (playQueue (Examples.playing
            [Examples.songA; Examples.songB; Examples.songC] 1 RepeatAll 0%Q))))
    by (simpl; lia).
  split; [reflexivity |]. split; [exact Hrange |].
  split; [apply pressed_afterEffects |].
  split; [| vm_compute; discriminate].
  exact (proj1 (playNextSong_repeat_all_cycles
                  (Examples.playing
                     [Examples.songA; Examples.songB; Examples.songC]
                     1 RepeatAll 0%Q) _ 4 eq_refl Hrange
                  (pressed_afterEffects playNextSong (1 # 2)%Q 4 _))).
Defined.

(** X17. With repeat-none, [k] presses of Next move the pointer [k] places
    forward while that stays inside the queue, and leave playing as it was;
    once they would pass the end, the pointer rests on the last index and
    playing is false, however many presses follow. *)
Theorem playNextSong_repeat_none_stops_at_end (st : AppState) (k : nat) :
  repeatMode st = RepeatNone →
  0 ≤ currentSongIndex st < Z.of_nat (length (playQueue st)) →
  let last := Z.of_nat (length (playQueue st)) - 1 in
  Nat.iter k playNextSong st
  = if decide (currentSongIndex st + Z.of_nat k ≤ last)
    then setCurrentSongIndex (currentSongIndex st + Z.of_nat k) st
    else setIsPlaying false (setCurrentSongIndex last st).
Proof.
  intros Hmode Hrange. cbn zeta.
  assert (Hne : length (playQueue st) ≠ 0%nat).
  { intros Hlen. rewrite Hlen in Hrange. simpl in Hrange. lia. }
  induction k as [|k IH].
  - simpl. rewrite decide_True by lia. rewrite Z.add_0_r.
    by rewrite setCurrentSongIndex_same.
  - rewrite Nat.iter_succ, IH. clear IH.
    destruct (decide (currentSongIndex st + Z.of_nat k
                      ≤ Z.of_nat (length (playQueue st)) - 1)) as [Hin | Hout].
    + unfold playNextSong at 1. simpl. rewrite Hmode.
      rewrite bool_decide_eq_false_2 by done. simpl.
      destruct (Z.leb_spec (Z.of_nat (length (playQueue st)))
                  (currentSongIndex st + Z.of_nat k + 1)).
      * rewrite decide_False by lia.
        replace (currentSongIndex st + Z.of_nat k)
          with (Z.of_nat (length (playQueue st)) - 1) by lia.
        by destruct st.
      * rewrite decide_True by lia.
        replace (currentSongIndex st + Z.of_nat (S k))
          with (currentSongIndex st + Z.of_nat k + 1) by lia.
        by destruct st.
    + rewrite decide_False by lia.
      unfold playNextSong at 1. simpl. rewrite Hmode.
      rewrite bool_decide_eq_false_2 by done. simpl.
      rewrite (proj2 (Z.leb_le _ _)) by lia. by destruct st.
Qed.

Lemma playNextSong_repeat_none_stops_at_end_witness :
  repeatMode (Examples.playing
                [Examples.songA; Examples.songB; Examples.songC] 1 RepeatNone 0%Q)
  = RepeatNone
  ∧ 0 ≤ 1 < 3
  ∧ currentSongIndex (Nat.iter 5 playNextSong (Examples.playing
      [Examples.songA; Examples.songB; Examples.songC] 1 RepeatNone 0%Q)) = 2
  ∧ isPlaying (Nat.iter 5 playNextSong (Examples.playing
      [Examples.songA; Examples.songB; Examples.songC] 1 RepeatNone 0%Q)) = false.
Proof.
  split; [reflexivity |]. split; [lia |].
  rewrite (playNextSong_repeat_none_stops_at_end
    (Examples.playing [Examples.songA; Examples.songB; Examples.songC]
                      1 RepeatNone 0%Q) 5 eq_refl ltac:(simpl; lia)).
  split; reflexivity.
Defined.

(** The two handlers alone, with nothing in between: each takes back the
    other. *)
Lemma playPrevSong_playNextSong_handlers (st : AppState) :
  repeatMode st ≠ RepeatOne →
  pastScrubBack (audioRef st) = false →
  0 ≤ currentSongIndex st < Z.of_nat (length (playQueue st)) →
  ((repeatMode st = RepeatNone →
      currentSongIndex st + 1 < Z.of_nat (length (playQueue st))) →
   playPrevSong (playNextSong st) = st)
  ∧ ((repeatMode st = RepeatNone → 0 < currentSongIndex st) →
     playNextSong (playPrevSong st) = st).
Proof.
  intros Hone Hscrub Hrange.
  assert (Hne : length (playQueue st) ≠ 0%nat).
  { intros Hlen. rewrite Hlen in Hrange. simpl in Hrange. lia. }
  split; intros Hedge.
  - unfold playNextSong.
    rewrite bool_decide_eq_false_2 by done.
    rewrite (bool_decide_eq_false_2 _ Hone).
    destruct (Z.leb_spec (Z.of_nat (length (playQueue st))) (currentSongIndex st + 1))
      as [Hend | Hin].
    + case_bool_decide as Hall.
      * unfold playPrevSong. simpl. rewrite Hscrub, Hall.
        rewrite bool_decide_eq_false_2 by done. simpl.
        unfold setCurrentSongIndex. simpl.
        replace (Z.of_nat (length (playQueue st)) - 1) with (currentSongIndex st) by lia.
        by destruct st.
      * assert (repeatMode st = RepeatNone) as Hnone
          by (destruct (repeatMode st); congruence).
        specialize (Hedge Hnone). lia.
    + unfold playPrevSong. simpl. rewrite Hscrub.
      rewrite bool_decide_eq_false_2 by done.
      rewrite (proj2 (Z.ltb_ge _ _)) by lia.
      unfold setCurrentSongIndex. simpl.
      replace (currentSongIndex st + 1 - 1) with (currentSongIndex st) by lia.
      by destruct st.
  - unfold playPrevSong.
    rewrite bool_decide_eq_false_2 by done. rewrite Hscrub.
    destruct (Z.ltb_spec (currentSongIndex st - 1) 0) as [Hstart | Hin].
    + case_bool_decide as Hall.
      * unfold playNextSong. simpl. rewrite Hall.
        rewrite bool_decide_eq_false_2 by done. simpl.
        rewrite (proj2 (Z.leb_le _ _)) by lia.
        unfold setCurrentSongIndex. simpl.
        replace 0 with (currentSongIndex st) at 1 by lia.
        by destruct st.
      * assert (repeatMode st = RepeatNone) as Hnone
          by (destruct (repeatMode st); congruence).
        specialize (Hedge Hnone). lia.
    + unfold playNextSong. simpl.
      rewrite bool_decide_eq_false_2 by done.
      rewrite (bool_decide_eq_false_2 _ Hone).
      rewrite (proj2 (Z.leb_gt _ _)) by lia.
      unfold setCurrentSongIndex. simpl.
      replace (currentSongIndex st - 1 + 1) with (currentSongIndex st) by lia.
      by destruct st.
Qed.

(** The controls after Prev depend on the controls and on whether the
    element is past the 3 second mark. *)
Lemma playPrevSong_sameControls (a b : AppState) :
  sameControls a b → pastScrubBack (audioRef a) = pastScrubBack (audioRef b) →
  sameControls (playPrevSong a) (playPrevSong b).
Proof.
  intros (H1 & H2 & H3 & H4 & H5) Hscrub. unfold playPrevSong.
  rewrite H1, H2, H5, Hscrub.
  repeat case_bool_decide; try done;
    destruct (pastScrubBack (audioRef b)); try (by repeat split);
    destruct (_ <? _); by repeat split.
Qed.

Lemma playNextSong_audioRef (st : AppState) :
  repeatMode st ≠ RepeatOne → audioRef (playNextSong st) = audioRef st.
Proof.
  intros Hone. unfold playNextSong.
  rewrite (bool_decide_eq_false_2 _ Hone).
  repeat case_bool_decide; try done; by destruct (_ <=? _).
Qed.

(** X18. Prev takes back Next, and Next takes back Prev, whatever the effects
    and the element do in between, provided that the element is not past
    the 3 second mark when Prev is pressed and that repeat-one is off: with
    repeat-all always, with repeat-none unless the step would leave the
    queue.  The pointer, the queue, the playing flag and the modes are back
    as they were. *)
Theorem playPrevSong_undoes_playNextSong (st st2 : AppState) :
  repeatMode st ≠ RepeatOne →
  0 ≤ currentSongIndex st < Z.of_nat (length (playQueue st)) →
  ((repeatMode st = RepeatNone →
      currentSongIndex st + 1 < Z.of_nat (length (playQueue st))) →
   sameControls (playNextSong st) st2 →
   pastScrubBack (audioRef st2) = false →
   sameControls st (playPrevSong st2))
  ∧ ((repeatMode st = RepeatNone → 0 < currentSongIndex st) →
     pastScrubBack (audioRef st) = false →
     sameControls (playPrevSong st) st2 →
     sameControls st (playNextSong st2)).
Proof.
  intros Hone Hrange. split.
  - intros Hedge Hact Hscrub.
    set (st0 := setAudio None st).
    assert (Hsame0 : sameControls st st0) by (by repeat split).
    destruct (playPrevSong_playNextSong_handlers st0 Hone eq_refl Hrange)
      as [Hback _].
    specialize (Hback Hedge).
    eapply sameControls_trans; [exact Hsame0 |].
    rewrite <- Hback at 1.
    apply playPrevSong_sameControls.
    + eapply sameControls_trans; [| exact Hact].
      apply playNextSong_sameControls. by apply sameControls_sym.
    + rewrite playNextSong_audioRef by done. by rewrite Hscrub.
  - intros Hedge Hscrub Hact.
    destruct (playPrevSong_playNextSong_handlers st Hone Hscrub Hrange)
      as [_ Hback].
    specialize (Hback Hedge). rewrite <- Hback at 1.
    by apply playNextSong_sameControls.
Qed.

Lemma playPrevSong_undoes_playNextSong_witness :
  let st := Examples.playing
              [Examples.songA; Examples.songB; Examples.songC] 2 RepeatAll 10%Q in
  let st2 := MoreExamples.afterEffects 1%Q (playNextSong st) in
  repeatMode st ≠ RepeatOne
  ∧ 0 ≤ currentSongIndex st < Z.of_nat (length (playQueue st))
  ∧ sameControls (playNextSong st) st2
  ∧ pastScrubBack (audioRef st2) = false
  ∧ currentSongIndex st2 = 0
  ∧ currentSongIndex (playPrevSong st2) = 2.
Proof.
  cbn zeta.
  assert (Hone : repeatMode (Examples.playing
            [Examples.songA; Examples.songB; Examples.songC] 2 RepeatAll 10%Q)
          ≠ RepeatOne) by discriminate.
  assert (Hrange : 0 ≤ currentSongIndex (Examples.playing
            [Examples.songA; Examples.songB; Examples.songC] 2 RepeatAll 10%Q)
          < Z.of_nat (length (playQueue (Examples.playing
            [Examples.songA; Examples.songB; Examples.songC] 2 RepeatAll 10%Q))))
    by (simpl; lia).
  split; [exact Hone |]. split; [exact Hrange |].
  split; [apply afterEffects_sameControls |]. split; [reflexivity |].
  split; [reflexivity |].
  assert (Hedge : repeatMode (Examples.playing
            [Examples.songA; Examples.songB; Examples.songC] 2 RepeatAll 10%Q)
          = RepeatNone →
          currentSongIndex (Examples.playing
            [Examples.songA; Examples.songB; Examples.songC] 2 RepeatAll 10%Q) + 1
          < Z.of_nat (length (playQueue (Examples.playing
            [Examples.songA; Examples.songB; Examples.songC] 2 RepeatAll 10%Q))))
    by (intros Hnone; discriminate Hnone).
  destruct (proj1 (playPrevSong_undoes_playNextSong _ _ Hone Hrange) Hedge
              (afterEffects_sameControls 1%Q _) eq_refl)
    as (_ & Hpointer & _).
  exact Hpointer.
Defined.

Lemma getShuffledQueue_nonempty (mode : ShuffleMode) (source : list Song) (g : Rng) :
  source ≠ [] → (getShuffledQueue mode source g).1 ≠ [].
Proof.
  intros Hne Hnil.
  pose proof (getShuffledQueue_Permutation mode source g) as Hperm.
  rewrite Hnil in Hperm. apply Permutation_nil_l in Hperm. congruence.
Qed.

(** X19. The shuffle toggle at the edges.  With an empty queue it changes the
    mode and nothing else, and draws nothing.  With a queue but no current
    song (the pointer is -1) it throws a TypeError, because the lookup reads
    the identity of a song that is not there; only when it turns shuffle
    off and the active view has no songs does it return, with an empty
    queue. *)
Theorem toggleShuffle_without_current_song (st : AppState) (g : Rng) :
  (playQueue st = [] →
     toggleShuffle st g = Ok (setShuffleMode (nextShuffleMode (shuffleMode st)) st, g))
  ∧ (playQueue st ≠ [] → currentSong st = None →
       (nextShuffleMode (shuffleMode st) ≠ ShuffleNone →
          toggleShuffle st g = Throw TypeError)
       ∧ (nextShuffleMode (shuffleMode st) = ShuffleNone →
          originalList st ≠ [] → toggleShuffle st g = Throw TypeError)
       ∧ (nextShuffleMode (shuffleMode st) = ShuffleNone →
          originalList st = [] →
          toggleShuffle st g
          = Ok (setCurrentSongIndex (-1)
                  (setPlayQueue [] (setShuffleMode ShuffleNone st)), g))).
Proof.
  split.
  - intros Hempty. unfold toggleShuffle. rewrite Hempty. simpl.
    by rewrite !andb_false_r.
  - intros Hqueue Hcur.
    assert (Hlen : (0 < length (playQueue st))%nat).
    { destruct (playQueue st); [done | simpl; lia]. }
    unfold currentSong in Hcur.
    split; [| split].
    + intros Hmode. unfold toggleShuffle.
      rewrite (bool_decide_eq_true_2 _ Hmode), bool_decide_eq_true_2 by done.
      simpl. rewrite Hcur.
      pose proof (getShuffledQueue_nonempty (shuffleMode st) (playQueue st) g Hqueue)
        as Hne.
      destruct (getShuffledQueue (shuffleMode st) (playQueue st) g) as [queue g1].
      simpl in Hne. destruct queue as [|x queue]; done.
    + intros Hmode Hlist. unfold toggleShuffle. rewrite Hmode. simpl.
      rewrite bool_decide_eq_true_2 by done. rewrite Hcur.
      destruct (originalList st) as [|[x|] l]; done.
    + intros Hmode Hlist. unfold toggleShuffle. rewrite Hmode. simpl.
      rewrite bool_decide_eq_true_2 by done. by rewrite Hcur, Hlist.
Qed.

Lemma toggleShuffle_without_current_song_witness :
  let st := setCurrentSongIndex (-1)
              (Examples.playing [Examples.songA; Examples.songB] 0 RepeatNone 0%Q) in
  playQueue st ≠ [] ∧ currentSong st = None
  ∧ nextShuffleMode (shuffleMode st) ≠ ShuffleNone
  ∧ toggleShuffle st Examples.alternating = Throw TypeError.
Proof.
  cbn zeta.
  assert (Hqueue : playQueue (setCurrentSongIndex (-1)
            (Examples.playing [Examples.songA; Examples.songB] 0 RepeatNone 0%Q))
          ≠ []) by discriminate.
  assert (Hmode : nextShuffleMode (shuffleMode (setCurrentSongIndex (-1)
            (Examples.playing [Examples.songA; Examples.songB] 0 RepeatNone 0%Q)))
          ≠ ShuffleNone) by discriminate.
  split; [exact Hqueue |]. split; [reflexivity |]. split; [exact Hmode |].
  exact (proj1 (proj2 (toggleShuffle_without_current_song _ Examples.alternating)
                  Hqueue eq_refl) Hmode).
Defined.

(** ** The source view *)

Lemma find_first_hasId (i : string) (library : list Song) :
  match find_first (hasId i) library with
  | Some s => s ∈ library ∧ id s = i
  | None => i ∉ id <$> library
  end.
Proof.
  destruct (find_first (hasId i) library) as [s|] eqn:Hfind.
  - destruct (find_first_Some _ _ _ Hfind) as [Hin Hid].
    split; [done |]. by apply hasId_true.
  - intros [s [Hid Hin]]%list_elem_of_fmap.
    pose proof (proj1 (find_first_None _ _) Hfind s Hin) as Hno.
    apply hasId_false in Hno. congruence.
Qed.

(** X20. The songs of a playlist view are those of the playlist, in the order of
    the playlist, without the identities that are not in the library: a
    dangling identity is dropped, not reported.  A view on a playlist that
    does not exist is empty. *)
Theorem viewItems_playlist (st : AppState) :
  view_type (activeView st) = PlaylistView →
  (find_first (isActivePlaylist (activeView st)) (playlists st) = None →
     viewItems st = [])
  ∧ (∀ p, find_first (isActivePlaylist (activeView st)) (playlists st) = Some p →
       id <$> viewItems st
       = filter (λ i, i ∈ id <$> songs st) (songIds p)
       ∧ ∀ s, s ∈ viewItems st → s ∈ songs st).
Proof.
  intros Hview. unfold viewItems. rewrite Hview. split; [by intros -> |].
  intros p ->. split.
  - induction (songIds p) as [|i ids IH]; [done |].
    cbn [omap list_omap]. pose proof (find_first_hasId i (songs st)) as Hfind.
    destruct (find_first (hasId i) (songs st)) as [s|].
    + destruct Hfind as [Hin Hid]. rewrite filter_cons_True.
      * rewrite fmap_cons, Hid. f_equal. apply IH.
      * apply list_elem_of_fmap. eauto.
    + rewrite filter_cons_False by done. apply IH.
  - intros s [i [_ Hs]]%list_elem_of_omap.
    pose proof (find_first_hasId i (songs st)) as Hfind. rewrite Hs in Hfind.
    by destruct Hfind.
Qed.

Lemma viewItems_playlist_witness :
  let st := mkApp [Examples.songA; Examples.songB]
              [mkPlaylist 1 "Mix" ["b.mp3-2"; "gone.mp3-9"; "a.mp3-1"] 0]
              (mkView PlaylistView (Some 1)) "" (mkSortOption KeyTitle Asc)
              (-1) [] false 0%Q 0%Q ShuffleNone RepeatNone None ∅ in
  view_type (activeView st) = PlaylistView
  ∧ id <$> viewItems st = ["b.mp3-2"; "a.mp3-1"].
Proof.
  cbn zeta. split; [reflexivity |].
  destruct (viewItems_playlist
    (mkApp [Examples.songA; Examples.songB]
       [mkPlaylist 1 "Mix" ["b.mp3-2"; "gone.mp3-9"; "a.mp3-1"] 0]
       (mkView PlaylistView (Some 1)) "" (mkSortOption KeyTitle Asc)
       (-1) [] false 0%Q 0%Q ShuffleNone RepeatNone None ∅) eq_refl) as [_ Hp].
  destruct (Hp _ eq_refl) as [-> _]. reflexivity.
Defined.

Lemma viewItems_in_library (st : AppState) (s : Song) :
  s ∈ viewItems st → s ∈ songs st.
Proof.
  unfold viewItems. destruct (view_type (activeView st)); [done |].
  destruct (find_first _ _) as [p|]; [| intros H; inversion H].
  intros [i [_ Hs]]%list_elem_of_omap.
  pose proof (find_first_hasId i (songs st)) as Hfind. rewrite Hs in Hfind.
  by destruct Hfind.
Qed.

(** X21. Whatever the engine's string functions do: every song shown is a song
    of the library; with a search text every song shown matches it; and
    without one the view shows exactly the songs of the active view, the
    whole library when the library is in view. *)
Theorem filteredAndSortedSongs_shows (localeCompare : string → string → Z)
    (toLowerCase : string → string) (st : AppState) :
  let view := filteredAndSortedSongs localeCompare toLowerCase st in
  (∀ s, s ∈ view → s ∈ songs st)
  ∧ (searchQuery st ≠ "" →
       ∀ s, s ∈ view → matchesSearch toLowerCase (searchQuery st) s = true)
  ∧ (searchQuery st = "" →
       view ≡ₚ viewItems st
       ∧ (view_type (activeView st) = Library →
            view ≡ₚ songs st ∧ length view = length (songs st))).
Proof.
  cbn zeta. unfold filteredAndSortedSongs. split; [| split].
  - intros s. rewrite sortWith_Permutation. case_bool_decide.
    + intros [_ Hs]%list_elem_of_filter. by apply viewItems_in_library.
    + apply viewItems_in_library.
  - intros Hquery s. rewrite sortWith_Permutation.
    rewrite bool_decide_eq_true_2 by done.
    by intros [Hs _]%list_elem_of_filter.
  - intros Hquery. rewrite bool_decide_eq_false_2 by (by intros H).
    pose proof (sortWith_Permutation (sortCompare localeCompare (sortOption st))
                  (viewItems st) tt) as Hperm.
    split; [done |]. intros Hlib.
    assert (Hitems : viewItems st = songs st) by (unfold viewItems; by rewrite Hlib).
    rewrite Hitems in Hperm |- *. split; [done | by apply Permutation_length].
Qed.

Lemma filteredAndSortedSongs_shows_witness :
  searchQuery MoreExamples.idleLibrary = ""
  ∧ filteredAndSortedSongs MoreExamples.codeUnitCompare MoreExamples.asIs
      MoreExamples.idleLibrary
    ≡ₚ songs MoreExamples.idleLibrary.
Proof.
  split; [reflexivity |].
  exact (proj1 (proj2 (proj2 (proj2 (filteredAndSortedSongs_shows
    MoreExamples.codeUnitCompare MoreExamples.asIs MoreExamples.idleLibrary))
    eq_refl) eq_refl)).
Defined.

Lemma isPositive_inject_Z (z : Z) : isPositive (inject_Z z) = true ↔ 0 < z.
Proof.
  unfold isPositive. rewrite negb_true_iff. split.
  - intros H. destruct (Z.lt_ge_cases 0 z) as [| Hle]; [done |].
    assert (Qle_bool (inject_Z z) 0 = true); [| congruence].
    apply Qle_bool_iff. change 0%Q with (inject_Z 0). by rewrite <- Zle_Qle.
  - intros Hz. destruct (Qle_bool (inject_Z z) 0) eqn:Hle; [| done].
    apply Qle_bool_iff in Hle. change 0%Q with (inject_Z 0) in Hle.
    rewrite <- Zle_Qle in Hle. lia.
Qed.

Lemma Sorted_weaken {A} (R1 R2 : A → A → Prop) (l : list A) :
  (∀ a b, R1 a b → R2 a b) → Sorted R1 l → Sorted R2 l.
Proof.
  intros Himpl. induction 1 as [|x l Hs IH Hhd]; constructor; [done |].
  destruct Hhd; constructor. by apply Himpl.
Qed.

(** The sort puts an array in order when its comparator compares a number
    that each element carries. *)
Section NumericSort.
Context {A : Type}.
Variable compare : A → A → Z.
Variable keyOf : A → Z.
Hypothesis compare_keyOf : ∀ a b, 0 < compare a b ↔ keyOf b < keyOf a.

Lemma insertBack_numeric_sorted (x : A) (before : list A) :
  Sorted (λ a b, keyOf b ≤ keyOf a) before →
  Sorted (λ a b, keyOf b ≤ keyOf a)
    (insertBack (λ a b (u : unit), (inject_Z (compare a b), u)) x before tt).1
  ∧ ∀ y, keyOf x ≤ keyOf y → HdRel (λ a b, keyOf b ≤ keyOf a) y before →
         HdRel (λ a b, keyOf b ≤ keyOf a) y
           (insertBack (λ a b (u : unit), (inject_Z (compare a b), u)) x before tt).1.
Proof.
  induction 1 as [|y rest Hsorted IH Hhd].
  - simpl. split; [repeat constructor |]. intros y Hy _. by constructor.
  - simpl. destruct (isPositive (inject_Z (compare y x))) eqn:Hpos.
    + apply isPositive_inject_Z, compare_keyOf in Hpos.
      destruct IH as [IHsorted IHhd].
      destruct (insertBack _ x rest tt) as [placed u] eqn:Hplaced. simpl in *.
      split.
      * constructor; [done |]. apply IHhd; [lia | done].
      * intros z Hz Hzy. inversion Hzy; subst. by constructor.
    + assert (Hle : keyOf y ≤ keyOf x).
      { destruct (Z.lt_ge_cases (keyOf x) (keyOf y)) as [Hlt |]; [| lia].
        apply compare_keyOf, isPositive_inject_Z in Hlt. congruence. }
      simpl. split.
      * constructor; [by constructor |]. by constructor.
      * intros z Hz _. by constructor.
Qed.

Lemma sortWith_numeric_sorted (arr : list A) :
  Sorted (λ a b, keyOf a ≤ keyOf b)
    (sortWith (λ a b (u : unit), (inject_Z (compare a b), u)) arr tt).1.
Proof.
  unfold sortWith.
  assert (Hloop : ∀ todo before,
    Sorted (λ a b, keyOf b ≤ keyOf a) before →
    Sorted (λ a b, keyOf a ≤ keyOf b)
      (sortLoop (λ a b (u : unit), (inject_Z (compare a b), u)) todo before tt).1).
  { induction todo as [|x rest IH]; intros before Hbefore.
    - simpl. rewrite rev_alt. fold (reverse before).
      by apply (Sorted_reverse (λ a b, keyOf b ≤ keyOf a)).
    - simpl. destruct (insertBack_numeric_sorted x before Hbefore) as [Hs _].
      destruct (insertBack _ x before tt) as [before' []]. by apply IH. }
  apply Hloop. constructor.
Qed.
End NumericSort.

(** X22. Sorted by play count or by date added, the view is in that order:
    ascending the numbers never fall from one row to the next, descending
    they never rise. *)
Theorem filteredAndSortedSongs_sorted_by_number
    (localeCompare : string → string → Z) (toLowerCase : string → string)
    (st : AppState) (keyOf : Song → Z) :
  (key (sortOption st) = KeyPlayCount ∧ keyOf = playCount)
  ∨ (key (sortOption st) = KeyDateAdded ∧ keyOf = dateAdded) →
  let view := filteredAndSortedSongs localeCompare toLowerCase st in
  match direction (sortOption st) with
  | Asc => Sorted (λ a b, keyOf a ≤ keyOf b) view
  | Desc => Sorted (λ a b, keyOf b ≤ keyOf a) view
  end.
Proof.
  intros Hkey. cbn zeta. unfold filteredAndSortedSongs.
  set (items := if bool_decide (searchQuery st ≠ "") then _ else _).
  assert (Hcmp : sortCompare localeCompare (sortOption st)
    = λ a b (u : unit),
        (inject_Z (match direction (sortOption st) with
                   | Asc => keyOf a - keyOf b
                   | Desc => - (keyOf a - keyOf b)
                   end), u)).
  { unfold sortCompare. by destruct Hkey as [[-> ->] | [-> ->]]. }
  rewrite Hcmp. destruct (direction (sortOption st)).
  - apply (sortWith_numeric_sorted (λ a b, keyOf a - keyOf b) keyOf).
    intros a b. lia.
  - pose proof (sortWith_numeric_sorted (λ a b, - (keyOf a - keyOf b))
                  (λ a, - keyOf a) ltac:(intros a b; simpl; lia) items) as Hsorted.
    eapply Sorted_weaken; [| exact Hsorted]. intros a b. simpl. lia.
Qed.

Lemma filteredAndSortedSongs_sorted_by_number_witness :
  (key (sortOption MoreExamples.idleLibrary) = KeyPlayCount ∧ playCount = playCount)
  ∧ Sorted (λ a b, playCount a ≤ playCount b)
      (filteredAndSortedSongs MoreExamples.codeUnitCompare
         MoreExamples.asIs MoreExamples.idleLibrary).
Proof.
  split; [split; reflexivity |].
  exact (filteredAndSortedSongs_sorted_by_number MoreExamples.codeUnitCompare
    MoreExamples.asIs MoreExamples.idleLibrary playCount
    (or_introl (conj eq_refl eq_refl))).
Defined.

(** ** Play-count tracker: what is never counted *)

Lemma step_time_update_quiet (now : Z) (position : Q) (st : AppState) (g : Rng) :
  isPlaying st = false ∨ (position < PLAY_COUNT_THRESHOLD_S)%Q →
  ∃ st1, step now (TimeUpdate position) st g = (([], st1), g)
    ∧ isPlaying st1 = isPlaying st
    ∧ playQueue st1 = playQueue st
    ∧ currentSongIndex st1 = currentSongIndex st.
Proof.
  intros Hquiet. unfold step, handle.
  destruct (depsChanged st (updateCurrentTime position st)); [| by eexists].
  unfold playCountEffect, currentSong. simpl.
  destruct (at_index (playQueue st) (currentSongIndex st)) as [song|];
    [| by eexists].
  assert (Hcond : isPlaying st && Qle_bool PLAY_COUNT_THRESHOLD_S position = false).
  { destruct Hquiet as [-> | Hlt]; [done |].
    destruct (Qle_bool PLAY_COUNT_THRESHOLD_S position) eqn:Hle;
      [| by rewrite andb_false_r].
    apply Qle_bool_iff in Hle. by apply Qlt_not_le in Hlt. }
  rewrite Hcond. simpl.
  destruct (negb (isPlaying st) && negb (currentSongIndex st =? -1)); by eexists.
Qed.

(** X23. Position reports alone never count a play while the component is
    paused, nor while every reported position is below 5 seconds: however
    many there are and whatever the clock shows, [incrementPlayCount] is not
    called, and playing flag, queue and pointer stay as they are. *)
Theorem time_updates_below_threshold_never_count (events : list (Z * Signal))
    (st : AppState) (g : Rng) :
  Forall (λ e, ∃ position, e.2 = TimeUpdate position
                 ∧ (isPlaying st = false
                    ∨ (position < PLAY_COUNT_THRESHOLD_S)%Q)) events →
  (run events st g).1.1 = []
  ∧ isPlaying (run events st g).1.2 = isPlaying st
  ∧ playQueue (run events st g).1.2 = playQueue st
  ∧ currentSongIndex (run events st g).1.2 = currentSongIndex st
  ∧ (run events st g).2 = g.
Proof.
  revert st. induction events as [|[now sig] rest IH]; intros st Hall; [done |].
  apply Forall_cons in Hall as [(position & Hsig & Hquiet) Hrest].
  simpl in Hsig. subst sig. cbn [run].
  destruct (step_time_update_quiet now position st g Hquiet)
    as (st1 & -> & Hplay & Hqueue & Hindex).
  assert (Hrest1 : Forall (λ e, ∃ position, e.2 = TimeUpdate position
                      ∧ (isPlaying st1 = false
                         ∨ (position < PLAY_COUNT_THRESHOLD_S)%Q)) rest)
    by (by rewrite Hplay).
  destruct (IH st1 Hrest1) as (Hcalls & Hp & Hq & Hi & Hg).
  destruct (run rest st1 g) as [[calls' st2] g2]. simpl in *.
  subst. repeat split; congruence.
Qed.

Lemma time_updates_below_threshold_never_count_witness :
  Forall (λ e, ∃ position, e.2 = TimeUpdate position
                 ∧ (isPlaying (Examples.playing [Examples.songA] 0 RepeatNone 0%Q)
                    = false
                    ∨ (position < PLAY_COUNT_THRESHOLD_S)%Q))
         [(1700000000000, TimeUpdate 1%Q); (1700000000250, TimeUpdate (9 # 2)%Q);
          (1700000000500, TimeUpdate 2%Q)]
  ∧ (run [(1700000000000, TimeUpdate 1%Q); (1700000000250, TimeUpdate (9 # 2)%Q);
          (1700000000500, TimeUpdate 2%Q)]
         (Examples.playing [Examples.songA] 0 RepeatNone 0%Q)
         Examples.alternating).1.1 = [].
Proof.
  assert (Hall : Forall (λ e, ∃ position, e.2 = TimeUpdate position
                 ∧ (isPlaying (Examples.playing [Examples.songA] 0 RepeatNone 0%Q)
                    = false
                    ∨ (position < PLAY_COUNT_THRESHOLD_S)%Q))
         [(1700000000000, TimeUpdate 1%Q); (1700000000250, TimeUpdate (9 # 2)%Q);
          (1700000000500, TimeUpdate 2%Q)]).
  { repeat (apply Forall_cons_2;
            [eexists; split; [reflexivity | right; reflexivity] |]).
    apply Forall_nil_2. }
  split; [exact Hall |].
  exact (proj1 (time_updates_below_threshold_never_count _ _
                  Examples.alternating Hall)).
Defined.

(** ** Import *)

Lemma splitLastDot_Some (s stem ext : string) :
  splitLastDot s = Some (stem, ext) →
  s = stem +:+ "." +:+ ext ∧ splitLastDot ext = None.
Proof.
  revert stem ext. induction s as [|c rest IH]; intros stem ext; [done |].
  simpl. destruct (splitLastDot rest) as [[stem' ext']|] eqn:Hrest.
  - intros [= <- <-]. destruct (IH _ _ eq_refl) as [-> Hext]. done.
  - destruct (Ascii.eqb_spec c "."%char) as [-> |]; [| done].
    by intros [= <- <-].
Qed.

Lemma splitLastDot_no_dot (s : string) :
  occurs "."%char s = false → splitLastDot s = None.
Proof.
  induction s as [|c rest IH]; [done |]. simpl.
  intros [Hc Hrest]%orb_false_iff. by rewrite IH, Hc.
Qed.

Lemma splitLastDot_at_last_dot (stem ext : string) :
  occurs "."%char ext = false →
  splitLastDot (stem +:+ "." +:+ ext) = Some (stem, ext).
Proof.
  intros Hext. induction stem as [|c stem IH].
  - simpl. by rewrite splitLastDot_no_dot.
  - change (String c stem +:+ "." +:+ ext) with (String c (stem +:+ "." +:+ ext)).
    cbn [splitLastDot]. by rewrite IH.
Qed.

Lemma hasSlash_occurs (s : string) : hasSlash s = occurs "/"%char s.
Proof. induction s as [|c rest IH]; [done |]. simpl. by rewrite IH. Qed.

(** X24. The extension and the title that a scan takes from a file name.  Let
    [ext] hold no dot.  For the name [stem.ext] the extension is [ext] (it
    may be empty), and the title is [stem] when [ext] is not empty and
    holds no slash, and the whole name otherwise.  The name [ext] itself,
    without any dot, is its own extension and its own title. *)
Theorem stripExtension_popSplitDot (stem ext : string) :
  occurs "."%char ext = false →
  popSplitDot (stem +:+ "." +:+ ext) = ext
  ∧ stripExtension (stem +:+ "." +:+ ext)
    = (if bool_decide (ext ≠ "") && negb (occurs "/"%char ext)
       then stem else stem +:+ "." +:+ ext)
  ∧ popSplitDot ext = ext
  ∧ stripExtension ext = ext.
Proof.
  intros Hext. unfold popSplitDot, stripExtension.
  rewrite (splitLastDot_at_last_dot stem ext Hext).
  rewrite (splitLastDot_no_dot ext Hext), hasSlash_occurs. done.
Qed.

Lemma stripExtension_popSplitDot_witness :
  occurs "."%char "mp3" = false
  ∧ popSplitDot "my.song.mp3" = "mp3"
  ∧ stripExtension "my.song.mp3" = "my.song"
  ∧ stripExtension "notes.d/readme" = "notes.d/readme"
  ∧ stripExtension "track." = "track.".
Proof.
  split; [reflexivity |].
  destruct (stripExtension_popSplitDot "my.song" "mp3" eq_refl)
    as (Hpop & Hstrip & _).
  split; [exact Hpop |]. split; [exact Hstrip |].
  split.
  - exact (proj1 (proj2 (stripExtension_popSplitDot "notes" "d/readme" eq_refl))).
  - exact (proj1 (proj2 (stripExtension_popSplitDot "track" "" eq_refl))).
Defined.

Section ImportFacts.
Variable toLowerCase : string → string.
Variable readTags : File → option Tags.
Variable probeDuration : File → Q.

Lemma scanLoop_member (existing : gset string) (now : nat → Z)
    (files : list File) (i : nat) (s : Song) :
  s ∈ scanLoop toLowerCase readTags probeDuration existing now files i →
  ∃ f tags j, f ∈ files
    ∧ skipsFile toLowerCase existing f = false
    ∧ readTags f = Some tags
    ∧ s = songOfFile probeDuration f tags (now j).
Proof.
  revert i. induction files as [|f rest IH]; intros i; [intros H; inversion H |].
  simpl. destruct (skipsFile toLowerCase existing f) eqn:Hskip.
  - intros Hs. destruct (IH _ Hs) as (f' & tags & j & Hf & H).
    exists f', tags, j. split; [by apply list_elem_of_further | done].
  - destruct (readTags f) as [tags|] eqn:Htags.
    + intros [-> | Hs]%elem_of_cons.
      * exists f, tags, i. split; [apply list_elem_of_here | done].
      * destruct (IH _ Hs) as (f' & tags' & j & Hf & H).
        exists f', tags', j. split; [by apply list_elem_of_further | done].
    + intros Hs. destruct (IH _ Hs) as (f' & tags' & j & Hf & H).
      exists f', tags', j. split; [by apply list_elem_of_further | done].
Qed.

Lemma scanLoop_names (existing : gset string) (now : nat → Z)
    (files : list File) (i : nat) (f : File) (tags : Tags) :
  f ∈ files → skipsFile toLowerCase existing f = false → readTags f = Some tags →
  name f ∈ fileName <$> scanLoop toLowerCase readTags probeDuration existing now files i.
Proof.
  revert i. induction files as [|f' rest IH]; intros i Hf Hskip Htags;
    [inversion Hf |].
  simpl. apply elem_of_cons in Hf as [<- | Hf].
  - rewrite Hskip, Htags. rewrite fmap_cons. apply list_elem_of_here.
  - destruct (skipsFile toLowerCase existing f'); [by apply IH |].
    destruct (readTags f'); [| by apply IH].
    rewrite fmap_cons. apply list_elem_of_further. by apply IH.
Qed.

(** X25. Every song that a scan imports comes from one of the files, carries the
    file's name, the identity made of name and modification time, and a play
    count of 0; its file has a supported extension and readable tags; and no
    song of the library already had that file name. *)
Theorem scanFiles_imports (files : list File) (now : nat → Z) (st : AppState)
    (s : Song) :
  s ∈ scanLoop toLowerCase readTags probeDuration (fileNamesOf (songs st)) now files 0 →
  file s ∈ files
  ∧ fileName s = name (file s)
  ∧ id s = name (file s) +:+ "-" +:+ pretty (lastModified (file s))
  ∧ playCount s = 0
  ∧ toLowerCase (popSplitDot (fileName s)) ∈ SUPPORTED_FORMATS
  ∧ is_Some (readTags (file s))
  ∧ fileName s ∉ (fileName <$> songs st).
Proof.
  intros Hs. destruct (scanLoop_member _ _ _ _ _ Hs) as (f & tags & j & Hf & Hskip & Htags & ->).
  simpl. unfold skipsFile in Hskip.
  apply orb_false_iff in Hskip as [Hskip Hexisting].
  apply orb_false_iff in Hskip as [_ Hext].
  apply negb_false_iff, bool_decide_eq_true in Hext.
  apply bool_decide_eq_false in Hexisting.
  split; [done |]. split; [done |]. split; [done |]. split; [done |].
  split; [done |]. split; [by eexists |].
  intros Hin. apply Hexisting. unfold fileNamesOf. by apply elem_of_list_to_set.
Qed.

(** X26. A scan always returns.  The library of the component is the old library
    followed by the imported songs, the store holds what it held plus the
    batch, and the player state is untouched; when nothing is imported,
    neither the component nor the database changes, and no transaction is
    opened. *)
Theorem scanFiles_grows_library (files : list File) (now : nat → Z)
    (st : AppState) (db : Database) :
  let newSongs :=
    scanLoop toLowerCase readTags probeDuration (fileNamesOf (songs st)) now files 0 in
  ∃ st' db',
    scanFiles toLowerCase readTags probeDuration files now st db = Ok (st', db')
    ∧ songs st' = songs st ++ newSongs
    ∧ songsStore db' = storeAfter newSongs (songsStore db)
    ∧ (∀ k, is_Some (getSongById k db) → is_Some (getSongById k db'))
    ∧ playQueue st' = playQueue st
    ∧ currentSongIndex st' = currentSongIndex st
    ∧ isPlaying st' = isPlaying st
    ∧ (newSongs = [] → st' = st ∧ db' = db).
Proof.
  cbn zeta. unfold scanFiles.
  set (newSongs := scanLoop _ _ _ _ _ _ _).
  assert (Hkeeps : ∀ k, is_Some (songsStore db !! k) →
                        is_Some (storeAfter newSongs (songsStore db) !! k)).
  { intros k [x Hx]. rewrite storeAfter_union, lookup_union, Hx.
    destruct (storeAfter newSongs ∅ !! k); simpl; eauto. }
  case_bool_decide as Hnew.
  - rewrite addSongs_spec. eexists _, _. split; [done |]. simpl.
    split; [done |]. split; [done |]. split; [exact Hkeeps |].
    split; [done |]. split; [done |]. split; [done |].
    intros Hnil. rewrite Hnil in Hnew. simpl in Hnew. lia.
  - exists st, db.
    assert (HnewNil : newSongs = [])
      by (destruct newSongs; [done | simpl in Hnew; lia]).
    rewrite HnewNil. simpl. rewrite app_nil_r.
    split; [done |]. split; [done |]. split; [done |]. split; [done |].
    split; [done |]. split; [done |]. split; done.
Qed.

(** X27. Scanning the same files once more, whatever the clock shows by then,
    imports nothing: component and database stay as the first scan left
    them. *)
Theorem scanFiles_again_imports_nothing (files : list File) (now now2 : nat → Z)
    (st st' : AppState) (db db' : Database) :
  scanFiles toLowerCase readTags probeDuration files now st db = Ok (st', db') →
  scanFiles toLowerCase readTags probeDuration files now2 st' db' = Ok (st', db').
Proof.
  intros Hfirst.
  assert (Hsongs : songs st' = songs st
            ++ scanLoop toLowerCase readTags probeDuration
                 (fileNamesOf (songs st)) now files 0).
  { unfold scanFiles in Hfirst. case_bool_decide as Hnew.
    - rewrite addSongs_spec in Hfirst. by injection Hfirst as <- <-.
    - injection Hfirst as <- <-.
      destruct (scanLoop _ _ _ _ _ _ _); [by rewrite app_nil_r | simpl in Hnew; lia]. }
  assert (Hnothing : ∀ i, scanLoop toLowerCase readTags probeDuration
                            (fileNamesOf (songs st')) now2 files i = []).
  { assert (Hgen : ∀ done_ i,
      (∀ f tags, f ∈ done_ → skipsFile toLowerCase (fileNamesOf (songs st)) f = false →
                 readTags f = Some tags → name f ∈ fileNamesOf (songs st')) →
      scanLoop toLowerCase readTags probeDuration
        (fileNamesOf (songs st')) now2 done_ i = []).
    { induction done_ as [|f rest IH]; intros i Hdone; [done |].
      simpl.
      assert (Hrest : scanLoop toLowerCase readTags probeDuration
                        (fileNamesOf (songs st')) now2 rest (S i) = []).
      { apply IH. intros f' tags Hf'. apply Hdone. by apply list_elem_of_further. }
      destruct (skipsFile toLowerCase (fileNamesOf (songs st')) f) eqn:Hskip'; [done |].
      destruct (readTags f) as [tags|] eqn:Htags; [| done].
      exfalso.
      assert (Hskip : skipsFile toLowerCase (fileNamesOf (songs st)) f = false).
      { unfold skipsFile in *.
        apply orb_false_iff in Hskip' as [Hext Hexisting].
        rewrite Hext. simpl. apply bool_decide_eq_false.
        apply bool_decide_eq_false in Hexisting. intros Hin. apply Hexisting.
        unfold fileNamesOf in *. apply elem_of_list_to_set.
        apply elem_of_list_to_set in Hin. rewrite Hsongs, fmap_app.
        apply elem_of_app. by left. }
      pose proof (Hdone f tags (list_elem_of_here _ _) Hskip Htags) as Hname.
      unfold skipsFile in Hskip'. apply orb_false_iff in Hskip' as [_ Hexisting].
      by apply bool_decide_eq_false in Hexisting. }
    intros i. apply Hgen. intros f tags Hf Hskip Htags.
    unfold fileNamesOf. apply elem_of_list_to_set. rewrite Hsongs, fmap_app.
    apply elem_of_app. right. by eapply scanLoop_names. }
  unfold scanFiles. rewrite Hnothing. simpl. done.
Qed.
End ImportFacts.

Lemma scanFiles_imports_witness :
  let files := [mkFile "x.mp3" 7; mkFile "notes.txt" 1; mkFile "a.mp3" 1] in
  let st := Examples.playing [Examples.songA] 0 RepeatNone 0%Q in
  let s := mkSong "x.mp3-7" (mkFile "x.mp3" 7) "x.mp3" "Title" "Unknown Artist"
                  "Unknown Album" 3%Q 0 1700000000000 in
  s ∈ scanLoop MoreExamples.asIs MoreExamples.alwaysTags MoreExamples.threeSeconds
        (fileNamesOf (songs st)) MoreExamples.tick files 0
  ∧ fileName s ∉ (fileName <$> songs st).
Proof.
  cbn zeta.
  assert (Hs : mkSong "x.mp3-7" (mkFile "x.mp3" 7) "x.mp3" "Title" "Unknown Artist"
                  "Unknown Album" 3%Q 0 1700000000000
    ∈ scanLoop MoreExamples.asIs MoreExamples.alwaysTags MoreExamples.threeSeconds
        (fileNamesOf (songs (Examples.playing [Examples.songA] 0 RepeatNone 0%Q)))
        MoreExamples.tick
        [mkFile "x.mp3" 7; mkFile "notes.txt" 1; mkFile "a.mp3" 1] 0).
  { apply (bool_decide_unpack _). vm_compute. exact I. }
  split; [exact Hs |].
  exact (proj2 (proj2 (proj2 (proj2 (proj2 (proj2
    (scanFiles_imports MoreExamples.asIs MoreExamples.alwaysTags
       MoreExamples.threeSeconds _ _ _ _ Hs))))))).
Defined.

Lemma scanFiles_again_imports_nothing_witness :
  let files := [mkFile "x.mp3" 7; mkFile "notes.txt" 1; mkFile "a.mp3" 1] in
  let st := Examples.playing [Examples.songA] 0 RepeatNone 0%Q in
  ∃ st' db',
    scanFiles MoreExamples.asIs MoreExamples.alwaysTags MoreExamples.threeSeconds
      files MoreExamples.tick st (mkDb ∅ []) = Ok (st', db')
    ∧ scanFiles MoreExamples.asIs MoreExamples.alwaysTags MoreExamples.threeSeconds
        files MoreExamples.tick st' db' = Ok (st', db').
Proof.
  cbn zeta. eexists _, _. split.
  - vm_compute. reflexivity.
  - apply (scanFiles_again_imports_nothing MoreExamples.asIs MoreExamples.alwaysTags
      MoreExamples.threeSeconds _ MoreExamples.tick MoreExamples.tick
      (Examples.playing [Examples.songA] 0 RepeatNone 0%Q) _ (mkDb ∅ [])).
    vm_compute. reflexivity.
Defined.
